(** * Grixo: the post composer and the review state machine

    A shallow embedding of [src/services/gemini.ts], [src/services/xApi.ts],
    [src/services/discord.ts], [src/services/github.ts] and one route of
    [src/index.ts].  JavaScript strings are sequences of UTF-16 code units,
    numbers are integers or NaN, the two module-level [Map]s are finite
    maps, and every [await] on an external service reads the next answer
    of an oracle.  The listeners of [discord.ts] are given twice: run one
    after the other over a world of values, for what a single listener
    does, and in [Async] as programs that yield at every [await] over a
    heap of session objects, for what holds however they interleave. *)

From Stdlib Require Import ZArith NArith List String Ascii Lia Bool.
From stdpp Require Import base option list gmap fin_maps.
Import ListNotations.

Local Open Scope Z_scope.

(** ** JavaScript strings *)

(** A string is the list of its UTF-16 code units. *)
Abbreviation jsstring := (list N).

(** A string literal of the source, written with a Rocq literal. *)
Definition js (s : string) : jsstring :=
  map N_of_ascii (list_ascii_of_string s).

Definition nl : jsstring := [10%N].

(** [s.length], of a string or of an array. *)
Definition len {A} (s : list A) : Z := Z.of_nat (List.length s).

(** A string is truthy when it is not empty. *)
Definition truthy (s : jsstring) : bool :=
  match s with [] => false | _ :: _ => true end.

(** [o || d] for an optional string: [undefined] and the empty string both
    yield the default. *)
Definition orElse (o : option jsstring) (d : jsstring) : jsstring :=
  match o with
  | Some (c :: s) => c :: s
  | _ => d
  end.

(** An optional string is truthy when it is defined and not empty. *)
Definition truthyOpt (o : option jsstring) : bool :=
  match o with Some s => truthy s | None => false end.

(** WhiteSpace and LineTerminator code units, the ones [trim] strips and
    [parseInt] skips. *)
Definition isWhiteSpace (c : N) : bool :=
  ((9 <=? c) && (c <=? 13) || (c =? 32) || (c =? 160) || (c =? 5760)
   || (8192 <=? c) && (c <=? 8202) || (c =? 8232) || (c =? 8233)
   || (c =? 8239) || (c =? 8287) || (c =? 12288) || (c =? 65279))%N.

Fixpoint dropWhile (p : N -> bool) (s : jsstring) : jsstring :=
  match s with
  | [] => []
  | c :: s' => if p c then dropWhile p s' else s
  end.

Definition trimStart (s : jsstring) : jsstring := dropWhile isWhiteSpace s.
Definition trimEnd (s : jsstring) : jsstring := rev (dropWhile isWhiteSpace (rev s)).

(** [s.trim()] *)
Definition trim (s : jsstring) : jsstring := trimEnd (trimStart s).

(** [s.startsWith(p)] *)
Fixpoint startsWith (s p : jsstring) {struct p} : bool :=
  match p with
  | [] => true
  | a :: p' =>
      match s with
      | [] => false
      | b :: s' => (a =? b)%N && startsWith s' p'
      end
  end.

(** [s.endsWith(p)] *)
Definition endsWith (s p : jsstring) : bool := startsWith (rev s) (rev p).

(** [s.includes(p)] *)
Fixpoint includes (s p : jsstring) : bool :=
  startsWith s p || match s with [] => false | _ :: s' => includes s' p end.

(** [s.slice(1, -1)] *)
Definition slice1m1 (s : jsstring) : jsstring := removelast (tl s).

(** [s.substring(n)] and [s.substring(0, n)] for a non-negative literal [n]. *)
Definition substringFrom (n : nat) (s : jsstring) : jsstring := drop n s.
Definition substringTo (n : nat) (s : jsstring) : jsstring := take n s.

(** [s.split(sep)] for a separator of one code unit: never the empty list,
    the empty string splits into one empty piece. *)
Fixpoint split (sep : N) (s : jsstring) : list jsstring :=
  match s with
  | [] => [[]]
  | c :: s' =>
      if (c =? sep)%N then [] :: split sep s'
      else match split sep s' with
           | w :: ws => (c :: w) :: ws
           | [] => [[c]]
           end
  end.

(** [pieces.join(sep)] *)
Fixpoint join (sep : jsstring) (pieces : list jsstring) : jsstring :=
  match pieces with
  | [] => []
  | [p] => p
  | p :: ps => p ++ sep ++ join sep ps
  end.

(** ** JavaScript numbers

    The numbers of these modules are lengths, indices and parsed integers:
    an integer, or NaN ([None]).  [parseInt] is exact here; the source
    rounds a parsed value beyond 2^53 to the nearest double, which no
    comparison below can observe, a string being shorter than that. *)
Abbreviation number := (option Z).

Definition numSub (a b : number) : number :=
  match a, b with Some x, Some y => Some (x - y) | _, _ => None end.

(** [a > b], [a <= b], [a >= b] and [a < b]: false as soon as one side is NaN. *)
Definition numGt (a b : number) : bool :=
  match a, b with Some x, Some y => y <? x | _, _ => false end.
Definition numLe (a b : number) : bool :=
  match a, b with Some x, Some y => x <=? y | _, _ => false end.
Definition numGe (a b : number) : bool := numLe b a.
Definition numLt (a b : number) : bool := numGt b a.

Definition isNaN (a : number) : bool :=
  match a with None => true | Some _ => false end.

(** The value of a code unit as a digit: [0-9], [a-z] and [A-Z]. *)
Definition digitValue (c : N) : option Z :=
  if ((48 <=? c) && (c <=? 57))%N then Some (Z.of_N c - 48)
  else if ((97 <=? c) && (c <=? 122))%N then Some (Z.of_N c - 87)
  else if ((65 <=? c) && (c <=? 90))%N then Some (Z.of_N c - 55)
  else None.

(** The longest prefix of radix-[R] digits, with the integer it denotes;
    [None] when the prefix is empty. *)
Fixpoint parseDigits (R : Z) (acc : number) (s : jsstring) : number :=
  match s with
  | [] => acc
  | c :: s' =>
      match digitValue c with
      | Some d =>
          if d <? R
          then parseDigits R (Some (R * default 0 acc + d)) s'
          else acc
      | None => acc
      end
  end.

(** [parseInt(s, radix)]; radix [0] stands for an omitted radix. *)
Definition parseInt (s : jsstring) (radix : Z) : number :=
  let str := trimStart s in
  let sign := match str with 45%N :: _ => -1 | _ => 1 end in
  let str := match str with
             | 45%N :: str' => str'
             | 43%N :: str' => str'
             | _ => str
             end in
  if (negb (radix =? 0)) && ((radix <? 2) || (36 <? radix)) then None
  else
    let stripPrefix := (radix =? 0) || (radix =? 16) in
    let R := if radix =? 0 then 10 else radix in
    let '(R, str) :=
      match str with
      | 48%N :: x :: str' =>
          if stripPrefix && ((x =? 120) || (x =? 88))%N then (16, str') else (R, str)
      | _ => (R, str)
      end in
    match parseDigits R None str with
    | Some m => Some (sign * m)
    | None => None
    end.

(** [String(n)] for an integer: its decimal digits, most significant first. *)
Fixpoint decimalDigits (fuel : nat) (n : Z) (acc : jsstring) : jsstring :=
  match fuel with
  | O => acc
  | S fuel' =>
      let acc' := Z.to_N (48 + n mod 10) :: acc in
      if n <? 10 then acc' else decimalDigits fuel' (n / 10) acc'
  end.

Definition toDecimal (n : Z) : jsstring :=
  if n <? 0 then 45%N :: decimalDigits (Z.to_nat (- n)) (- n) []
  else decimalDigits (S (Z.to_nat n)) n [].

(** ** The sentence pattern

    [post.match(/[^.!?]+[.!?]+/g) || []]: the matcher tries the pattern at
    each index in turn; after a match it continues behind it. *)

Definition isTerminator (c : N) : bool := ((c =? 46) || (c =? 33) || (c =? 63))%N.

Fixpoint span (p : N -> bool) (s : jsstring) : jsstring * jsstring :=
  match s with
  | [] => ([], [])
  | c :: s' =>
      if p c then let '(a, b) := span p s' in (c :: a, b) else ([], s)
  end.

(** One attempt of the pattern anchored at the head of [s]: the greedy run
    of non-terminators, then the greedy run of terminators, both non-empty.
    Giving back part of the first run cannot help, the code unit behind a
    shorter run being a non-terminator. *)
Definition matchSentence (s : jsstring) : option (jsstring * jsstring) :=
  let '(body, r) := span (fun c => negb (isTerminator c)) s in
  let '(terms, r') := span isTerminator r in
  match body, terms with
  | _ :: _, _ :: _ => Some (body ++ terms, r')
  | _, _ => None
  end.

Fixpoint matchAll (fuel : nat) (s : jsstring) : list jsstring :=
  match fuel with
  | O => []
  | S fuel' =>
      match s with
      | [] => []
      | _ :: s' =>
          match matchSentence s with
          | Some (m, r) => m :: matchAll fuel' r
          | None => matchAll fuel' s'
          end
      end
  end.

Definition sentences (post : jsstring) : list jsstring :=
  matchAll (List.length post) post.

(** ** Data model *)

(** [CommitFile] and [CommitInfo] of the commit source adapter. *)
Record CommitFile := {
  filename : jsstring;
  status : jsstring;
  additions : Z;
  deletions : Z;
  changes : Z;
  patch : option jsstring;
}.

Record CommitInfo := {
  sha : jsstring;
  message : jsstring;
  date : jsstring;
  url : jsstring;
  repo : jsstring;
  files : option (list CommitFile);
}.

(** [UserState]: the session record.  [projectName] and [pendingPost] are
    optional fields. *)
Record UserState := {
  commits : list CommitInfo;
  selectedCommits : list CommitInfo;
  generatedSummary : option jsstring;
  generatedPost : option jsstring;
  projectName : option jsstring;
  pendingPost : option bool;
}.

(** The part of [process.env] these modules read. *)
Record Env := {
  GEMINI_API_KEY : option jsstring;
  X_CHARACTER_LIMIT : option jsstring;
  X_API_KEY : option jsstring;
  X_API_SECRET : option jsstring;
  X_ACCESS_TOKEN : option jsstring;
  X_ACCESS_TOKEN_SECRET : option jsstring;
  GITHUB_REPOS : option jsstring;
  DISCORD_CHANNEL_ID : jsstring;
  DISCORD_DEFAULT_PROJECT_NAME : option jsstring;
  DISCORD_MAX_SUMMARY_LENGTH : option jsstring;
}.

(** What the bot writes to the chat: [message.reply] and [channel.send]. *)
Inductive Outgoing :=
| Reply (text : jsstring)
| Send (text : jsstring).

(** The two module-level maps of [discord.ts], and the traffic with the
    outside: how many requests the text provider and the commit source
    have answered, the texts handed to the posting provider and the
    messages written to the chat, both newest first. *)
Record World := {
  userStates : gmap jsstring UserState;
  lastCheckedCommits : gmap jsstring jsstring;
  geminiCalls : nat;
  githubCalls : nat;
  tweetLog : list jsstring;
  outbox : list Outgoing;
}.

Definition initialWorld : World :=
  {| userStates := ∅; lastCheckedCommits := ∅; geminiCalls := 0;
     githubCalls := 0; tweetLog := []; outbox := [] |}.

Definition setUserStates (f : gmap jsstring UserState -> gmap jsstring UserState) (w : World) : World :=
  {| userStates := f (userStates w); lastCheckedCommits := lastCheckedCommits w;
     geminiCalls := geminiCalls w; githubCalls := githubCalls w;
     tweetLog := tweetLog w; outbox := outbox w |}.

Definition setLastCheckedCommits (f : gmap jsstring jsstring -> gmap jsstring jsstring) (w : World) : World :=
  {| userStates := userStates w; lastCheckedCommits := f (lastCheckedCommits w);
     geminiCalls := geminiCalls w; githubCalls := githubCalls w;
     tweetLog := tweetLog w; outbox := outbox w |}.

Definition countGeminiCall (w : World) : World :=
  {| userStates := userStates w; lastCheckedCommits := lastCheckedCommits w;
     geminiCalls := S (geminiCalls w); githubCalls := githubCalls w;
     tweetLog := tweetLog w; outbox := outbox w |}.

Definition countGithubCall (w : World) : World :=
  {| userStates := userStates w; lastCheckedCommits := lastCheckedCommits w;
     geminiCalls := geminiCalls w; githubCalls := S (githubCalls w);
     tweetLog := tweetLog w; outbox := outbox w |}.

Definition logTweet (text : jsstring) (w : World) : World :=
  {| userStates := userStates w; lastCheckedCommits := lastCheckedCommits w;
     geminiCalls := geminiCalls w; githubCalls := githubCalls w;
     tweetLog := text :: tweetLog w; outbox := outbox w |}.

Definition emit (o : Outgoing) (w : World) : World :=
  {| userStates := userStates w; lastCheckedCommits := lastCheckedCommits w;
     geminiCalls := geminiCalls w; githubCalls := githubCalls w;
     tweetLog := tweetLog w; outbox := o :: outbox w |}.

(** ** Effects

    An [async] function is a state transformer that returns or throws an
    [Error] with a message; what it wrote before throwing stays written. *)
Inductive Result (A : Type) :=
| Ok (a : A)
| Throw (errorMessage : jsstring).
Arguments Ok {A} a.
Arguments Throw {A} errorMessage.

Definition M (A : Type) : Type := World -> Result A * World.

Definition ret {A} (a : A) : M A := fun w => (Ok a, w).
Definition throw {A} (e : jsstring) : M A := fun w => (Throw e, w).
Definition bind {A B} (c : M A) (k : A -> M B) : M B :=
  fun w => match c w with
           | (Ok a, w') => k a w'
           | (Throw e, w') => (Throw e, w')
           end.
Definition tryCatch {A} (body : M A) (handler : jsstring -> M A) : M A :=
  fun w => match body w with
           | (Ok a, w') => (Ok a, w')
           | (Throw e, w') => handler e w'
           end.
Definition modify (f : World -> World) : M unit := fun w => (Ok tt, f w).
Definition gets {A} (f : World -> A) : M A := fun w => (Ok (f w), w).

Notation "x <- c ;; k" := (bind c (fun x => k))
  (at level 100, c at next level, right associativity).
Notation "c ;;; k" := (bind c (fun _ => k))
  (at level 100, right associativity).

(** The chat transport is taken to deliver: the configured channel is found
    and is a text channel, and [message.reply] and [channel.send] do not
    fail. *)
Definition reply (text : jsstring) : M unit := modify (emit (Reply text)).
Definition send (text : jsstring) : M unit := modify (emit (Send text)).

(** The prompts of [gemini.ts], by the values spliced into their fixed text. *)
Inductive Prompt :=
| PostPrompt (summary : jsstring) (projectName : option jsstring)
    (maxPostLength : number) (prefixLength : Z) (characterLimit : number)
| StricterPrompt (summary : jsstring) (maxPostLength : number)
| SummaryPrompt (commitsAnalysis : jsstring).

(** A failure of the posting provider, by the fields [postToX] inspects. *)
Record XFailure := {
  code : option Z;
  title : option jsstring;
  isError : bool;
  failureMessage : option jsstring;
}.

(** ** gemini.ts: the truncation fallback *)

(** The first loop of the fallback: sentences are appended in order while
    the text stays within the budget; the first one that does not fit ends
    the loop. *)
Fixpoint accumulateSentences (maxPostLength : number) (truncated : jsstring)
    (rest : list jsstring) : jsstring :=
  match rest with
  | [] => truncated
  | sentence :: rest' =>
      let test := truncated ++ sentence in
      if numLe (Some (len test)) maxPostLength
      then accumulateSentences maxPostLength test rest'
      else truncated
  end.

(** The second loop: the same over the words, a space between two of them. *)
Fixpoint accumulateWords (maxPostLength : number) (truncated : jsstring)
    (rest : list jsstring) : jsstring :=
  match rest with
  | [] => truncated
  | word :: rest' =>
      let test := truncated ++ (if truthy truncated then [32%N] else []) ++ word in
      if numLe (Some (len test)) maxPostLength
      then accumulateWords maxPostLength test rest'
      else truncated
  end.

(** The body of the final check of [generatePost], entered when the post is
    still longer than the budget after the retry. *)
Definition truncatePost (post : jsstring) (maxPostLength : number) : jsstring :=
  let truncated := accumulateSentences maxPostLength [] (sentences post) in
  if truthy truncated then trim truncated
  else trim (accumulateWords maxPostLength [] (split 32 post)).

(** The prefix put before the post when a project name is given. *)
Definition postPrefix (projectName : option jsstring) : jsstring :=
  if truthyOpt projectName
  then default [] projectName ++ js " Updates" ++ nl ++ nl
  else [].

(** The clean-up of a provider answer: trim, drop one pair of double quotes,
    then one pair of single quotes, trim again. *)
Definition stripQuotes (q : N) (content : jsstring) : jsstring :=
  if startsWith content [q] && endsWith content [q] then slice1m1 content
  else content.

Definition cleanResponse (text : jsstring) : jsstring :=
  trim (stripQuotes 39 (stripQuotes 34 (trim text))).

(** The message of the error [generateWithPrompt] throws for a provider
    failure with message [m]. *)
Definition geminiErrorMessage (m : option jsstring) : jsstring :=
  let has p := match m with Some s => includes s (js p) | None => false end in
  if has "403"%string || has "Forbidden"%string
  then js "Gemini API key is invalid or API is not enabled. Please check your API key in Google Cloud Console."
  else if has "401"%string || has "Unauthorized"%string
  then js "Gemini API key is invalid or expired. Please check your API key."
  else if has "429"%string || has "quota"%string
  then js "Gemini API quota exceeded. Please check your usage limits."
  else js "Failed to generate content: " ++ orElse m (js "Unknown error").

(** The message of the error [postToX] throws for a provider failure. *)
Definition xErrorMessage (f : XFailure) : jsstring :=
  if bool_decide (code f = Some 402) || bool_decide (title f = Some (js "CreditsDepleted"))
  then js "Your X account does not have credits available. The free tier includes 1,500 posts per month. Please check: 1) Go to developer.twitter.com/en/portal/dashboard, 2) Navigate to "
       ++ [34%N] ++ js "Billing" ++ [34%N] ++ js " or " ++ [34%N] ++ js "Usage" ++ [34%N]
       ++ js " section, 3) Ensure you are enrolled in the Free tier, 4) Check if you need to accept updated terms or activate the free tier."
  else if bool_decide (code f = Some 403)
  then js "Your app does not have write permissions. Please update your app permissions to "
       ++ [34%N] ++ js "Read and write" ++ [34%N] ++ js " in the Twitter Developer Portal."
  else if bool_decide (code f = Some 401)
  then js "X API authentication failed. Please check your API credentials."
  else if isError f then default [] (failureMessage f)
  else js "Failed to post to X: " ++ orElse (failureMessage f) (js "Unknown error").

(** [String(n)] for a number. *)
Definition numToString (n : number) : jsstring :=
  match n with Some z => toDecimal z | None => js "NaN" end.

Section Bot.

(** The configuration, and the collaborators as oracles: the [n]-th
    request to the text provider answers a text or fails with an optional
    message, the [n]-th request to the posting provider succeeds or fails,
    the [n]-th request to the commit source answers the commits of
    [getRecentCommitsFromRepos] before its final [slice], or fails. *)
Variable env : Env.
Variable complete : nat -> Prompt -> jsstring + option jsstring.
Variable tweet : nat -> jsstring -> option XFailure.
Variable github : nat -> list jsstring -> Z -> Result (list CommitInfo).

(** [toUpperCase] and [toLowerCase], the Unicode case mappings. *)
Variable toUpperCase : jsstring -> jsstring.
Variable toLowerCase : jsstring -> jsstring.

(** *** gemini.ts *)

Definition generateWithPrompt (prompt : Prompt) : M jsstring :=
  fun w =>
    if truthyOpt (GEMINI_API_KEY env) then
      match complete (geminiCalls w) prompt with
      | inl text => (Ok (cleanResponse text), countGeminiCall w)
      | inr m => (Throw (geminiErrorMessage m), countGeminiCall w)
      end
    else (Throw (js "GEMINI_API_KEY is not set in environment variables"), w).

(** [parseInt(process.env.X_CHARACTER_LIMIT || '280', 10)] *)
Definition characterLimit : number :=
  parseInt (orElse (X_CHARACTER_LIMIT env) (js "280")) 10.

Definition generatePost (summary : jsstring) (projectName : option jsstring) : M jsstring :=
  let prefix := postPrefix projectName in
  let prefixLength := len prefix in
  let maxPostLength := numSub characterLimit (Some prefixLength) in
  post <- generateWithPrompt
            (PostPrompt summary projectName maxPostLength prefixLength characterLimit) ;;
  let post := trim post in
  post <- (if numGt (Some (len post)) maxPostLength
           then post <- generateWithPrompt (StricterPrompt summary maxPostLength) ;;
                ret (trim post)
           else ret post) ;;
  let post := if numGt (Some (len post)) maxPostLength
              then truncatePost post maxPostLength
              else post in
  ret (if truthyOpt projectName
       then default [] projectName ++ js " Updates" ++ nl ++ nl ++ post
       else post).

Definition generateSummary (commitsAnalysis : jsstring) : M jsstring :=
  generateWithPrompt (SummaryPrompt commitsAnalysis).

(** *** xApi.ts

    The client is created once and kept; with a fixed environment the
    credential checks of its creation give the same answer at every call. *)
Definition postToX (text : jsstring) : M unit :=
  fun w =>
    if numGt (Some (len text)) characterLimit
    then (Throw (js "Post text exceeds " ++ numToString characterLimit ++ js " characters"), w)
    else if negb (truthyOpt (X_API_KEY env) && truthyOpt (X_API_SECRET env))
    then (Throw (js "X API credentials (X_API_KEY and X_API_SECRET) are required"), w)
    else if negb (truthyOpt (X_ACCESS_TOKEN env) && truthyOpt (X_ACCESS_TOKEN_SECRET env))
    then (Throw (js "X API access tokens (X_ACCESS_TOKEN and X_ACCESS_TOKEN_SECRET) are required. Please complete OAuth flow or generate tokens from Twitter Developer Portal."), w)
    else
      match tweet (List.length (tweetLog w)) text with
      | None => (Ok tt, logTweet text w)
      | Some f => (Throw (xErrorMessage f), logTweet text w)
      end.

(** *** discord.ts *)

Definition backticks : jsstring := js "```".

Definition usePostOrNo : jsstring :=
  js "Use `!post` to post this to X, or `!no` to discard.".

(** [githubRepos.split(',').map((r) => r.trim()).filter(Boolean)] *)
Definition configuredRepos (githubRepos : jsstring) : list jsstring :=
  List.filter truthy (map trim (split 44 githubRepos)).

(** [getRecentCommitsFromRepos(repos, githubToken, count)], whose last step
    is [slice(0, count)]. *)
Definition getRecentCommitsFromRepos (repos : list jsstring) (count : Z)
  : M (list CommitInfo) :=
  fun w =>
    match github (githubCalls w) repos count with
    | Ok cs => (Ok (take (Z.to_nat count) cs), countGithubCall w)
    | Throw e => (Throw e, countGithubCall w)
    end.

(** The key of the channel's auto-generated session. *)
Definition autoStateKey : jsstring := js "auto-" ++ DISCORD_CHANNEL_ID env.

Definition fileLine (f : CommitFile) : jsstring :=
  js "- " ++ filename f ++ js " (" ++ status f ++ js "): +"
  ++ toDecimal (additions f) ++ js " -" ++ toDecimal (deletions f) ++ js " lines".

(** [repoName.charAt(0).toUpperCase() + repoName.slice(1).toLowerCase()]
    for [repoName = repo.split('/')[1] || defaultProjectName]. *)
Definition projectNameOf (repoField : option jsstring) : jsstring :=
  let defaultProjectName := orElse (DISCORD_DEFAULT_PROJECT_NAME env) (js "Project") in
  let repoName := orElse (r ← repoField; split 47 r !! 1%nat) defaultProjectName in
  toUpperCase (take 1 repoName) ++ toLowerCase (drop 1 repoName).

(** An assignment to fields of the session object held under [key]. *)
Definition updateState (key : jsstring) (f : UserState -> UserState) : M unit :=
  modify (setUserStates (alter f key)).

(** The pieces of [processNewCommit]: the analysis text, the session it
    stores and the message it sends. *)
Definition autoAnalysis (commit : CommitInfo) : jsstring :=
  js "Repository: " ++ repo commit ++ nl ++ js "Commit: " ++ message commit ++ nl
  ++ match files commit with
     | Some (f :: fs) => js "Files changed:" ++ nl ++ join nl (map fileLine (f :: fs))
     | _ => []
     end.

Definition autoDraft (commit : CommitInfo) (summary name post : jsstring) : UserState :=
  {| commits := [commit]; selectedCommits := [commit];
     generatedSummary := Some summary; generatedPost := Some post;
     projectName := Some name; pendingPost := Some true |}.

Definition autoDraftMessage (commit : CommitInfo) (post : jsstring) : jsstring :=
  js "New commit detected in " ++ repo commit ++ nl ++ nl
  ++ js "**Generated Post:**" ++ nl ++ backticks ++ nl ++ post ++ nl
  ++ backticks ++ nl ++ nl ++ usePostOrNo.

Definition processNewCommit (commit : CommitInfo) : M unit :=
  tryCatch
    (summary <- generateSummary (autoAnalysis commit) ;;
     let name := projectNameOf (Some (repo commit)) in
     post <- generatePost summary (Some name) ;;
     modify (setUserStates (insert autoStateKey (autoDraft commit summary name post))) ;;;
     send (autoDraftMessage commit post))
    (fun e => send (js "Error generating post: " ++ e)).

Fixpoint forEach {A} (f : A -> M unit) (l : list A) : M unit :=
  match l with
  | [] => ret tt
  | a :: l' => f a ;;; forEach f l'
  end.

(** The body of the loop of [checkForNewCommits]. *)
Definition observeCommit (commit : CommitInfo) : M unit :=
  lastSha <- gets (fun w => lastCheckedCommits w !! repo commit) ;;
  if negb (truthyOpt lastSha) || negb (bool_decide (lastSha = Some (sha commit)))
  then
    modify (setLastCheckedCommits (insert (repo commit) (sha commit))) ;;;
    if truthyOpt lastSha then processNewCommit commit else ret tt
  else ret tt.

Definition checkForNewCommits : M unit :=
  tryCatch
    (if truthyOpt (GITHUB_REPOS env) then
       let repos := configuredRepos (default [] (GITHUB_REPOS env)) in
       commits <- getRecentCommitsFromRepos repos 1 ;;
       forEach observeCommit commits
     else ret tt)
    (fun _ => ret tt).

Definition initCommits : M unit :=
  tryCatch
    (if truthyOpt (GITHUB_REPOS env) then
       let repos := configuredRepos (default [] (GITHUB_REPOS env)) in
       commits <- getRecentCommitsFromRepos repos 1 ;;
       forEach (fun commit =>
                  modify (setLastCheckedCommits (insert (repo commit) (sha commit))))
               commits
     else ret tt)
    (fun _ => ret tt).

Definition helpText : jsstring :=
  js "**Available Commands:**" ++ nl ++ nl
  ++ js "`!run` - Fetch and display the 5 latest commits from all repositories" ++ nl
  ++ js "`!repo <numbers>` - Select commits by number and generate a post (e.g., `!repo 1` or `!repo 1,2`)" ++ nl
  ++ js "`!redo` - Regenerate the post from the current summary" ++ nl
  ++ js "`!post` - Post the generated content to X" ++ nl
  ++ js "`!no` - Discard the current post" ++ nl
  ++ js "`!help` - Show this help message" ++ nl ++ nl
  ++ js "**Automatic Features:**" ++ nl
  ++ js "- The bot automatically checks for new commits every 30 seconds" ++ nl
  ++ js "- When a new commit is detected, a post is generated and you'll be asked to confirm with `!post` or `!no`".

Definition runFirstText : jsstring := js "Please run `!run` first to fetch commits".

Definition invalidNumbersText : jsstring :=
  js "Invalid commit numbers. Use format: `!repo 1` or `!repo 1,2`".

Definition noPostGeneratedText : jsstring :=
  js "No post generated. Please run `!repo <numbers>` first to generate a post.".

Definition postedText : jsstring := js "Successfully posted to X!".

(** The [!run] command. *)
Definition runCommand (userId : jsstring) : M unit :=
  tryCatch
    (if negb (truthyOpt (GITHUB_REPOS env))
     then reply (js "GitHub repositories not configured in .env")
     else
       let repos := configuredRepos (default [] (GITHUB_REPOS env)) in
       commits <- getRecentCommitsFromRepos repos 5 ;;
       if len commits =? 0 then reply (js "No commits found")
       else
         modify (setUserStates (insert userId
           {| commits := commits; selectedCommits := [];
              generatedSummary := None; generatedPost := None;
              projectName := None; pendingPost := Some false |})) ;;;
         let commitsList :=
           join nl (imap (fun index commit =>
             let shortMessage :=
               if 60 <? len (message commit)
               then substringTo 60 (message commit) ++ js "..."
               else message commit in
             toDecimal (Z.of_nat index + 1) ++ js " - " ++ repo commit ++ js ": "
             ++ shortMessage) commits) in
         reply (js "Latest commits:" ++ nl ++ backticks ++ nl ++ commitsList ++ nl
                ++ backticks ++ nl
                ++ js "Use `!repo <numbers>` to select commits (e.g., `!repo 1` or `!repo 1,2`)"))
    (fun e => reply (js "Error: " ++ e)).

(** [args.split(',').map((s) => parseInt(s.trim()) - 1).filter(...)] *)
Definition selectedIndicesOf (args : jsstring) (listed : list CommitInfo) : list number :=
  List.filter
    (fun n => negb (isNaN n) && numGe n (Some 0) && numLt n (Some (len listed)))
    (map (fun s => numSub (parseInt (trim s) 0) (Some 1)) (split 44 args)).

(** [selectedIndices.map((i) => state.commits[i])]; every index passed the
    filter, so every lookup finds a commit. *)
Definition commitsAt (listed : list CommitInfo) (indices : list number) : list CommitInfo :=
  omap (fun n => i ← n; listed !! Z.to_nat i) indices.

Definition commitAnalysis (c : CommitInfo) : jsstring :=
  js "Repository: " ++ repo c ++ nl ++ js "Commit: " ++ message c ++ nl
  ++ match files c with
     | Some (f :: fs) =>
         js "Files changed:" ++ nl ++ concat (map (fun file => fileLine file ++ nl) (f :: fs))
     | _ => []
     end.

(** The assignments of the [!repo] and [!redo] handlers to the session
    object. *)
Definition withSelection (selected : list CommitInfo) (s : UserState) : UserState :=
  {| commits := commits s; selectedCommits := selected;
     generatedSummary := generatedSummary s; generatedPost := generatedPost s;
     projectName := projectName s; pendingPost := Some false |}.

Definition withSummary (summary : jsstring) (s : UserState) : UserState :=
  {| commits := commits s; selectedCommits := selectedCommits s;
     generatedSummary := Some summary; generatedPost := generatedPost s;
     projectName := projectName s; pendingPost := pendingPost s |}.

Definition withProjectName (name : jsstring) (s : UserState) : UserState :=
  {| commits := commits s; selectedCommits := selectedCommits s;
     generatedSummary := generatedSummary s; generatedPost := generatedPost s;
     projectName := Some name; pendingPost := pendingPost s |}.

Definition withPost (post : jsstring) (s : UserState) : UserState :=
  {| commits := commits s; selectedCommits := selectedCommits s;
     generatedSummary := generatedSummary s; generatedPost := Some post;
     projectName := projectName s; pendingPost := Some true |}.

Definition selectionAnalysis (selected : list CommitInfo) : jsstring :=
  join (nl ++ js "---" ++ nl ++ nl) (map commitAnalysis selected).

(** The reply of a successful [!repo]: summary and post in one message, the
    post alone when that would be longer than 2000. *)
Definition draftReply (summary post : jsstring) : jsstring :=
  let maxSummaryLength :=
    parseInt (orElse (DISCORD_MAX_SUMMARY_LENGTH env) (js "800")) 10 in
  let summaryText :=
    if numGt (Some (len summary)) maxSummaryLength
    then substringTo (Z.to_nat (default 0 maxSummaryLength)) summary ++ js "..."
    else summary in
  let postMessage :=
    js "**Generated Post:**" ++ nl ++ backticks ++ nl ++ post ++ nl
    ++ backticks ++ nl ++ nl ++ usePostOrNo in
  let fullMessage :=
    js "**Summary:**" ++ nl ++ backticks ++ nl ++ summaryText ++ nl
    ++ backticks ++ nl ++ nl ++ postMessage in
  if len fullMessage <=? 2000 then fullMessage else postMessage.

(** The part of [!repo] behind the validation. *)
Definition draftSelection (userId : jsstring) (selected : list CommitInfo) : M unit :=
  updateState userId (withSelection selected) ;;;
  summary <- generateSummary (selectionAnalysis selected) ;;
  updateState userId (withSummary summary) ;;;
  let name := projectNameOf (repo <$> head selected) in
  updateState userId (withProjectName name) ;;;
  post <- generatePost summary (Some name) ;;
  updateState userId (withPost post) ;;;
  reply (draftReply summary post).

(** The [!repo <numbers>] command. *)
Definition repoCommand (userId content : jsstring) : M unit :=
  tryCatch
    (state <- gets (fun w => userStates w !! userId) ;;
     match state with
     | Some st =>
         if len (commits st) =? 0 then reply runFirstText
         else
           let args := trim (substringFrom 6 content) in
           let selectedIndices := selectedIndicesOf args (commits st) in
           if len selectedIndices =? 0 then reply invalidNumbersText
           else draftSelection userId (commitsAt (commits st) selectedIndices)
     | None => reply runFirstText
     end)
    (fun e => reply (js "Error: " ++ e)).

Definition regeneratePost (state : UserState) (stateKey : jsstring) : M unit :=
  if negb (truthyOpt (generatedSummary state)) || negb (truthyOpt (projectName state))
  then reply (js "Cannot regenerate: missing summary or project name.")
  else
    newPost <- generatePost (default [] (generatedSummary state)) (projectName state) ;;
    updateState stateKey (withPost newPost) ;;;
    reply (js "**Regenerated Post:**" ++ nl ++ backticks ++ nl ++ newPost ++ nl
           ++ backticks ++ nl ++ nl ++ usePostOrNo).

(** [!state || !state.generatedPost] *)
Definition hasPost (state : option UserState) : bool :=
  match state with Some s => truthyOpt (generatedPost s) | None => false end.

(** The branch of [!redo] for a user without a summary: the channel's
    auto-generated session is regenerated, if it has one. *)
Definition redoAuto : M unit :=
  autoState <- gets (fun w => userStates w !! autoStateKey) ;;
  match autoState with
  | Some ast =>
      if truthyOpt (generatedSummary ast) then regeneratePost ast autoStateKey
      else reply (js "No post to regenerate. Please run `!repo <numbers>` first to generate a post.")
  | None =>
      reply (js "No post to regenerate. Please run `!repo <numbers>` first to generate a post.")
  end.

(** The [!redo] command. *)
Definition redoCommand (userId : jsstring) : M unit :=
  tryCatch
    (state <- gets (fun w => userStates w !! userId) ;;
     match state with
     | Some st =>
         if truthyOpt (generatedSummary st) then regeneratePost st userId
         else redoAuto
     | None => redoAuto
     end)
    (fun e => reply (js "Error: " ++ e)).

(** The [!no] command. *)
Definition noCommand (userId : jsstring) : M unit :=
  tryCatch
    (state <- gets (fun w => userStates w !! userId) ;;
     if hasPost state then
       modify (setUserStates (delete userId)) ;;;
       reply (js "Post discarded.")
     else
       autoState <- gets (fun w => userStates w !! autoStateKey) ;;
       match autoState with
       | Some _ =>
           modify (setUserStates (delete autoStateKey)) ;;;
           reply (js "Post discarded.")
       | None => reply (js "No post to discard.")
       end)
    (fun e => reply (js "Error: " ++ e)).

(** The [!post] command. *)
Definition postCommand (userId : jsstring) : M unit :=
  tryCatch
    (state <- gets (fun w => userStates w !! userId) ;;
     if hasPost state then
       postToX (default [] (state ≫= generatedPost)) ;;;
       reply postedText ;;;
       modify (setUserStates (delete userId))
     else
       autoState <- gets (fun w => userStates w !! autoStateKey) ;;
       if hasPost autoState then
         postToX (default [] (autoState ≫= generatedPost)) ;;;
         reply postedText ;;;
         modify (setUserStates (delete autoStateKey))
       else reply noPostGeneratedText)
    (fun e => reply (js "Error posting to X: " ++ e)).

(** The [messageCreate] listener. *)
Definition messageCreate (authorBot : bool) (channelId userId content : jsstring) : M unit :=
  if authorBot || negb (bool_decide (channelId = DISCORD_CHANNEL_ID env)) then ret tt
  else
    let content := trim content in
    if bool_decide (content = js "!help") then reply helpText
    else if bool_decide (content = js "!run") then runCommand userId
    else if startsWith content (js "!repo ") then repoCommand userId content
    else if bool_decide (content = js "!redo") then redoCommand userId
    else if bool_decide (content = js "!no") then noCommand userId
    else if bool_decide (content = js "!post") then postCommand userId
    else ret tt.

(** What the event loop runs: the [ready] listener's [initCommits], a firing
    of the interval timer, a chat message.  Each runs to its end before the
    next starts. *)
Inductive Event :=
| Ready
| Tick
| MessageCreate (authorBot : bool) (channelId userId content : jsstring).

Definition handle (ev : Event) : M unit :=
  match ev with
  | Ready => initCommits
  | Tick => checkForNewCommits
  | MessageCreate authorBot channelId userId content =>
      messageCreate authorBot channelId userId content
  end.

Definition step (ev : Event) (w : World) : World := snd (handle ev w).

Definition run (evs : list Event) (w : World) : World :=
  fold_left (fun w ev => step ev w) evs w.

(** The worlds the process can be in between two events. *)
Inductive reachable : World -> Prop :=
| reachable_init : reachable initialWorld
| reachable_step ev w : reachable w -> reachable (step ev w).

(** The session invariant. *)
Definition pendingHasPost (s : UserState) : Prop :=
  pendingPost s = Some true -> generatedPost s <> None.

End Bot.

(** * Vocabulary of the properties *)

(** A string ends a sentence when its last code unit is [.], [!] or [?]. *)
Definition endsSentence (s : jsstring) : Prop :=
  exists c, last s = Some c /\ isTerminator c = true.

(** The two ways the fallback may end: after whole sentences of the post, its
    last code unit a terminator; or before a whitespace of the post, its own
    last code unit not one. *)
Definition endsAtSentenceBoundary (post result : jsstring) : Prop :=
  endsSentence result /\
  exists k, (0 < k)%nat /\ result = trim (concat (take k (sentences post))).

Definition endsAtWordBoundary (post result : jsstring) : Prop :=
  exists rest, post = result ++ rest /\
    (result = [] \/
     (exists c, last result = Some c /\ isWhiteSpace c = false) /\
     (rest = [] \/ exists c rest', rest = c :: rest' /\ isWhiteSpace c = true)).

Definition isDecimalDigit (c : N) : bool := ((48 <=? c) && (c <=? 57))%N.

(** A token of [!repo] that the filter drops: not a number, below 1, or
    above the number [n] of listed commits. *)
Definition invalidToken (n : Z) (token : jsstring) : Prop :=
  match parseInt (trim token) 0 with
  | None => True
  | Some v => v < 1 \/ n < v
  end.

(** The session [!post] acts on: the user's if it holds a non-empty
    generated post, else the channel's auto-generated one if that holds
    one; with its key and its post. *)
Definition resolvedPost (env : Env) (userId : jsstring) (w : World)
  : option (jsstring * jsstring) :=
  if hasPost (userStates w !! userId)
  then Some (userId, default [] (userStates w !! userId ≫= generatedPost))
  else if hasPost (userStates w !! autoStateKey env)
  then Some (autoStateKey env,
             default [] (userStates w !! autoStateKey env ≫= generatedPost))
  else None.

(** [w'] differs from [w] in the count of provider requests at most. *)
Definition onlyGemini (w w' : World) : Prop :=
  userStates w' = userStates w /\ lastCheckedCommits w' = lastCheckedCommits w
  /\ outbox w' = outbox w /\ tweetLog w' = tweetLog w
  /\ githubCalls w' = githubCalls w
  /\ (geminiCalls w <= geminiCalls w')%nat.

(** Every stored session satisfies the session invariant. *)
Definition sessionsOk (w : World) : Prop :=
  map_Forall (fun _ s => pendingHasPost s) (userStates w).

Definition preserves {A} (c : M A) : Prop :=
  forall w, sessionsOk w -> sessionsOk (snd (c w)).

(** ** Example data *)

Definition exampleEnv (limit : option jsstring) : Env :=
  {| GEMINI_API_KEY := Some (js "key"); X_CHARACTER_LIMIT := limit;
     X_API_KEY := Some (js "k"); X_API_SECRET := Some (js "s");
     X_ACCESS_TOKEN := Some (js "t"); X_ACCESS_TOKEN_SECRET := Some (js "ts");
     GITHUB_REPOS := Some (js "octo/grixo");
     DISCORD_CHANNEL_ID := js "77";
     DISCORD_DEFAULT_PROJECT_NAME := None;
     DISCORD_MAX_SUMMARY_LENGTH := None |}.

Definition exampleCommitA : CommitInfo :=
  {| sha := js "abc1234"; message := js "Add the polling loop"; date := js "1/2/2025";
     url := js "https://github.com/octo/grixo/commit/abc1234";
     repo := js "octo/grixo"; files := None |}.

Definition exampleCommitB : CommitInfo :=
  {| sha := js "def5678"; message := js "Fix the retry prompt"; date := js "1/3/2025";
     url := js "https://github.com/octo/grixo/commit/def5678";
     repo := js "octo/grixo";
     files := Some [ {| filename := js "src/services/gemini.ts"; status := js "modified";
                        additions := 12; deletions := 3; changes := 15; patch := None |} ] |}.

(** A provider that answers every request with the same text. *)
Definition constantProvider (text : jsstring) (n : nat) (p : Prompt)
  : jsstring + option jsstring := inl text.

(** A provider that answers its [n]-th request with the [n]-th text of a
    script and fails once the script is used up. *)
Definition scriptedProvider (script : list jsstring) (n : nat) (p : Prompt)
  : jsstring + option jsstring :=
  match script !! n with
  | Some text => inl text
  | None => inr (Some (js "503 unavailable"))
  end.

(** A commit source whose head is commit A at the first request and commit B
    from then on, and one that lists both commits at every request. *)
Definition headMoves (n : nat) (repos : list jsstring) (count : Z)
  : Result (list CommitInfo) :=
  Ok (if (n =? 0)%nat then [exampleCommitA] else [exampleCommitB; exampleCommitA]).

Definition listsBoth (n : nat) (repos : list jsstring) (count : Z)
  : Result (list CommitInfo) :=
  Ok [exampleCommitA; exampleCommitB].

(** A commit source whose head goes from commit A to commit B and back, as
    after a forced push, request after request. *)
Definition headFlaps (n : nat) (repos : list jsstring) (count : Z)
  : Result (list CommitInfo) :=
  Ok (if Nat.even n then [exampleCommitA] else [exampleCommitB]).

Definition alwaysPosted (n : nat) (text : jsstring) : option XFailure := None.

(** The case mappings on the letters a-z and A-Z. *)
Definition asciiUpperCase (s : jsstring) : jsstring :=
  map (fun c => if ((97 <=? c) && (c <=? 122))%N then (c - 32)%N else c) s.

Definition asciiLowerCase (s : jsstring) : jsstring :=
  map (fun c => if ((65 <=? c) && (c <=? 90))%N then (c + 32)%N else c) s.

Definition userMessage (content : string) : Event :=
  MessageCreate false (js "77") (js "1001") (js content).

(** The example process: the example environment with the default limit,
    a scripted provider and a commit source. *)
Definition exampleRun (script : list jsstring)
    (source : nat -> list jsstring -> Z -> Result (list CommitInfo))
    (evs : list Event) : World :=
  run (exampleEnv None) (scriptedProvider script) alwaysPosted source
    asciiUpperCase asciiLowerCase evs initialWorld.

(** * github.ts: the commit source adapter

    The adapter behind [getRecentCommitsFromRepos].  Its state is the number
    of HTTP requests made so far; the answers of the remote API are given by
    the position of the request and by what the request names. *)
Module GitHub.

(** [GitHubCommit], by the fields the adapter reads. *)
Record GitHubCommit := {
  commitSha : jsstring;
  commitMessage : jsstring;
  authorDate : jsstring;
  html_url : jsstring;
}.

(** A failed request, by [error.response?.status]. *)
Inductive Failure :=
| Status (status : Z)
| NoResponse.

Definition G (A : Type) : Type := nat -> Result A * nat.

Section Adapter.

Variable listCommits :
  nat -> jsstring -> jsstring -> option jsstring -> Z -> Failure + list GitHubCommit.
(** The answer is [None] for a failed request; of a successful one it is
    the [files] field, which may be absent. *)
Variable commitDetail :
  nat -> jsstring -> jsstring -> option jsstring -> jsstring
  -> option (option (list CommitFile)).
Variable toLocaleDateString : jsstring -> jsstring.
(** [allCommits.sort((a, b) => new Date(b.date).getTime() - new Date(a.date).getTime())] *)
Variable sortByDate : list CommitInfo -> list CommitInfo.

(** The [Authorization] header: set when the token is truthy. *)
Definition authorization (token : option jsstring) : option jsstring :=
  if truthyOpt token then Some (js "token " ++ default [] token) else None.

Definition commitInfo (owner repo : jsstring) (commit : GitHubCommit)
    (files : option (list CommitFile)) : CommitInfo :=
  {| sha := substringTo 7 (commitSha commit);
     message := hd [] (split 10 (commitMessage commit));
     date := toLocaleDateString (authorDate commit);
     url := html_url commit;
     repo := owner ++ js "/" ++ repo;
     files := files |}.

(** The loop over [response.data]: one detail request for each commit; a
    commit whose detail request fails is kept without its files. *)
Fixpoint withDetails (owner repo : jsstring) (token : option jsstring)
    (commits : list GitHubCommit) (n : nat) : list CommitInfo * nat :=
  match commits with
  | [] => ([], n)
  | commit :: rest =>
      let files :=
        match commitDetail n owner repo (authorization token) (commitSha commit) with
        | Some (Some fs) => Some fs
        | Some None => Some []
        | None => None
        end in
      let '(infos, n') := withDetails owner repo token rest (S n) in
      (commitInfo owner repo commit files :: infos, n')
  end.

Definition listFailureMessage (f : Failure) : jsstring :=
  match f with
  | Status 404 => js "Repository not found. Please check the owner and repository name."
  | Status 401 => js "GitHub authentication failed. Please check your token."
  | _ => js "Failed to fetch GitHub commits"
  end.

Definition getRecentCommits (owner repo : jsstring) (token : option jsstring)
    (count : Z) : G (list CommitInfo) :=
  fun n =>
    match listCommits n owner repo (authorization token) count with
    | inl failure => (Throw (listFailureMessage failure), S n)
    | inr commits =>
        let '(infos, n') := withDetails owner repo token commits (S n) in
        (Ok infos, n')
    end.

(** [const [owner, repoName] = repo.split('/')]: the first piece, and the
    second if there is one. *)
Definition ownerAndName (repo : jsstring) : jsstring * option jsstring :=
  match split 47 repo with
  | owner :: pieces => (owner, head pieces)
  | [] => ([], None)
  end.

(** The loop over [repos]: an entry without owner or name is passed over; a
    repository whose listing fails is logged and passed over. *)
Fixpoint collect (repos : list jsstring) (token : option jsstring) (count : Z)
    (n : nat) : list CommitInfo * nat :=
  match repos with
  | [] => ([], n)
  | repo :: rest =>
      let '(owner, repoName) := ownerAndName repo in
      if negb (truthy owner) || negb (truthyOpt repoName) then collect rest token count n
      else
        match getRecentCommits owner (default [] repoName) token count n with
        | (Ok commits, n') =>
            let '(more, n'') := collect rest token count n' in (commits ++ more, n'')
        | (Throw _, n') => collect rest token count n'
        end
  end.

(** [l.slice(0, count)] for an integer [count]: a negative one counts from
    the end. *)
Definition sliceTo {A} (count : Z) (l : list A) : list A :=
  if count <? 0 then take (Z.to_nat (Z.max (len l + count) 0)) l
  else take (Z.to_nat count) l.

Definition getRecentCommitsFromRepos (repos : list jsstring) (token : option jsstring)
    (count : Z) : G (list CommitInfo) :=
  fun n =>
    let '(allCommits, n') := collect repos token count n in
    (Ok (sliceTo count (sortByDate allCommits)), n').

End Adapter.

(** A configured entry the adapter asks the API about: an owner and a name,
    both non-empty, around the first [/]. *)
Definition wellFormed (repo : jsstring) : bool :=
  let '(owner, repoName) := ownerAndName repo in
  truthy owner && truthyOpt repoName.

(** Example answers of the API: two commits listed for every repository but
    [octo/gone]; the detail of the second one cannot be fetched. *)
Definition exampleListing : list GitHubCommit :=
  [ {| commitSha := js "0123456789abcdef"; commitMessage := js "Add parser" ++ nl ++ js "body";
       authorDate := js "2024-05-01T10:00:00Z"; html_url := js "https://example.org/c/1" |};
    {| commitSha := js "fedcba9876543210"; commitMessage := js "Fix typo";
       authorDate := js "2024-04-30T09:00:00Z"; html_url := js "https://example.org/c/2" |} ].

(** The entry the adapter makes of the first listed commit of [octo/cat]. *)
Definition exampleInfo : CommitInfo :=
  {| sha := js "0123456"; message := js "Add parser"; date := js "2024-05-01";
     url := js "https://example.org/c/1"; repo := js "octo/cat"; files := Some [] |}.

Definition exampleListCommits (n : nat) (owner repo : jsstring)
    (auth : option jsstring) (count : Z) : Failure + list GitHubCommit :=
  if bool_decide (owner ++ js "/" ++ repo = js "octo/gone") then inl (Status 404)
  else inr exampleListing.

Definition exampleCommitDetail (n : nat) (owner repo : jsstring)
    (auth : option jsstring) (commitSha : jsstring) : option (option (list CommitFile)) :=
  if bool_decide (commitSha = js "fedcba9876543210") then None else Some None.

Definition exampleDate (date : jsstring) : jsstring := take 10 date.

Definition keepOrder (l : list CommitInfo) : list CommitInfo := l.

End GitHub.

(** * index.ts: the route [GET /api/automation/github/commits]

    The route reads the environment only; its answer is a status and a JSON
    body with either the commits or an error message. *)
Module Server.

Inductive Body :=
| Commits (commits : list CommitInfo)
| Error (error : jsstring).

Record Response := {
  statusCode : Z;
  body : Body;
}.

Section Routes.

Variable env : Env.
Variable githubToken : option jsstring.
Variable listCommits :
  nat -> jsstring -> jsstring -> option jsstring -> Z
  -> GitHub.Failure + list GitHub.GitHubCommit.
Variable commitDetail :
  nat -> jsstring -> jsstring -> option jsstring -> jsstring
  -> option (option (list CommitFile)).
Variable toLocaleDateString : jsstring -> jsstring.
Variable sortByDate : list CommitInfo -> list CommitInfo.

Definition githubCommitsRoute (n : nat) : Response * nat :=
  if negb (truthyOpt (GITHUB_REPOS env))
  then ({| statusCode := 400; body := Error (js "GITHUB_REPOS not configured in .env") |}, n)
  else
    let repos := configuredRepos (default [] (GITHUB_REPOS env)) in
    if len repos =? 0
    then ({| statusCode := 400; body := Error (js "No repositories configured") |}, n)
    else
      match GitHub.getRecentCommitsFromRepos listCommits commitDetail toLocaleDateString
              sortByDate repos githubToken 5 n with
      | (Ok commits, n') => ({| statusCode := 200; body := Commits commits |}, n')
      | (Throw errorMessage, n') => ({| statusCode := 500; body := Error errorMessage |}, n')
      end.

End Routes.

End Server.

(** * discord.ts: the listeners as they interleave

    The listeners are [async] functions: each runs until its next [await],
    and while it waits other listeners start and resume.  Here a listener
    is a program whose steps are synchronous accesses to the store and
    awaited calls; the store keeps the session objects apart from the map
    that names them, since a listener keeps writing to the object it
    fetched before an [await], whatever the map holds by then.  An awaited
    call is answered from outside, with a value or a rejection, at any
    later time. *)
Module Async.

(** The session objects by address, [userStates] and [lastCheckedCommits]. *)
Record Store := {
  objects : list UserState;
  userStates : gmap jsstring nat;
  lastCheckedCommits : gmap jsstring jsstring;
}.

Definition initialStore : Store :=
  {| objects := []; userStates := ∅; lastCheckedCommits := ∅ |}.

(** The calls a listener awaits, by the type of what they resolve to.
    [ChannelsFetch] resolves to whether the channel was found and is
    text-based.  The calls into gemini.ts, xApi.ts and github.ts touch
    neither map; what they resolve to, or reject with, is left open. *)
Inductive Request : Type -> Type :=
| ChannelsFetch : Request bool
| GetRecentCommitsFromRepos (repos : list jsstring) (count : Z) : Request (list CommitInfo)
| GenerateSummary (commitsAnalysis : jsstring) : Request jsstring
| GeneratePost (summary : jsstring) (projectName : option jsstring) : Request jsstring
| PostToX (text : jsstring) : Request unit
| MessageReply (text : jsstring) : Request unit
| ChannelSend (text : jsstring) : Request unit.

Inductive Prog (A : Type) : Type :=
| Return (a : A)
| Raise (errorMessage : jsstring)
| Sync {X : Type} (f : Store -> X * Store) (k : X -> Prog A)
| Await {R : Type} (request : Request R) (k : Result R -> Prog A).
Arguments Return {A} a.
Arguments Raise {A} errorMessage.
Arguments Sync {A X} f k.
Arguments Await {A R} request k.

Fixpoint bind {A B} (p : Prog A) (f : A -> Prog B) : Prog B :=
  match p with
  | Return a => f a
  | Raise e => Raise e
  | Sync g k => Sync g (fun x => bind (k x) f)
  | Await q k => Await q (fun r => bind (k r) f)
  end.

Fixpoint tryCatch {A} (body : Prog A) (handler : jsstring -> Prog A) : Prog A :=
  match body with
  | Return a => Return a
  | Raise e => handler e
  | Sync g k => Sync g (fun x => tryCatch (k x) handler)
  | Await q k => Await q (fun r => tryCatch (k r) handler)
  end.

Definition gets {X} (f : Store -> X) : Prog X := Sync (fun s => (f s, s)) Return.
Definition modify (f : Store -> Store) : Prog unit := Sync (fun s => (tt, f s)) Return.

(** [await call]: the value the call resolves to, or its rejection thrown. *)
Definition await {R} (q : Request R) : Prog R :=
  Await q (fun r => match r with Ok x => Return x | Throw e => Raise e end).

Notation "x <~ c ;; k" := (bind c (fun x => k))
  (at level 100, c at next level, right associativity).
Notation "c ;;~ k" := (bind c (fun _ => k))
  (at level 100, right associativity).

(** [userStates.set(key, state)] with a new object. *)
Definition setSession (key : jsstring) (state : UserState) (s : Store) : Store :=
  {| objects := objects s ++ [state];
     userStates := <[key := List.length (objects s)]> (userStates s);
     lastCheckedCommits := lastCheckedCommits s |}.

Definition deleteSession (key : jsstring) (s : Store) : Store :=
  {| objects := objects s; userStates := delete key (userStates s);
     lastCheckedCommits := lastCheckedCommits s |}.

(** Assignments to fields of the object at an address. *)
Definition assign (address : nat) (f : UserState -> UserState) (s : Store) : Store :=
  {| objects := alter f address (objects s); userStates := userStates s;
     lastCheckedCommits := lastCheckedCommits s |}.

Definition setLastChecked (repo sha : jsstring) (s : Store) : Store :=
  {| objects := objects s; userStates := userStates s;
     lastCheckedCommits := <[repo := sha]> (lastCheckedCommits s) |}.

(** [userStates.get(key)]: the address of the object and the object as it
    is now. *)
Definition getSession (key : jsstring) (s : Store) : option (nat * UserState) :=
  address ← userStates s !! key; state ← objects s !! address; Some (address, state).

(** The object of a fetched session. *)
Definition objectOf (state : option (nat * UserState)) : option UserState :=
  snd <$> state.

Section Listeners.

Variable env : Env.
Variables toUpperCase toLowerCase : jsstring -> jsstring.

Definition processNewCommit (commit : CommitInfo) : Prog unit :=
  tryCatch
    (summary <~ await (GenerateSummary (autoAnalysis commit)) ;;
     let name := projectNameOf env toUpperCase toLowerCase (Some (repo commit)) in
     post <~ await (GeneratePost summary (Some name)) ;;
     modify (setSession (autoStateKey env) (autoDraft commit summary name post)) ;;~
     await (ChannelSend (autoDraftMessage commit post)))
    (fun e => await (ChannelSend (js "Error generating post: " ++ e))).

Fixpoint forEach {X} (f : X -> Prog unit) (l : list X) : Prog unit :=
  match l with
  | [] => Return tt
  | x :: l' => f x ;;~ forEach f l'
  end.

Definition observeCommit (commit : CommitInfo) : Prog unit :=
  lastSha <~ gets (fun s => lastCheckedCommits s !! repo commit) ;;
  if negb (truthyOpt lastSha) || negb (bool_decide (lastSha = Some (sha commit)))
  then
    modify (setLastChecked (repo commit) (sha commit)) ;;~
    if truthyOpt lastSha then processNewCommit commit else Return tt
  else Return tt.

Definition checkForNewCommits : Prog unit :=
  tryCatch
    (if truthyOpt (GITHUB_REPOS env) then
       let repos := configuredRepos (default [] (GITHUB_REPOS env)) in
       usable <~ await ChannelsFetch ;;
       if usable then
         commits <~ await (GetRecentCommitsFromRepos repos 1) ;;
         forEach observeCommit commits
       else Return tt
     else Return tt)
    (fun _ => Return tt).

Definition initCommits : Prog unit :=
  tryCatch
    (if truthyOpt (GITHUB_REPOS env) then
       let repos := configuredRepos (default [] (GITHUB_REPOS env)) in
       commits <~ await (GetRecentCommitsFromRepos repos 1) ;;
       forEach (fun commit => modify (setLastChecked (repo commit) (sha commit))) commits
     else Return tt)
    (fun _ => Return tt).

Definition reply (text : jsstring) : Prog unit := await (MessageReply text).

(** The list [!run] prints. *)
Definition commitsList (commits : list CommitInfo) : jsstring :=
  join nl (imap (fun index commit =>
    let shortMessage :=
      if 60 <? len (message commit)
      then substringTo 60 (message commit) ++ js "..."
      else message commit in
    toDecimal (Z.of_nat index + 1) ++ js " - " ++ repo commit ++ js ": "
    ++ shortMessage) commits).

Definition runCommand (userId : jsstring) : Prog unit :=
  tryCatch
    (if negb (truthyOpt (GITHUB_REPOS env))
     then reply (js "GitHub repositories not configured in .env")
     else
       let repos := configuredRepos (default [] (GITHUB_REPOS env)) in
       commits <~ await (GetRecentCommitsFromRepos repos 5) ;;
       if len commits =? 0 then reply (js "No commits found")
       else
         modify (setSession userId
           {| commits := commits; selectedCommits := [];
              generatedSummary := None; generatedPost := None;
              projectName := None; pendingPost := Some false |}) ;;~
         reply (js "Latest commits:" ++ nl ++ backticks ++ nl ++ commitsList commits ++ nl
                ++ backticks ++ nl
                ++ js "Use `!repo <numbers>` to select commits (e.g., `!repo 1` or `!repo 1,2`)"))
    (fun e => reply (js "Error: " ++ e)).

(** The part of [!repo] behind the validation; [state] is the address of
    the object fetched at the start of the listener. *)
Definition draftSelection (state : nat) (selected : list CommitInfo) : Prog unit :=
  modify (assign state (withSelection selected)) ;;~
  summary <~ await (GenerateSummary (selectionAnalysis selected)) ;;
  modify (assign state (withSummary summary)) ;;~
  let name := projectNameOf env toUpperCase toLowerCase (repo <$> head selected) in
  modify (assign state (withProjectName name)) ;;~
  post <~ await (GeneratePost summary (Some name)) ;;
  modify (assign state (withPost post)) ;;~
  reply (draftReply env summary post).

Definition repoCommand (userId content : jsstring) : Prog unit :=
  tryCatch
    (state <~ gets (getSession userId) ;;
     match state with
     | Some (address, st) =>
         if len (commits st) =? 0 then reply runFirstText
         else
           let args := trim (substringFrom 6 content) in
           let selectedIndices := selectedIndicesOf args (commits st) in
           if len selectedIndices =? 0 then reply invalidNumbersText
           else draftSelection address (commitsAt (commits st) selectedIndices)
     | None => reply runFirstText
     end)
    (fun e => reply (js "Error: " ++ e)).

Definition regeneratePost (address : nat) (state : UserState) : Prog unit :=
  if negb (truthyOpt (generatedSummary state)) || negb (truthyOpt (projectName state))
  then reply (js "Cannot regenerate: missing summary or project name.")
  else
    newPost <~ await (GeneratePost (default [] (generatedSummary state))
                        (projectName state)) ;;
    modify (assign address (withPost newPost)) ;;~
    reply (js "**Regenerated Post:**" ++ nl ++ backticks ++ nl ++ newPost ++ nl
           ++ backticks ++ nl ++ nl ++ usePostOrNo).

Definition noPostToRegenerateText : jsstring :=
  js "No post to regenerate. Please run `!repo <numbers>` first to generate a post.".

Definition redoCommand (userId : jsstring) : Prog unit :=
  tryCatch
    (state <~ gets (getSession userId) ;;
     match state with
     | Some (address, st) =>
         if truthyOpt (generatedSummary st) then regeneratePost address st
         else
           autoState <~ gets (getSession (autoStateKey env)) ;;
           match autoState with
           | Some (autoAddress, ast) =>
               if truthyOpt (generatedSummary ast) then regeneratePost autoAddress ast
               else reply noPostToRegenerateText
           | None => reply noPostToRegenerateText
           end
     | None =>
         autoState <~ gets (getSession (autoStateKey env)) ;;
         match autoState with
         | Some (autoAddress, ast) =>
             if truthyOpt (generatedSummary ast) then regeneratePost autoAddress ast
             else reply noPostToRegenerateText
         | None => reply noPostToRegenerateText
         end
     end)
    (fun e => reply (js "Error: " ++ e)).

Definition noCommand (userId : jsstring) : Prog unit :=
  tryCatch
    (state <~ gets (getSession userId) ;;
     if hasPost (objectOf state) then
       modify (deleteSession userId) ;;~
       reply (js "Post discarded.")
     else
       autoState <~ gets (getSession (autoStateKey env)) ;;
       match autoState with
       | Some _ =>
           modify (deleteSession (autoStateKey env)) ;;~
           reply (js "Post discarded.")
       | None => reply (js "No post to discard.")
       end)
    (fun e => reply (js "Error: " ++ e)).

Definition postCommand (userId : jsstring) : Prog unit :=
  tryCatch
    (state <~ gets (getSession userId) ;;
     if hasPost (objectOf state) then
       await (PostToX (default [] (objectOf state ≫= generatedPost))) ;;~
       reply postedText ;;~
       modify (deleteSession userId)
     else
       autoState <~ gets (getSession (autoStateKey env)) ;;
       if hasPost (objectOf autoState) then
         await (PostToX (default [] (objectOf autoState ≫= generatedPost))) ;;~
         reply postedText ;;~
         modify (deleteSession (autoStateKey env))
       else reply noPostGeneratedText)
    (fun e => reply (js "Error posting to X: " ++ e)).

Definition messageCreate (authorBot : bool) (channelId userId content : jsstring)
  : Prog unit :=
  if authorBot || negb (bool_decide (channelId = DISCORD_CHANNEL_ID env)) then Return tt
  else
    let content := trim content in
    if bool_decide (content = js "!help") then reply helpText
    else if bool_decide (content = js "!run") then runCommand userId
    else if startsWith content (js "!repo ") then repoCommand userId content
    else if bool_decide (content = js "!redo") then redoCommand userId
    else if bool_decide (content = js "!no") then noCommand userId
    else if bool_decide (content = js "!post") then postCommand userId
    else Return tt.

Definition handle (ev : Event) : Prog unit :=
  match ev with
  | Ready => initCommits
  | Tick => checkForNewCommits
  | MessageCreate authorBot channelId userId content =>
      messageCreate authorBot channelId userId content
  end.

End Listeners.

(** ** The event loop *)

(** A listener waiting for the call it awaits. *)
Record Task := {
  answerType : Type;
  request : Request answerType;
  resume : Result answerType -> Prog unit;
}.

Inductive Outcome :=
| Returned
| Rejected (errorMessage : jsstring)
| Suspended (t : Task).

(** A listener runs to its next [await], to its end or to an error nothing
    catches. *)
Fixpoint runSync (p : Prog unit) (s : Store) : Outcome * Store :=
  match p with
  | Return _ => (Returned, s)
  | Raise e => (Rejected e, s)
  | Sync f k => let '(x, s') := f s in runSync (k x) s'
  | Await q k => (Suspended {| request := q; resume := k |}, s)
  end.

(** The process between two turns of the event loop: the store, the
    listeners that wait, and the errors that escaped a listener. *)
Record Config := {
  store : Store;
  pending : list Task;
  rejections : list jsstring;
}.

Definition initialConfig : Config :=
  {| store := initialStore; pending := []; rejections := [] |}.

Definition launch (p : Prog unit) (c : Config) : Config :=
  match runSync p (store c) with
  | (Returned, s) => {| store := s; pending := pending c; rejections := rejections c |}
  | (Rejected e, s) =>
      {| store := s; pending := pending c; rejections := e :: rejections c |}
  | (Suspended t, s) =>
      {| store := s; pending := pending c ++ [t]; rejections := rejections c |}
  end.

Definition withoutTask (i : nat) (c : Config) : Config :=
  {| store := store c; pending := delete i (pending c); rejections := rejections c |}.

(** The answers a property lets the outside give. *)
Definition Answers : Type := forall R, Request R -> Result R -> Prop.

Definition anyAnswer : Answers := fun _ _ _ => True.

(** The chat transport delivers: [message.reply] and [channel.send] do not
    reject. *)
Definition chatDelivers : Answers :=
  fun _ q r =>
    match q with
    | MessageReply _ | ChannelSend _ => exists x, r = Ok x
    | _ => True
    end.

Section Loop.

Variable env : Env.
Variables toUpperCase toLowerCase : jsstring -> jsstring.
Variable allowed : Answers.

(** A turn of the event loop starts the listener of an event, or settles
    the call one of the waiting listeners awaits and resumes it; both in
    any order. *)
Inductive reachable : Config -> Prop :=
| reachable_init : reachable initialConfig
| reachable_event ev c :
    reachable c -> reachable (launch (handle env toUpperCase toLowerCase ev) c)
| reachable_settle i t r c :
    reachable c -> pending c !! i = Some t -> allowed _ (request t) r ->
    reachable (launch (resume t r) (withoutTask i c)).

End Loop.

(** ** Schedules

    A turn of the event loop as data, to run an interleaving. *)
Inductive Answer :=
| Usable (b : bool)
| Commits (commits : list CommitInfo)
| Text (text : jsstring)
| Done
| Failed (errorMessage : jsstring).

Inductive Turn :=
| Start (ev : Event)
| Settle (i : nat) (answer : Answer).

Definition decode {R} (q : Request R) (a : Answer) : option (Result R) :=
  match q in Request R return option (Result R) with
  | ChannelsFetch =>
      match a with Usable b => Some (Ok b) | Failed e => Some (Throw e) | _ => None end
  | GetRecentCommitsFromRepos _ _ =>
      match a with Commits cs => Some (Ok cs) | Failed e => Some (Throw e) | _ => None end
  | GenerateSummary _ | GeneratePost _ _ =>
      match a with Text t => Some (Ok t) | Failed e => Some (Throw e) | _ => None end
  | PostToX _ | MessageReply _ | ChannelSend _ =>
      match a with Done => Some (Ok tt) | Failed e => Some (Throw e) | _ => None end
  end.

Definition turn (env : Env) (toUpperCase toLowerCase : jsstring -> jsstring)
    (c : Config) (t : Turn) : Config :=
  match t with
  | Start ev => launch (handle env toUpperCase toLowerCase ev) c
  | Settle i a =>
      match pending c !! i with
      | Some task =>
          match decode (request task) a with
          | Some r => launch (resume task r) (withoutTask i c)
          | None => c
          end
      | None => c
      end
  end.

Definition runSchedule (env : Env) (toUpperCase toLowerCase : jsstring -> jsstring)
    (turns : list Turn) : Config :=
  fold_left (turn env toUpperCase toLowerCase) turns initialConfig.

(** ** Vocabulary *)

(** Every session object, named by the map or not, has a post when it is
    pending. *)
Definition objectsOk (s : Store) : Prop := Forall pendingHasPost (objects s).

(** A program that keeps [objectsOk], whatever it is answered. *)
Fixpoint safe {A} (p : Prog A) : Prop :=
  match p with
  | Return _ | Raise _ => True
  | Sync f k => (forall s, objectsOk s -> objectsOk (snd (f s))) /\ forall x, safe (k x)
  | Await _ k => forall r, safe (k r)
  end.

(** A program that ends without an error as long as its answers are allowed
    ones. *)
Fixpoint contained (allowed : Answers) {A} (p : Prog A) : Prop :=
  match p with
  | Return _ => True
  | Raise _ => False
  | Sync _ k => forall x, contained allowed (k x)
  | Await q k => forall r, allowed _ q r -> contained allowed (k r)
  end.

(** What holds between two turns: the objects are in order, and every
    waiting listener keeps them so when it resumes. *)
Definition configOk (c : Config) : Prop :=
  objectsOk (store c) /\ Forall (fun t => forall r, safe (resume t r)) (pending c).

(** No error has escaped, and none will as long as the answers are allowed
    ones. *)
Definition configContained (allowed : Answers) (c : Config) : Prop :=
  rejections c = []
  /\ Forall (fun t => forall r, allowed _ (request t) r -> contained allowed (resume t r))
       (pending c).

Definition isChat {R} (q : Request R) : bool :=
  match q with
  | MessageReply _ | ChannelSend _ => true
  | _ => false
  end.

(** A turn that does not reject a [message.reply] or a [channel.send], and
    a schedule of such turns. *)
Definition chatDelivered (c : Config) (t : Turn) : bool :=
  match t with
  | Settle i (Failed _) =>
      match pending c !! i with
      | Some task => negb (isChat (request task))
      | None => true
      end
  | _ => true
  end.

Fixpoint delivered (env : Env) (toUpperCase toLowerCase : jsstring -> jsstring)
    (turns : list Turn) (c : Config) : bool :=
  match turns with
  | [] => true
  | t :: turns' =>
      chatDelivered c t
      && delivered env toUpperCase toLowerCase turns' (turn env toUpperCase toLowerCase c t)
  end.

(** Two [!repo] of one user that overlap, after a [!run]: the first
    finishes while the second is still composing, so the session holds the
    second's selection and summary beside the first's post. *)
Definition overlappingSelections : list Turn :=
  [ Start (userMessage "!run");
    Settle 0 (Commits [exampleCommitA; exampleCommitB]);
    Settle 0 Done;
    Start (userMessage "!repo 1");
    Start (userMessage "!repo 2");
    Settle 0 (Text (js "First summary."));
    Settle 0 (Text (js "Second summary."));
    Settle 0 (Text (js "Grixo Updates" ++ nl ++ nl ++ js "First post."));
    Settle 1 Done ].

(** A [!run] whose fetch fails; the reply that reports it is delivered. *)
Definition failingFetch : list Turn :=
  [ Start (userMessage "!run");
    Settle 0 (Failed (js "Failed to fetch GitHub commits"));
    Settle 0 Done ].

End Async.

(** * Vocabulary of the further properties *)

(** A computation keeps a relation between the world before and after. *)
Definition keeps (R : World -> World -> Prop) {A} (c : M A) : Prop :=
  forall w, R w (snd (c w)).

(** A relation the bookkeeping of the model does not disturb: it is
    reflexive and transitive, and holds across a message written to the
    chat, a counted provider request and a counted request to the commit
    source. *)
Record Frame (R : World -> World -> Prop) : Prop := {
  frame_refl : forall w, R w w;
  frame_trans : forall w1 w2 w3, R w1 w2 -> R w2 w3 -> R w1 w3;
  frame_emit : forall o w, R w (emit o w);
  frame_gemini : forall w, R w (countGeminiCall w);
  frame_github : forall w, R w (countGithubCall w);
}.

Definition sameWatermarks (w w' : World) : Prop :=
  lastCheckedCommits w' = lastCheckedCommits w.

Definition sameTweets (w w' : World) : Prop := tweetLog w' = tweetLog w.

Definition sameOutbox (w w' : World) : Prop := outbox w' = outbox w.

(** The sessions under the keys outside [keys] are as before. *)
Definition sameSessionsOutside (keys : list jsstring) (w w' : World) : Prop :=
  forall key, key ∉ keys -> userStates w' !! key = userStates w !! key.

(** Every repository that had a watermark still has one. *)
Definition watermarksKept (w w' : World) : Prop :=
  forall r, is_Some (lastCheckedCommits w !! r) -> is_Some (lastCheckedCommits w' !! r).

(** The session [!redo] acts on: the user's if it holds a non-empty summary,
    else the channel's auto-generated one if that holds one. *)
Definition redoTarget (env : Env) (userId : jsstring) (w : World)
  : option (jsstring * UserState) :=
  let auto :=
    match userStates w !! autoStateKey env with
    | Some ast =>
        if truthyOpt (generatedSummary ast) then Some (autoStateKey env, ast) else None
    | None => None
    end in
  match userStates w !! userId with
  | Some st => if truthyOpt (generatedSummary st) then Some (userId, st) else auto
  | None => auto
  end.

(** The session [!run] stores: the listed commits and nothing else. *)
Definition freshListing (listed : list CommitInfo) : UserState :=
  {| commits := listed; selectedCommits := []; generatedSummary := None;
     generatedPost := None; projectName := None; pendingPost := Some false |}.

(** The argument a user types to select the listed commits at the positions
    [ns], counted from 0: their numbers as [!run] prints them, separated by
    commas. *)
Definition typedSelection (ns : list nat) : jsstring :=
  join [44%N] (map (fun n => toDecimal (Z.of_nat n + 1)) ns).

(** [a] is a contiguous part of [s]. *)
Definition partOf (a s : jsstring) : Prop := exists l r, s = l ++ a ++ r.

(** * Properties *)

(** ** Strings *)

Lemma len_nil {A} : len (@nil A) = 0.
Proof. reflexivity. Qed.

Lemma len_app {A} (s t : list A) : len (s ++ t) = len s + len t.
Proof. unfold len. rewrite length_app. lia. Qed.

Lemma len_nonneg {A} (s : list A) : 0 <= len s.
Proof. unfold len. lia. Qed.

Lemma dropWhile_suffix p s : exists t, s = t ++ dropWhile p s /\ Forall (fun c => p c = true) t.
Proof.
  induction s as [|c s IH]; simpl.
  - exists []. split; [reflexivity | constructor].
  - destruct (p c) eqn:Hc.
    + destruct IH as (t & Ht & Hall). exists (c :: t). split.
      * simpl. congruence.
      * constructor; assumption.
    + exists []. split; [reflexivity | constructor].
Qed.

Lemma dropWhile_head p s c r : dropWhile p s = c :: r -> p c = false.
Proof.
  induction s as [|a s IH]; simpl; [discriminate|].
  destruct (p a) eqn:Ha; [exact IH|].
  intros [= <- _]. exact Ha.
Qed.

Lemma dropWhile_id p c s : p c = false -> dropWhile p (c :: s) = c :: s.
Proof. intros H. simpl. rewrite H. reflexivity. Qed.

Lemma trimEnd_split s :
  exists t, s = trimEnd s ++ t /\ Forall (fun c => isWhiteSpace c = true) t.
Proof.
  unfold trimEnd.
  destruct (dropWhile_suffix isWhiteSpace (rev s)) as (t & Ht & Hall).
  exists (rev t). split.
  - rewrite <- rev_app_distr, <- Ht, rev_involutive. reflexivity.
  - apply Forall_forall. intros c Hc. rewrite Forall_forall in Hall.
    apply Hall. apply list_elem_of_In. apply list_elem_of_In in Hc.
    apply in_rev. exact Hc.
Qed.

Lemma trimStart_split s :
  exists t, s = t ++ trimStart s /\ Forall (fun c => isWhiteSpace c = true) t.
Proof. apply dropWhile_suffix. Qed.

Lemma len_trim_le s : len (trim s) <= len s.
Proof.
  unfold trim.
  destruct (trimStart_split s) as (t1 & H1 & _).
  destruct (trimEnd_split (trimStart s)) as (t2 & H2 & _).
  rewrite H1 at 2. rewrite H2 at 2. rewrite !len_app.
  pose proof (len_nonneg t1). pose proof (len_nonneg t2). lia.
Qed.

(** A string that does not start with whitespace keeps its start. *)
Lemma trimStart_id c s : isWhiteSpace c = false -> trimStart (c :: s) = c :: s.
Proof. apply dropWhile_id. Qed.

Lemma trimEnd_head c s r : trimEnd s = c :: r -> exists s', s = c :: s'.
Proof.
  intros H. destruct (trimEnd_split s) as (t & Ht & _).
  rewrite H in Ht. simpl in Ht. eauto.
Qed.

(** A trimmed string does not start with whitespace. *)
Lemma trim_head raw c r : trim raw = c :: r -> isWhiteSpace c = false.
Proof.
  unfold trim. intros H.
  destruct (trimEnd_head _ _ _ H) as (s' & Hs').
  exact (dropWhile_head _ _ _ _ Hs').
Qed.

Lemma last_Some_split (s : jsstring) c : last s = Some c -> exists s', s = s' ++ [c].
Proof. apply last_Some. Qed.

(** A string that does not end with whitespace keeps its end. *)
Lemma trimEnd_id s c : last s = Some c -> isWhiteSpace c = false -> trimEnd s = s.
Proof.
  intros Hl Hc. destruct (last_Some_split _ _ Hl) as (s' & ->).
  unfold trimEnd. rewrite rev_app_distr. simpl. rewrite Hc.
  simpl. rewrite rev_involutive. reflexivity.
Qed.

Lemma dropWhile_last p s c : last s = Some c -> p c = false -> last (dropWhile p s) = Some c.
Proof.
  induction s as [|a s IH]; simpl; [discriminate|].
  intros Hl Hc. destruct (p a) eqn:Ha.
  - destruct s as [|b s]; [simpl in Hl; congruence|].
    apply IH; [exact Hl | exact Hc].
  - exact Hl.
Qed.

(** Trimming keeps a last code unit that is not whitespace. *)
Lemma trim_last s c : last s = Some c -> isWhiteSpace c = false -> last (trim s) = Some c.
Proof.
  intros Hl Hc. unfold trim.
  pose proof (dropWhile_last isWhiteSpace s c Hl Hc) as H.
  fold (trimStart s) in H.
  rewrite (trimEnd_id _ _ H Hc). exact H.
Qed.

Lemma isTerminator_not_whitespace c : isTerminator c = true -> isWhiteSpace c = false.
Proof.
  unfold isTerminator. intros H.
  apply orb_true_iff in H as [H | H]; [apply orb_true_iff in H as [H | H]|];
    apply N.eqb_eq in H; subst c; reflexivity.
Qed.

Lemma trim_last_not_whitespace s c : last (trim s) = Some c -> isWhiteSpace c = false.
Proof.
  unfold trim, trimEnd. generalize (trimStart s). intros x H.
  destruct (dropWhile isWhiteSpace (rev x)) as [|a r] eqn:Hd; [discriminate|].
  simpl in H. rewrite last_snoc in H. injection H as <-.
  exact (dropWhile_head _ _ _ _ Hd).
Qed.

(** ** The sentence pattern *)

Lemma span_spec p s a b :
  span p s = (a, b) -> s = a ++ b /\ Forall (fun c => p c = true) a.
Proof.
  revert a b. induction s as [|c s IH]; simpl; intros a b H.
  - injection H as <- <-. split; [reflexivity | constructor].
  - destruct (p c) eqn:Hc.
    + destruct (span p s) as [a' b'] eqn:Hs. injection H as <- <-.
      destruct (IH _ _ eq_refl) as [-> Hall]. split; [reflexivity|].
      constructor; assumption.
    + injection H as <- <-. split; [reflexivity | constructor].
Qed.

Lemma matchSentence_spec s m r :
  matchSentence s = Some (m, r) ->
  s = m ++ r /\ endsSentence m /\ (List.length r < List.length s)%nat.
Proof.
  unfold matchSentence.
  destruct (span (fun c => negb (isTerminator c)) s) as [body r0] eqn:Hb.
  destruct (span isTerminator r0) as [terms r1] eqn:Ht.
  destruct body as [|b body]; [discriminate|].
  destruct terms as [|t terms]; [discriminate|].
  intros [= <- <-].
  destruct (span_spec _ _ _ _ Hb) as [-> _].
  destruct (span_spec _ _ _ _ Ht) as [-> Hall].
  split; [apply app_assoc|]. split.
  - destruct (last (t :: terms)) as [c|] eqn:Hl.
    + exists c. split.
      * change (last ((b :: body) ++ t :: terms) = Some c).
        rewrite last_app, Hl. reflexivity.
      * apply last_Some_elem_of in Hl. rewrite Forall_forall in Hall.
        apply Hall. exact Hl.
    + apply last_None in Hl. discriminate.
  - rewrite !length_app. simpl. lia.
Qed.

Lemma matchAll_endsSentence fuel s : Forall endsSentence (matchAll fuel s).
Proof.
  revert s. induction fuel as [|fuel IH]; intros s; simpl; [constructor|].
  destruct s as [|c s]; [constructor|].
  destruct (matchSentence (c :: s)) as [[m r]|] eqn:Hm.
  - constructor; [|apply IH].
    apply (matchSentence_spec _ _ _ Hm).
  - apply IH.
Qed.

(** The fuel of [sentences] is enough: more of it finds the same matches. *)
Lemma matchAll_fuel fuel fuel' s :
  (List.length s <= fuel)%nat -> (List.length s <= fuel')%nat ->
  matchAll fuel s = matchAll fuel' s.
Proof.
  revert fuel' s. induction fuel as [|fuel IH]; intros fuel' s H H'.
  - destruct s; [|simpl in H; lia]. destruct fuel'; reflexivity.
  - destruct s as [|c s]; [destruct fuel'; reflexivity|].
    destruct fuel' as [|fuel']; [simpl in H'; lia|].
    simpl in H, H'. cbn [matchAll].
    destruct (matchSentence (c :: s)) as [[m r]|] eqn:Hm.
    + destruct (matchSentence_spec _ _ _ Hm) as (_ & _ & Hlen). simpl in Hlen.
      f_equal. apply IH; lia.
    + apply IH; lia.
Qed.

Lemma sentences_endsSentence post : Forall endsSentence (sentences post).
Proof. apply matchAll_endsSentence. Qed.

Lemma endsSentence_nonempty s : endsSentence s -> s <> [].
Proof. intros (c & Hl & _) ->. discriminate. Qed.

(** ** The two loops of the fallback *)

Lemma accumulateSentences_le M t ss :
  len t <= M -> len (accumulateSentences (Some M) t ss) <= M.
Proof.
  revert t. induction ss as [|s ss IH]; intros t Ht; simpl; [exact Ht|].
  destruct (len (t ++ s) <=? M) eqn:Hfit; [|exact Ht].
  apply IH. lia.
Qed.

Lemma accumulateSentences_take M t ss :
  exists k, accumulateSentences (Some M) t ss = t ++ concat (take k ss)
            /\ (forall s rest, ss = s :: rest -> len (t ++ s) <= M -> (0 < k)%nat).
Proof.
  revert t. induction ss as [|s ss IH]; intros t; simpl.
  - exists 0%nat. split; [by rewrite app_nil_r | intros ? ? [=]].
  - destruct (len (t ++ s) <=? M) eqn:Hfit.
    + destruct (IH (t ++ s)) as (k & Hk & _). exists (S k). split.
      * rewrite Hk. simpl. by rewrite app_assoc.
      * intros. lia.
    + exists 0%nat. split; [by rewrite app_nil_r|].
      intros s' rest [= <- <-] Hle. lia.
Qed.

Lemma accumulateSentences_ends M t ss :
  t = [] \/ endsSentence t -> Forall endsSentence ss ->
  accumulateSentences (Some M) t ss = [] \/ endsSentence (accumulateSentences (Some M) t ss).
Proof.
  revert t. induction ss as [|s ss IH]; intros t Ht Hall; simpl; [exact Ht|].
  destruct (len (t ++ s) <=? M); [|exact Ht].
  inversion Hall as [|? ? Hs Hss]; subst.
  apply IH; [|exact Hss]. right.
  destruct Hs as (c & Hl & Hc). exists c. split; [|exact Hc].
  rewrite last_app, Hl. reflexivity.
Qed.

Lemma accumulateWords_le M t ws :
  len t <= M -> len (accumulateWords (Some M) t ws) <= M.
Proof.
  revert t. induction ws as [|w ws IH]; intros t Ht; simpl; [exact Ht|].
  match goal with |- context [if ?b then _ else _] => destruct b eqn:Hfit end;
    [|exact Ht].
  apply IH. simpl in Hfit. lia.
Qed.

Lemma split_nonempty sep s : split sep s <> [].
Proof.
  destruct s as [|c s]; simpl; [discriminate|].
  destruct (c =? sep)%N; [discriminate|]. destruct (split sep s); discriminate.
Qed.

Lemma join_cons_cons sep p q ps : join sep (p :: q :: ps) = p ++ sep ++ join sep (q :: ps).
Proof. reflexivity. Qed.

Lemma join_app sep l1 l2 :
  l1 <> [] -> l2 <> [] -> join sep (l1 ++ l2) = join sep l1 ++ sep ++ join sep l2.
Proof.
  intros H1 H2. induction l1 as [|p l1 IH]; [congruence|].
  destruct l1 as [|q l1].
  - destruct l2 as [|r l2]; [congruence|]. reflexivity.
  - change ((p :: q :: l1) ++ l2) with (p :: q :: (l1 ++ l2)).
    rewrite !join_cons_cons.
    change (q :: l1 ++ l2) with ((q :: l1) ++ l2).
    rewrite IH by discriminate. by rewrite <- !app_assoc.
Qed.

(** Joining the pieces of a split gives the string back. *)
Lemma join_split sep s : join [sep] (split sep s) = s.
Proof.
  induction s as [|c s IH]; [reflexivity|]. cbn [split].
  pose proof (split_nonempty sep s) as Hne.
  destruct (split sep s) as [|w ws] eqn:Hs; [congruence|].
  destruct (c =? sep)%N eqn:Hc.
  - apply N.eqb_eq in Hc. subst c. rewrite join_cons_cons, IH. reflexivity.
  - destruct ws as [|w' ws].
    + cbn [join] in *. by rewrite IH.
    + rewrite join_cons_cons in *. rewrite <- IH. reflexivity.
Qed.

Lemma split_head sep c s :
  c <> sep -> exists w ws, split sep (c :: s) = (c :: w) :: ws.
Proof.
  intros Hc. simpl. destruct (c =? sep)%N eqn:E.
  - apply N.eqb_eq in E. congruence.
  - destruct (split sep s); eauto.
Qed.

Lemma split_no_sep sep s : Forall (fun c => c <> sep) s -> split sep s = [s].
Proof.
  induction 1 as [|c s Hc _ IH]; [reflexivity|]. simpl.
  destruct (c =? sep)%N eqn:E; [apply N.eqb_eq in E; congruence|].
  by rewrite IH.
Qed.

(** Once a word is in, the loop keeps whole words, one space between two. *)
Lemma accumulateWords_join M done t todo :
  done <> [] -> t <> [] -> t = join [32%N] done ->
  exists j, accumulateWords (Some M) t todo = join [32%N] (done ++ take j todo).
Proof.
  revert done t. induction todo as [|w todo IH]; intros done t Hd Ht Heq.
  - exists 0%nat. simpl. by rewrite app_nil_r.
  - cbn [accumulateWords].
    destruct t as [|c t]; [congruence|]. cbn [truthy].
    match goal with |- context [if ?b then _ else _] => destruct b end.
    + destruct (IH (done ++ [w]) ((c :: t) ++ [32%N] ++ w)) as (j & Hj).
      * by destruct done.
      * discriminate.
      * rewrite join_app by (congruence || discriminate). by rewrite Heq.
      * exists (S j). rewrite Hj. simpl. by rewrite <- app_assoc.
    + exists 0%nat. simpl. by rewrite app_nil_r.
Qed.

Lemma accumulateWords_take M w ws :
  w <> [] ->
  exists k, accumulateWords (Some M) [] (w :: ws) = join [32%N] (take k (w :: ws))
            /\ (len w <= M -> (0 < k)%nat).
Proof.
  intros Hw. cbn [accumulateWords truthy]. rewrite !app_nil_l.
  cbn [numLe]. destruct (len w <=? M) eqn:Hfit.
  - destruct (accumulateWords_join M [w] w ws) as (j & Hj);
      [discriminate | exact Hw | reflexivity |].
    exists (S j). split; [exact Hj | lia].
  - exists 0%nat. split; [reflexivity | lia].
Qed.

(** ** The truncation fallback *)

Lemma truncatePost_le post M : 0 <= M -> len (truncatePost post (Some M)) <= M.
Proof.
  intros HM. unfold truncatePost.
  destruct (truthy _).
  - etransitivity; [apply len_trim_le|]. by apply accumulateSentences_le.
  - etransitivity; [apply len_trim_le|]. by apply accumulateWords_le.
Qed.

Lemma trim_cons c t : isWhiteSpace c = false -> exists r, trim (c :: t) = c :: r.
Proof.
  intros Hc. unfold trim. rewrite (trimStart_id _ _ Hc).
  destruct (trimEnd_split (c :: t)) as (t2 & Ht2 & Hall).
  destruct (trimEnd (c :: t)) as [|a r].
  - simpl in Ht2. subst t2. inversion Hall; congruence.
  - injection Ht2 as <- _. eauto.
Qed.

Lemma join_head sep c w ws : exists t, join sep ((c :: w) :: ws) = c :: t.
Proof. destruct ws; simpl; eauto. Qed.

Lemma sentences_path_ends M post :
  truthy (accumulateSentences (Some M) [] (sentences post)) = true ->
  endsSentence (trim (accumulateSentences (Some M) [] (sentences post))).
Proof.
  intros Ht.
  destruct (accumulateSentences_ends M [] (sentences post)) as [H | (c & Hl & Hc)];
    [by left | apply sentences_endsSentence | rewrite H in Ht; discriminate |].
  exists c. split; [|exact Hc].
  apply trim_last; [exact Hl | by apply isTerminator_not_whitespace].
Qed.

Lemma first_sentence_fits M post s rest :
  sentences post = s :: rest -> len s <= M ->
  exists k, (0 < k)%nat
    /\ accumulateSentences (Some M) [] (sentences post) = concat (take k (sentences post))
    /\ truthy (accumulateSentences (Some M) [] (sentences post)) = true.
Proof.
  intros Hs Hfit.
  destruct (accumulateSentences_take M [] (sentences post)) as (k & Hk & Hpos).
  simpl in Hk. exists k.
  assert (0 < k)%nat as Hk0 by (eapply Hpos; [exact Hs | exact Hfit]).
  split; [exact Hk0|]. split; [exact Hk|].
  rewrite Hk, Hs. destruct k as [|k]; [lia|]. simpl.
  pose proof (sentences_endsSentence post) as Hall. rewrite Hs in Hall.
  inversion Hall as [|? ? Hends _]; subst.
  apply endsSentence_nonempty in Hends. by destruct s.
Qed.

Lemma no_sentence_fits M post :
  sentences post = [] \/ (exists s rest, sentences post = s :: rest /\ M < len s) ->
  accumulateSentences (Some M) [] (sentences post) = [].
Proof.
  intros [-> | (s & rest & -> & Hlong)]; [reflexivity|].
  simpl. destruct (len s <=? M) eqn:E; [lia | reflexivity].
Qed.

Lemma words_path_boundary M raw :
  0 <= M -> M < len (trim raw) ->
  endsAtWordBoundary (trim raw)
    (trim (accumulateWords (Some M) [] (split 32 (trim raw)))).
Proof.
  intros HM Hlong.
  destruct (trim raw) as [|c p] eqn:Hpost; [rewrite len_nil in Hlong; lia|].
  pose proof (trim_head _ _ _ Hpost) as Hc.
  assert (c <> 32%N) as Hc32 by (intros ->; discriminate).
  destruct (split_head 32 c p Hc32) as (w & ws & Hsplit).
  pose proof (join_split 32 (c :: p)) as Hjoin.
  pose proof (accumulateWords_le M [] (split 32 (c :: p)) HM) as Hle.
  rewrite Hsplit in *.
  destruct (accumulateWords_take M (c :: w) ws) as (k & Hk & _); [discriminate|].
  rewrite Hk in *. clear Hk.
  destruct k as [|k].
  { exists (c :: p). split; [reflexivity | by left]. }
  rewrite <- (take_drop (S k) ((c :: w) :: ws)) in Hjoin.
  cbn [take] in *.
  destruct (join_head [32%N] c w (take k ws)) as (t & Ht).
  destruct (drop (S k) ((c :: w) :: ws)) as [|d ds] eqn:Hdrop.
  { rewrite app_nil_r in Hjoin. rewrite Hjoin in Hle. lia. }
  rewrite join_app in Hjoin by discriminate.
  rewrite Ht in *.
  destruct (trim_cons c t Hc) as (r & Hr).
  unfold trim in Hr. rewrite (trimStart_id _ _ Hc) in Hr.
  destruct (trimEnd_split (c :: t)) as (t2 & Ht2 & Hall).
  unfold trim at 1. rewrite (trimStart_id _ _ Hc).
  exists (t2 ++ [32%N] ++ join [32%N] (d :: ds)). split.
  - rewrite app_assoc, <- Ht2. by rewrite Hjoin.
  - right. split.
    + rewrite Hr. destruct (last (c :: r)) as [x|] eqn:Hl.
      * exists x. split; [reflexivity|].
        apply (trim_last_not_whitespace (c :: t)).
        unfold trim. rewrite (trimStart_id _ _ Hc), Hr. exact Hl.
      * apply last_None in Hl. discriminate.
    + right. destruct t2 as [|a t2].
      * exists 32%N, (join [32%N] (d :: ds)). split; reflexivity.
      * exists a, (t2 ++ [32%N] ++ join [32%N] (d :: ds)). split; [reflexivity|].
        by inversion Hall.
Qed.

Section ComposerProperties.

Variable env : Env.
Variable complete : nat -> Prompt -> jsstring + option jsstring.

Lemma generateWithPrompt_world prompt w r w' :
  generateWithPrompt env complete prompt w = (r, w') ->
  w' = w \/ w' = countGeminiCall w.
Proof.
  unfold generateWithPrompt. intros H.
  destruct (truthyOpt (GEMINI_API_KEY env)); [|injection H as _ <-; by left].
  destruct (complete (geminiCalls w) prompt); injection H as _ <-; by right.
Qed.

(** What [generatePost] returns is the prefix followed by a content that
    passed the final length check or came out of the fallback. *)
Lemma generatePost_content summary projectName w post w' :
  generatePost env complete summary projectName w = (Ok post, w') ->
  let maxPostLength := numSub (characterLimit env) (Some (len (postPrefix projectName))) in
  exists content,
    post = postPrefix projectName ++ content
    /\ (numGt (Some (len content)) maxPostLength = false
        \/ exists p, content = truncatePost p maxPostLength).
Proof.
  unfold generatePost, bind, ret. intros H.
  set (maxPostLength := numSub (characterLimit env) (Some (len (postPrefix projectName)))) in *.
  destruct (generateWithPrompt env complete _ w) as [[p1|e1] w1]; [|discriminate].
  assert (forall content,
    (numGt (Some (len content)) maxPostLength = false
     \/ exists p, content = truncatePost p maxPostLength) ->
    (if truthyOpt projectName
     then default [] projectName ++ js " Updates" ++ nl ++ nl ++ content
     else content) = postPrefix projectName ++ content) as Hprefix.
  { intros content _. unfold postPrefix. destruct (truthyOpt projectName).
    - by rewrite <- !app_assoc.
    - reflexivity. }
  destruct (numGt (Some (len (trim p1))) maxPostLength) eqn:G1.
  - destruct (generateWithPrompt env complete _ w1) as [[p2|e2] w2]; [|discriminate].
    destruct (numGt (Some (len (trim p2))) maxPostLength) eqn:G2;
      injection H as <- _; eexists; (split; [apply Hprefix|]); eauto.
  - rewrite G1 in H. injection H as <- _.
    eexists; (split; [apply Hprefix|]); eauto.
Qed.

End ComposerProperties.

(** ** The review state machine *)

Lemma onlyGemini_refl w : onlyGemini w w.
Proof. unfold onlyGemini. auto 10. Qed.

Lemma onlyGemini_trans w1 w2 w3 : onlyGemini w1 w2 -> onlyGemini w2 w3 -> onlyGemini w1 w3.
Proof.
  unfold onlyGemini. intros (?&?&?&?&?&?) (?&?&?&?&?&?).
  repeat split; try congruence. lia.
Qed.

Lemma onlyGemini_count w : onlyGemini w (countGeminiCall w).
Proof. unfold onlyGemini. simpl. auto 10. Qed.

Lemma preserves_ret {A} (a : A) : preserves (ret a).
Proof. intros w H. exact H. Qed.

Lemma preserves_throw {A} e : preserves (@throw A e).
Proof. intros w H. exact H. Qed.

Lemma preserves_gets {A} (f : World -> A) : preserves (gets f).
Proof. intros w H. exact H. Qed.

Lemma preserves_bind {A B} (c : M A) (k : A -> M B) :
  preserves c -> (forall a, preserves (k a)) -> preserves (bind c k).
Proof.
  intros Hc Hk w H. unfold bind. specialize (Hc w H).
  destruct (c w) as [[a|e] w']; simpl in *; [by apply Hk | exact Hc].
Qed.

Lemma preserves_tryCatch {A} (body : M A) (handler : jsstring -> M A) :
  preserves body -> (forall e, preserves (handler e)) -> preserves (tryCatch body handler).
Proof.
  intros Hb Hh w H. unfold tryCatch. specialize (Hb w H).
  destruct (body w) as [[a|e] w']; simpl in *; [exact Hb | by apply Hh].
Qed.

Lemma preserves_modify (f : World -> World) :
  (forall w, sessionsOk w -> sessionsOk (f w)) -> preserves (modify f).
Proof. intros Hf w H. by apply Hf. Qed.

Lemma preserves_reply text : preserves (reply text).
Proof. apply preserves_modify. intros w H. exact H. Qed.

Lemma preserves_send text : preserves (send text).
Proof. apply preserves_modify. intros w H. exact H. Qed.

Lemma preserves_insert key s :
  pendingHasPost s -> preserves (modify (setUserStates (insert key s))).
Proof.
  intros Hs. apply preserves_modify. intros w H.
  unfold sessionsOk in *. simpl. by apply map_Forall_insert_2.
Qed.

Lemma preserves_delete key : preserves (modify (setUserStates (delete key))).
Proof.
  apply preserves_modify. intros w H.
  unfold sessionsOk in *. simpl. by apply map_Forall_delete.
Qed.

Lemma preserves_updateState key f :
  (forall s, pendingHasPost s -> pendingHasPost (f s)) -> preserves (updateState key f).
Proof.
  intros Hf. apply preserves_modify. intros w H.
  unfold sessionsOk in *. simpl. intros k s Hk.
  destruct (decide (key = k)) as [->|Hne].
  - rewrite lookup_alter_eq in Hk.
    destruct (userStates w !! k) as [s0|] eqn:E; simpl in Hk; [|discriminate].
    injection Hk as <-. apply Hf. exact (H k s0 E).
  - rewrite lookup_alter_ne in Hk by done. exact (H k s Hk).
Qed.

Lemma preserves_setLastCheckedCommits f : preserves (modify (setLastCheckedCommits f)).
Proof. apply preserves_modify. intros w H. exact H. Qed.

Lemma preserves_forEach {A} (f : A -> M unit) l :
  (forall a, preserves (f a)) -> preserves (forEach f l).
Proof.
  intros Hf. induction l as [|a l IH]; simpl.
  - apply preserves_ret.
  - apply preserves_bind; [apply Hf | intros _; exact IH].
Qed.

Lemma pendingHasPost_withSelection selected s : pendingHasPost (withSelection selected s).
Proof. intros [=]. Qed.

Lemma pendingHasPost_withSummary summary s :
  pendingHasPost s -> pendingHasPost (withSummary summary s).
Proof. intros H. exact H. Qed.

Lemma pendingHasPost_withProjectName name s :
  pendingHasPost s -> pendingHasPost (withProjectName name s).
Proof. intros H. exact H. Qed.

Lemma pendingHasPost_withPost post s : pendingHasPost (withPost post s).
Proof. intros _ [=]. Qed.

Section BotProperties.

Variable env : Env.
Variable complete : nat -> Prompt -> jsstring + option jsstring.
Variable tweet : nat -> jsstring -> option XFailure.
Variable github : nat -> list jsstring -> Z -> Result (list CommitInfo).
Variable toUpperCase : jsstring -> jsstring.
Variable toLowerCase : jsstring -> jsstring.

Lemma generateWithPrompt_frame prompt w r w' :
  generateWithPrompt env complete prompt w = (r, w') ->
  onlyGemini w w' /\ (geminiCalls w' <= geminiCalls w + 1)%nat.
Proof.
  intros H. destruct (generateWithPrompt_world _ _ _ _ _ _ H) as [-> | ->].
  - split; [apply onlyGemini_refl | lia].
  - split; [apply onlyGemini_count | simpl; lia].
Qed.

Lemma generateSummary_frame analysis w r w' :
  generateSummary env complete analysis w = (r, w') ->
  onlyGemini w w' /\ (geminiCalls w' <= geminiCalls w + 1)%nat.
Proof. apply generateWithPrompt_frame. Qed.

Lemma generatePost_frame summary name w r w' :
  generatePost env complete summary name w = (r, w') ->
  onlyGemini w w' /\ (geminiCalls w' <= geminiCalls w + 2)%nat.
Proof.
  unfold generatePost, bind, ret.
  destruct (generateWithPrompt env complete _ w) as [[p1|e1] w1] eqn:H1;
    apply generateWithPrompt_frame in H1 as [F1 B1].
  - destruct (numGt (Some (len (trim p1))) _).
    + destruct (generateWithPrompt env complete _ w1) as [[p2|e2] w2] eqn:H2;
        apply generateWithPrompt_frame in H2 as [F2 B2];
        intros [= _ <-]; (split; [by eapply onlyGemini_trans | lia]).
    + intros [= _ <-]. split; [exact F1 | lia].
  - intros [= _ <-]. split; [exact F1 | lia].
Qed.

Lemma postToX_frame text w r w' :
  postToX env tweet text w = (r, w') ->
  userStates w' = userStates w /\ lastCheckedCommits w' = lastCheckedCommits w
  /\ outbox w' = outbox w /\ geminiCalls w' = geminiCalls w
  /\ (tweetLog w' = tweetLog w \/ tweetLog w' = text :: tweetLog w).
Proof.
  unfold postToX. intros H.
  repeat match type of H with
         | (if ?b then _ else _) = _ => destruct b
         | match ?x with _ => _ end = _ => destruct x
         end;
    injection H as _ <-; simpl; auto 10.
Qed.

Lemma getRecentCommitsFromRepos_frame repos count w r w' :
  getRecentCommitsFromRepos github repos count w = (r, w') -> w' = countGithubCall w.
Proof.
  unfold getRecentCommitsFromRepos.
  destruct (github (githubCalls w) repos count); by intros [= _ <-].
Qed.

Lemma preserves_frame {A} (c : M A) :
  (forall w, userStates (snd (c w)) = userStates w) -> preserves c.
Proof. intros Hc w H. unfold sessionsOk. rewrite Hc. exact H. Qed.

Lemma preserves_generateSummary analysis : preserves (generateSummary env complete analysis).
Proof.
  apply preserves_frame. intros w.
  destruct (generateSummary env complete analysis w) as [r w'] eqn:E.
  apply generateSummary_frame in E as [(? & _) _]. assumption.
Qed.

Lemma preserves_generatePost summary name : preserves (generatePost env complete summary name).
Proof.
  apply preserves_frame. intros w.
  destruct (generatePost env complete summary name w) as [r w'] eqn:E.
  apply generatePost_frame in E as [(? & _) _]. assumption.
Qed.

Lemma preserves_postToX text : preserves (postToX env tweet text).
Proof.
  apply preserves_frame. intros w.
  destruct (postToX env tweet text w) as [r w'] eqn:E.
  apply postToX_frame in E as (? & _). assumption.
Qed.

Lemma preserves_getRecentCommitsFromRepos repos count :
  preserves (getRecentCommitsFromRepos github repos count).
Proof.
  apply preserves_frame. intros w.
  destruct (getRecentCommitsFromRepos github repos count w) as [r w'] eqn:E.
  apply getRecentCommitsFromRepos_frame in E as ->. reflexivity.
Qed.

(** Every handler keeps the invariant.  The proofs walk the handler's
    structure: a hint closes a call whose lemma is known, the structural
    lemmas open binds, handlers and branches. *)
Create HintDb preserves.

#[local] Hint Resolve preserves_ret preserves_reply preserves_send preserves_gets
  preserves_delete preserves_setLastCheckedCommits preserves_generateSummary
  preserves_generatePost preserves_postToX preserves_getRecentCommitsFromRepos
  : preserves.

Ltac preserves_walk :=
  repeat first
    [ solve [auto 1 with preserves nocore]
    | apply preserves_updateState; intros ? ?;
        solve [ apply pendingHasPost_withSelection | apply pendingHasPost_withPost
              | by apply pendingHasPost_withSummary
              | by apply pendingHasPost_withProjectName ]
    | apply preserves_insert; solve [ intros _ [=] | intros [=] ]
    | apply preserves_forEach; intros ?
    | apply preserves_bind; [|intros ?]
    | apply preserves_tryCatch; [|intros ?]
    | match goal with
      | |- preserves (if ?b then _ else _) => destruct b
      | |- preserves (match ?x with _ => _ end) => destruct x
      end ].

Lemma preserves_processNewCommit commit :
  preserves (processNewCommit env complete toUpperCase toLowerCase commit).
Proof. unfold processNewCommit. preserves_walk. Qed.
#[local] Hint Resolve preserves_processNewCommit : preserves.

Lemma preserves_observeCommit commit :
  preserves (observeCommit env complete toUpperCase toLowerCase commit).
Proof. unfold observeCommit. preserves_walk. Qed.
#[local] Hint Resolve preserves_observeCommit : preserves.

Lemma preserves_checkForNewCommits :
  preserves (checkForNewCommits env complete github toUpperCase toLowerCase).
Proof. unfold checkForNewCommits. preserves_walk. Qed.

Lemma preserves_initCommits : preserves (initCommits env github).
Proof. unfold initCommits. preserves_walk. Qed.

Lemma preserves_runCommand userId : preserves (runCommand env github userId).
Proof. unfold runCommand. preserves_walk. Qed.

Lemma preserves_draftSelection userId selected :
  preserves (draftSelection env complete toUpperCase toLowerCase userId selected).
Proof. unfold draftSelection. preserves_walk. Qed.
#[local] Hint Resolve preserves_draftSelection : preserves.

Lemma preserves_repoCommand userId content :
  preserves (repoCommand env complete toUpperCase toLowerCase userId content).
Proof. unfold repoCommand. preserves_walk. Qed.

Lemma preserves_regeneratePost state key :
  preserves (regeneratePost env complete state key).
Proof. unfold regeneratePost. preserves_walk. Qed.
#[local] Hint Resolve preserves_regeneratePost : preserves.

Lemma preserves_redoCommand userId : preserves (redoCommand env complete userId).
Proof. unfold redoCommand, redoAuto. preserves_walk. Qed.

Lemma preserves_noCommand userId : preserves (noCommand env userId).
Proof. unfold noCommand. preserves_walk. Qed.

Lemma preserves_postCommand userId : preserves (postCommand env tweet userId).
Proof. unfold postCommand. preserves_walk. Qed.

#[local] Hint Resolve preserves_runCommand preserves_repoCommand preserves_redoCommand
  preserves_noCommand preserves_postCommand preserves_initCommits
  preserves_checkForNewCommits : preserves.

Lemma preserves_messageCreate authorBot channelId userId content :
  preserves (messageCreate env complete tweet github toUpperCase toLowerCase
               authorBot channelId userId content).
Proof. unfold messageCreate. preserves_walk. Qed.

Lemma preserves_handle ev :
  preserves (handle env complete tweet github toUpperCase toLowerCase ev).
Proof. destruct ev; simpl; auto using preserves_messageCreate with preserves. Qed.

Lemma sessionsOk_initial : sessionsOk initialWorld.
Proof. unfold sessionsOk. simpl. apply map_Forall_empty. Qed.

Lemma reachable_sessionsOk w :
  reachable env complete tweet github toUpperCase toLowerCase w -> sessionsOk w.
Proof.
  induction 1 as [|ev w _ IH]; [apply sessionsOk_initial|].
  unfold step. by apply preserves_handle.
Qed.

End BotProperties.

(** ** Decimal numerals *)

Lemma isDecimalDigit_cases c :
  isDecimalDigit c = true ->
  c ∈ [48; 49; 50; 51; 52; 53; 54; 55; 56; 57]%N.
Proof.
  unfold isDecimalDigit. intros H. apply andb_true_iff in H as [H1 H2].
  apply N.leb_le in H1, H2.
  assert (c = 48 \/ c = 49 \/ c = 50 \/ c = 51 \/ c = 52 \/ c = 53 \/ c = 54
          \/ c = 55 \/ c = 56 \/ c = 57)%N as Hc by lia.
  repeat (destruct Hc as [-> | Hc]; [set_solver|]). subst c. set_solver.
Qed.

Ltac digit_cases H :=
  apply isDecimalDigit_cases in H;
  repeat (apply elem_of_cons in H as [-> | H]); [..| by apply elem_of_nil in H].

Lemma digit_not_whitespace c : isDecimalDigit c = true -> isWhiteSpace c = false.
Proof. intros H. digit_cases H; reflexivity. Qed.

Lemma digit_not_comma c : isDecimalDigit c = true -> c <> 44%N.
Proof. intros H. digit_cases H; discriminate. Qed.

Lemma digitValue_decimal c :
  isDecimalDigit c = true -> digitValue c = Some (Z.of_N c - 48) /\ Z.of_N c - 48 < 10.
Proof. intros H. digit_cases H; split; reflexivity. Qed.

Lemma parseDigits_snoc a ds d :
  Forall (fun c => isDecimalDigit c = true) ds -> isDecimalDigit d = true ->
  parseDigits 10 a (ds ++ [d])
  = Some (10 * default 0 (parseDigits 10 a ds) + (Z.of_N d - 48)).
Proof.
  intros Hds Hd. revert a. induction Hds as [|c ds Hc _ IH]; intros a; simpl.
  - destruct (digitValue_decimal d Hd) as [-> Hlt].
    apply Z.ltb_lt in Hlt. rewrite Hlt. reflexivity.
  - destruct (digitValue_decimal c Hc) as [-> Hlt].
    apply Z.ltb_lt in Hlt. rewrite Hlt. apply IH.
Qed.

Lemma decimalDigits_acc fuel n acc :
  decimalDigits fuel n acc = decimalDigits fuel n [] ++ acc.
Proof.
  revert n acc. induction fuel as [|fuel IH]; intros n acc; simpl; [reflexivity|].
  destruct (n <? 10); [reflexivity|].
  rewrite (IH _ (_ :: acc)), (IH _ [_]). by rewrite <- app_assoc.
Qed.

Lemma decimalDigits_spec fuel n :
  0 <= n -> (Z.to_nat n < fuel)%nat ->
  Forall (fun c => isDecimalDigit c = true) (decimalDigits fuel n [])
  /\ decimalDigits fuel n [] <> []
  /\ parseDigits 10 None (decimalDigits fuel n []) = Some n.
Proof.
  revert n. induction fuel as [|fuel IH]; intros n Hn Hfuel; [lia|].
  assert (isDecimalDigit (Z.to_N (48 + n mod 10)) = true) as Hd.
  { unfold isDecimalDigit. pose proof (Z.mod_pos_bound n 10 ltac:(lia)).
    apply andb_true_iff. split; apply N.leb_le; lia. }
  assert (Z.of_N (Z.to_N (48 + n mod 10)) - 48 = n mod 10) as Hv.
  { pose proof (Z.mod_pos_bound n 10 ltac:(lia)). lia. }
  cbn [decimalDigits]. destruct (n <? 10) eqn:Hlt.
  - apply Z.ltb_lt in Hlt. split; [by repeat constructor|]. split; [discriminate|].
    rewrite (parseDigits_snoc None [] _ (List.Forall_nil _) Hd : parseDigits 10 None [_] = _).
    cbn [parseDigits default]. rewrite Hv, Z.mod_small by lia. reflexivity.
  - apply Z.ltb_ge in Hlt. rewrite decimalDigits_acc.
    assert (0 <= n / 10 < n) as Hq.
    { split; [apply Z.div_pos; lia | apply Z.div_lt; lia]. }
    destruct (IH (n / 10)) as (Hall & Hne & Hparse); [lia | lia |].
    split; [apply Forall_app; split; [exact Hall | by repeat constructor]|].
    split; [by destruct (decimalDigits fuel (n / 10) [])|].
    rewrite (parseDigits_snoc None _ _ Hall Hd), Hparse, Hv. simpl.
    f_equal. pose proof (Z.div_mod n 10 ltac:(lia)). lia.
Qed.

Lemma toDecimal_digits n :
  0 <= n ->
  Forall (fun c => isDecimalDigit c = true) (toDecimal n)
  /\ toDecimal n <> []
  /\ parseDigits 10 None (toDecimal n) = Some n.
Proof.
  intros Hn. unfold toDecimal.
  destruct (n <? 0) eqn:E; [apply Z.ltb_lt in E; lia|].
  apply decimalDigits_spec; lia.
Qed.

(** A decimal numeral has no whitespace to trim and no comma to split at,
    and [parseInt] reads it back. *)
Lemma trim_toDecimal n : 0 <= n -> trim (toDecimal n) = toDecimal n.
Proof.
  intros Hn. destruct (toDecimal_digits n Hn) as (Hall & Hne & _).
  destruct (toDecimal n) as [|c ds] eqn:E; [congruence|].
  unfold trim. rewrite trimStart_id.
  - destruct (last (c :: ds)) as [x|] eqn:Hl.
    + apply (trimEnd_id _ x Hl). apply digit_not_whitespace.
      rewrite Forall_forall in Hall. apply Hall. by apply last_Some_elem_of.
    + apply last_None in Hl. discriminate.
  - apply digit_not_whitespace. by inversion Hall.
Qed.

Lemma split_toDecimal n : 0 <= n -> split 44 (toDecimal n) = [toDecimal n].
Proof.
  intros Hn. apply split_no_sep.
  destruct (toDecimal_digits n Hn) as (Hall & _).
  eapply Forall_impl; [exact Hall|]. intros c Hc. by apply digit_not_comma.
Qed.

Lemma parseInt_toDecimal n : 0 <= n -> parseInt (toDecimal n) 0 = Some n.
Proof.
  intros Hn. destruct (toDecimal_digits n Hn) as (Hall & Hne & Hparse).
  destruct (toDecimal n) as [|c ds] eqn:E; [congruence|].
  inversion Hall as [|? ? Hc Hds]; subst.
  unfold parseInt. rewrite (trimStart_id _ _ (digit_not_whitespace _ Hc)).
  assert (match ds with
          | x :: _ => ((x =? 120) || (x =? 88))%N = false
          | [] => True
          end) as Hx.
  { destruct ds as [|x ds]; [exact I|].
    inversion Hds as [|? ? Hxd _]; subst. digit_cases Hxd; reflexivity. }
  digit_cases Hc; cbn -[parseDigits Z.mul];
    try (rewrite Hparse; f_equal; lia);
    destruct ds as [|x ds]; try rewrite Hx; cbn -[parseDigits Z.mul];
    rewrite Hparse; f_equal; lia.
Qed.

(** ** Selection *)

Lemma selectedIndicesOf_spec args listed (n : number) :
  n ∈ selectedIndicesOf args listed <->
  exists token i, token ∈ split 44 args /\ parseInt (trim token) 0 = Some (i + 1)
                  /\ n = Some i /\ 0 <= i < len listed.
Proof.
  unfold selectedIndicesOf. rewrite list_elem_of_In, filter_In, <- list_elem_of_In.
  rewrite list_elem_of_fmap. split.
  - intros [(token & -> & Htoken) Hvalid].
    destruct (parseInt (trim token) 0) as [v|] eqn:Hp; [|discriminate].
    simpl in Hvalid. exists token, (v - 1). rewrite Hp.
    repeat split; [exact Htoken | f_equal; lia | lia | lia].
  - intros (token & i & Htoken & Hp & -> & Hi). split.
    + exists token. rewrite Hp. split; [simpl; f_equal; lia | exact Htoken].
    + simpl. apply andb_true_iff. split; [apply Z.leb_le | apply Z.ltb_lt]; lia.
Qed.

Lemma selectedIndicesOf_invalid args listed :
  Forall (invalidToken (len listed)) (split 44 args) ->
  selectedIndicesOf args listed = [].
Proof.
  intros Hall. apply elem_of_nil_inv. intros n Hn.
  apply selectedIndicesOf_spec in Hn as (token & i & Htoken & Hp & _ & Hi).
  rewrite Forall_forall in Hall. specialize (Hall token Htoken).
  unfold invalidToken in Hall. rewrite Hp in Hall. lia.
Qed.

(** Every selected index finds its commit. *)
Lemma commitsAt_cons listed i l :
  commitsAt listed (Some i :: l)
  = match listed !! Z.to_nat i with
    | Some c => c :: commitsAt listed l
    | None => commitsAt listed l
    end.
Proof. reflexivity. Qed.



Lemma len_eqb_0 {A} (l : list A) : (len l =? 0) = match l with [] => true | _ => false end.
Proof. destruct l; reflexivity. Qed.

Section CommandProperties.

Variable env : Env.
Variable complete : nat -> Prompt -> jsstring + option jsstring.
Variable tweet : nat -> jsstring -> option XFailure.
Variable github : nat -> list jsstring -> Z -> Result (list CommitInfo).
Variable toUpperCase : jsstring -> jsstring.
Variable toLowerCase : jsstring -> jsstring.

(** The provider does not see the session map: a call made after an
    assignment to a session gives what it gives before it. *)
Lemma generateWithPrompt_setUserStates f prompt w :
  generateWithPrompt env complete prompt (setUserStates f w)
  = (fst (generateWithPrompt env complete prompt w),
     setUserStates f (snd (generateWithPrompt env complete prompt w))).
Proof.
  unfold generateWithPrompt. simpl.
  destruct (truthyOpt (GEMINI_API_KEY env)); [|reflexivity].
  destruct (complete (geminiCalls w) prompt); reflexivity.
Qed.

Lemma generatePost_setUserStates f summary name w :
  generatePost env complete summary name (setUserStates f w)
  = (fst (generatePost env complete summary name w),
     setUserStates f (snd (generatePost env complete summary name w))).
Proof.
  unfold generatePost, bind, ret. rewrite generateWithPrompt_setUserStates.
  destruct (generateWithPrompt env complete _ w) as [[p1|e1] w1]; [|reflexivity].
  cbn [fst snd].
  destruct (numGt (Some (len (trim p1))) _); [|reflexivity].
  rewrite generateWithPrompt_setUserStates.
  destruct (generateWithPrompt env complete _ w1) as [[p2|e2] w2]; reflexivity.
Qed.

Lemma setUserStates_compose f g w :
  setUserStates f (setUserStates g w) = setUserStates (f ∘ g) w.
Proof. reflexivity. Qed.

Lemma setUserStates_alter_alter (f g : UserState -> UserState) key w :
  setUserStates (alter f key) (setUserStates (alter g key) w)
  = setUserStates (alter (f ∘ g) key) w.
Proof.
  unfold setUserStates. simpl. f_equal. apply alter_alter_eq.
Qed.

(** The three ways [draftSelection] ends, by the answers of the provider
    starting from [w]: the summary fails, the post fails, both arrive. *)
Lemma draftSelection_spec userId selected w :
  let name := projectNameOf env toUpperCase toLowerCase (repo <$> head selected) in
  draftSelection env complete toUpperCase toLowerCase userId selected w =
  match generateSummary env complete (selectionAnalysis selected) w with
  | (Throw e, w2) =>
      (Throw e, setUserStates (alter (withSelection selected) userId) w2)
  | (Ok summary, w2) =>
      match generatePost env complete summary (Some name) w2 with
      | (Throw e, w3) =>
          (Throw e,
           setUserStates
             (alter (withProjectName name ∘ withSummary summary ∘ withSelection selected)
                userId) w3)
      | (Ok post, w3) =>
          (Ok tt,
           emit (Reply (draftReply env summary post))
             (setUserStates
                (alter (withPost post ∘ withProjectName name ∘ withSummary summary
                        ∘ withSelection selected) userId) w3))
      end
  end.
Proof.
  intros name. unfold draftSelection, updateState, bind, modify, reply.
  fold name. unfold generateSummary. rewrite generateWithPrompt_setUserStates.
  destruct (generateWithPrompt env complete _ w) as [[summary|e] w2]; [|reflexivity].
  cbn [fst snd]. rewrite !setUserStates_alter_alter.
  rewrite generatePost_setUserStates.
  destruct (generatePost env complete summary (Some name) w2) as [[post|e] w3];
    [|reflexivity].
  cbn [fst snd]. rewrite !setUserStates_alter_alter. reflexivity.
Qed.

(** A selection with a valid index enters [draftSelection]. *)
Lemma repoCommand_valid userId content w st :
  userStates w !! userId = Some st -> commits st <> [] ->
  selectedIndicesOf (trim (substringFrom 6 content)) (commits st) <> [] ->
  repoCommand env complete toUpperCase toLowerCase userId content w
  = tryCatch
      (draftSelection env complete toUpperCase toLowerCase userId
         (commitsAt (commits st)
            (selectedIndicesOf (trim (substringFrom 6 content)) (commits st))))
      (fun e => reply (js "Error: " ++ e)) w.
Proof.
  intros Hst Hc Hsel. unfold repoCommand, tryCatch, bind, gets at 1.
  rewrite Hst, !len_eqb_0.
  destruct (commits st); [congruence|].
  destruct (selectedIndicesOf _ _); [congruence|]. reflexivity.
Qed.

(** A selection without a valid index is answered and changes nothing. *)
Lemma repoCommand_rejected userId content w :
  (forall st, userStates w !! userId = Some st ->
     selectedIndicesOf (trim (substringFrom 6 content)) (commits st) = []) ->
  repoCommand env complete toUpperCase toLowerCase userId content w
  = (Ok tt,
     emit (Reply (match userStates w !! userId with
                  | Some st => if len (commits st) =? 0 then runFirstText
                               else invalidNumbersText
                  | None => runFirstText
                  end)) w).
Proof.
  intros Hsel. unfold repoCommand, tryCatch, bind, gets.
  destruct (userStates w !! userId) as [st|]; [|reflexivity].
  destruct (len (commits st) =? 0); [reflexivity|].
  rewrite (Hsel st eq_refl). reflexivity.
Qed.

End CommandProperties.

Lemma alter_present {V} (f : V -> V) (m : gmap jsstring V) key x :
  m !! key = Some x -> alter f key m = <[key := f x]> m.
Proof.
  intros Hx. apply map_eq. intros k. destruct (decide (key = k)) as [->|Hne].
  - rewrite lookup_alter_eq, lookup_insert_eq, Hx. reflexivity.
  - rewrite lookup_alter_ne, lookup_insert_ne by done. reflexivity.
Qed.

Lemma setLastCheckedCommits_id f w :
  f (lastCheckedCommits w) = lastCheckedCommits w -> setLastCheckedCommits f w = w.
Proof. destruct w. unfold setLastCheckedCommits. simpl. by intros ->. Qed.

Section PollerProperties.

Variable env : Env.
Variable complete : nat -> Prompt -> jsstring + option jsstring.
Variable tweet : nat -> jsstring -> option XFailure.
Variable github : nat -> list jsstring -> Z -> Result (list CommitInfo).
Variable toUpperCase : jsstring -> jsstring.
Variable toLowerCase : jsstring -> jsstring.

(** The three ways [processNewCommit] ends; it never throws. *)
Lemma processNewCommit_spec commit w :
  let name := projectNameOf env toUpperCase toLowerCase (Some (repo commit)) in
  processNewCommit env complete toUpperCase toLowerCase commit w =
  match generateSummary env complete (autoAnalysis commit) w with
  | (Throw e, w2) => (Ok tt, emit (Send (js "Error generating post: " ++ e)) w2)
  | (Ok summary, w2) =>
      match generatePost env complete summary (Some name) w2 with
      | (Throw e, w3) => (Ok tt, emit (Send (js "Error generating post: " ++ e)) w3)
      | (Ok post, w3) =>
          (Ok tt,
           emit (Send (autoDraftMessage commit post))
             (setUserStates
                (insert (autoStateKey env) (autoDraft commit summary name post)) w3))
      end
  end.
Proof.
  intros name. unfold processNewCommit, tryCatch, bind, modify, send. fold name.
  destruct (generateSummary env complete _ w) as [[summary|e] w2]; [|reflexivity].
  destruct (generatePost env complete summary (Some name) w2) as [[post|e] w3];
    reflexivity.
Qed.

Lemma processNewCommit_ok commit w :
  fst (processNewCommit env complete toUpperCase toLowerCase commit w) = Ok tt.
Proof.
  rewrite processNewCommit_spec.
  destruct (generateSummary env complete _ w) as [[summary|e] w2]; [|reflexivity].
  destruct (generatePost env complete summary _ w2) as [[post|e] w3]; reflexivity.
Qed.

(** What one attempt to draft leaves behind: the watermarks as they were,
    exactly one message, at most three provider requests. *)
Lemma processNewCommit_effects commit w :
  let w' := snd (processNewCommit env complete toUpperCase toLowerCase commit w) in
  lastCheckedCommits w' = lastCheckedCommits w
  /\ (exists text, outbox w' = Send text :: outbox w)
  /\ (geminiCalls w' <= geminiCalls w + 3)%nat.
Proof.
  rewrite processNewCommit_spec.
  destruct (generateSummary env complete _ w) as [[summary|e] w2] eqn:Hs;
    apply generateSummary_frame in Hs as [(_ & Hl & Ho & _) Hb].
  - destruct (generatePost env complete summary _ w2) as [[post|e] w3] eqn:Hp;
      apply generatePost_frame in Hp as [(_ & Hl' & Ho' & _) Hb'];
      simpl; (split; [congruence|]); (split; [|lia]);
      eexists; rewrite Ho', Ho; reflexivity.
  - simpl. split; [congruence|]. split; [|lia].
    eexists. rewrite Ho. reflexivity.
Qed.

(** The three cases of the loop body of [checkForNewCommits]. *)
Lemma observeCommit_seed commit w :
  truthyOpt (lastCheckedCommits w !! repo commit) = false ->
  observeCommit env complete toUpperCase toLowerCase commit w
  = (Ok tt, setLastCheckedCommits (insert (repo commit) (sha commit)) w).
Proof.
  intros H. unfold observeCommit, bind, gets, modify, ret. rewrite H. reflexivity.
Qed.

Lemma observeCommit_same commit w :
  lastCheckedCommits w !! repo commit = Some (sha commit) ->
  observeCommit env complete toUpperCase toLowerCase commit w = (Ok tt, w).
Proof.
  intros H. unfold observeCommit, bind, gets, modify, ret. rewrite H.
  rewrite bool_decide_eq_true_2 by reflexivity.
  destruct (truthyOpt (Some (sha commit))); simpl; [reflexivity|].
  rewrite setLastCheckedCommits_id; [reflexivity | by apply insert_id].
Qed.

Lemma observeCommit_new commit w old :
  lastCheckedCommits w !! repo commit = Some old -> old <> [] -> old <> sha commit ->
  observeCommit env complete toUpperCase toLowerCase commit w
  = processNewCommit env complete toUpperCase toLowerCase commit
      (setLastCheckedCommits (insert (repo commit) (sha commit)) w).
Proof.
  intros H Hne Hdiff. unfold observeCommit, bind, gets, modify, ret. rewrite H.
  rewrite bool_decide_eq_false_2 by congruence.
  destruct old as [|a old]; [congruence|]. simpl.
  destruct (processNewCommit _ _ _ _ _ _) as [[[]|e] w']; reflexivity.
Qed.

Lemma observeCommit_ok commit w :
  fst (observeCommit env complete toUpperCase toLowerCase commit w) = Ok tt.
Proof.
  unfold observeCommit, bind, gets, modify, ret.
  destruct (negb _ || negb _); [|reflexivity].
  destruct (truthyOpt _); [|reflexivity].
  pose proof (processNewCommit_ok commit
                (setLastCheckedCommits (insert (repo commit) (sha commit)) w)) as H.
  destruct (processNewCommit _ _ _ _ _ _) as [r w']. simpl in *. by subst r.
Qed.

(** A tick whose fetch answers observes the first commit of the answer. *)
Lemma checkForNewCommits_observes w commit cs :
  truthyOpt (GITHUB_REPOS env) = true ->
  github (githubCalls w) (configuredRepos (default [] (GITHUB_REPOS env))) 1
  = Ok (commit :: cs) ->
  checkForNewCommits env complete github toUpperCase toLowerCase w
  = (Ok tt,
     snd (observeCommit env complete toUpperCase toLowerCase commit (countGithubCall w))).
Proof.
  intros Hrepos Hfetch.
  unfold checkForNewCommits, tryCatch, bind, getRecentCommitsFromRepos.
  rewrite Hrepos, Hfetch. simpl. unfold bind, ret.
  pose proof (observeCommit_ok commit (countGithubCall w)) as Hok.
  destruct (observeCommit _ _ _ _ _ _) as [r w']. simpl in Hok. subst r.
  reflexivity.
Qed.

End PollerProperties.

(** ** The interleaved listeners *)

Lemma safe_bind {A B} (p : Async.Prog A) (f : A -> Async.Prog B) :
  Async.safe p -> (forall a, Async.safe (f a)) -> Async.safe (Async.bind p f).
Proof.
  intros Hp Hf. induction p as [a|e|X g k IH|R q k IH]; cbn in *.
  - apply Hf.
  - exact I.
  - destruct Hp as [Hg Hk]. split; [exact Hg|]. intros x. by apply IH.
  - intros r. by apply IH.
Qed.

Lemma safe_tryCatch {A} (p : Async.Prog A) (h : jsstring -> Async.Prog A) :
  Async.safe p -> (forall e, Async.safe (h e)) -> Async.safe (Async.tryCatch p h).
Proof.
  intros Hp Hh. induction p as [a|e|X g k IH|R q k IH]; cbn in *.
  - exact I.
  - apply Hh.
  - destruct Hp as [Hg Hk]. split; [exact Hg|]. intros x. by apply IH.
  - intros r. by apply IH.
Qed.

Lemma safe_await {R} (q : Async.Request R) : Async.safe (Async.await q).
Proof. intros [x|e]; exact I. Qed.

Lemma safe_gets {X} (f : Async.Store -> X) : Async.safe (Async.gets f).
Proof. split; [by intros s Hs | by intros x]. Qed.

Lemma safe_modify (f : Async.Store -> Async.Store) :
  (forall s, Async.objectsOk s -> Async.objectsOk (f s)) -> Async.safe (Async.modify f).
Proof. intros Hf. split; [exact Hf | by intros x]. Qed.

Lemma safe_forEach {X} (f : X -> Async.Prog unit) l :
  (forall x, Async.safe (f x)) -> Async.safe (Async.forEach f l).
Proof.
  intros Hf. induction l as [|x l IH]; [exact I|].
  cbn [Async.forEach]. apply safe_bind; [apply Hf | by intros _].
Qed.

Lemma objectsOk_assign address f s :
  (forall st, pendingHasPost st -> pendingHasPost (f st)) ->
  Async.objectsOk s -> Async.objectsOk (Async.assign address f s).
Proof.
  unfold Async.objectsOk. intros Hf Hs. cbn [Async.assign Async.objects].
  apply Forall_alter; [exact Hs|]. intros st _. apply Hf.
Qed.

Lemma objectsOk_setSession key state s :
  pendingHasPost state -> Async.objectsOk s -> Async.objectsOk (Async.setSession key state s).
Proof.
  unfold Async.objectsOk. intros Hstate Hs. cbn [Async.setSession Async.objects].
  apply Forall_app. split; [exact Hs | by repeat constructor].
Qed.

Ltac safe_store :=
  intros ? ?;
  lazymatch goal with
  | |- Async.objectsOk (Async.setSession _ _ _) =>
      apply objectsOk_setSession;
      [ solve [ intros [=] | intros _ [=] ] | assumption ]
  | |- Async.objectsOk (Async.assign _ (withSelection _) _) =>
      apply objectsOk_assign; [intros ? _; apply pendingHasPost_withSelection | assumption]
  | |- Async.objectsOk (Async.assign _ (withPost _) _) =>
      apply objectsOk_assign; [intros ? _; apply pendingHasPost_withPost | assumption]
  | |- Async.objectsOk (Async.assign _ (withSummary _) _) =>
      apply objectsOk_assign; [intros ?; apply pendingHasPost_withSummary | assumption]
  | |- Async.objectsOk (Async.assign _ (withProjectName _) _) =>
      apply objectsOk_assign; [intros ?; apply pendingHasPost_withProjectName | assumption]
  | |- Async.objectsOk (Async.deleteSession _ _) => assumption
  | |- Async.objectsOk (Async.setLastChecked _ _ _) => assumption
  end.

Ltac safe_step :=
  lazymatch goal with
  | |- forall _, _ => intros
  | |- Async.safe (Async.Return _) => exact I
  | |- Async.safe (Async.Raise _) => exact I
  | |- Async.safe (Async.await _) => apply safe_await
  | |- Async.safe (Async.reply _) => apply safe_await
  | |- Async.safe (Async.gets _) => apply safe_gets
  | |- Async.safe (Async.modify _) => apply safe_modify; safe_store
  | |- Async.safe (Async.tryCatch _ _) => apply safe_tryCatch
  | |- Async.safe (Async.bind _ _) => apply safe_bind
  | |- Async.safe (Async.forEach _ _) => apply safe_forEach
  | |- Async.safe (if ?b then _ else _) => destruct b
  | |- Async.safe (match ?o with Some _ => _ | None => _ end) => destruct o
  | |- Async.safe (match ?x with (_, _) => _ end) => destruct x
  end.

Ltac safe_walk := repeat safe_step.

Section InterleavedProperties.

Variable env : Env.
Variables toUpperCase toLowerCase : jsstring -> jsstring.

Lemma safe_processNewCommit commit :
  Async.safe (Async.processNewCommit env toUpperCase toLowerCase commit).
Proof. unfold Async.processNewCommit. safe_walk. Qed.

Lemma safe_checkForNewCommits :
  Async.safe (Async.checkForNewCommits env toUpperCase toLowerCase).
Proof.
  unfold Async.checkForNewCommits, Async.observeCommit, Async.processNewCommit.
  safe_walk.
Qed.

Lemma safe_initCommits : Async.safe (Async.initCommits env).
Proof. unfold Async.initCommits. safe_walk. Qed.

Lemma safe_regeneratePost address state :
  Async.safe (Async.regeneratePost address state).
Proof. unfold Async.regeneratePost. safe_walk. Qed.

Lemma safe_messageCreate authorBot channelId userId content :
  Async.safe (Async.messageCreate env toUpperCase toLowerCase
                authorBot channelId userId content).
Proof.
  unfold Async.messageCreate, Async.runCommand, Async.repoCommand, Async.draftSelection,
    Async.redoCommand, Async.noCommand, Async.postCommand, Async.regeneratePost.
  safe_walk.
Qed.

Lemma safe_handle ev : Async.safe (Async.handle env toUpperCase toLowerCase ev).
Proof.
  destruct ev; [apply safe_initCommits | apply safe_checkForNewCommits
               | apply safe_messageCreate].
Qed.

End InterleavedProperties.

Lemma runSync_safe p s :
  Async.safe p -> Async.objectsOk s ->
  Async.objectsOk (snd (Async.runSync p s))
  /\ match fst (Async.runSync p s) with
     | Async.Suspended t => forall r, Async.safe (Async.resume t r)
     | _ => True
     end.
Proof.
  revert s. induction p as [a|e|X g k IH|R q k IH]; intros s Hp Hs; cbn in *.
  - by split.
  - by split.
  - destruct Hp as [Hg Hk]. specialize (Hg s Hs).
    destruct (g s) as [x s']. by apply IH.
  - by split.
Qed.

Lemma launch_configOk p c :
  Async.safe p -> Async.configOk c -> Async.configOk (Async.launch p c).
Proof.
  intros Hp [Hs Hpending]. unfold Async.launch.
  destruct (runSync_safe p (Async.store c) Hp Hs) as [Hs' Ht].
  destruct (Async.runSync p (Async.store c)) as [[|e|t] s']; cbn [fst snd] in *;
    split; cbn; try assumption.
  apply Forall_app. split; [exact Hpending | by repeat constructor].
Qed.

Lemma withoutTask_configOk i c :
  Async.configOk c -> Async.configOk (Async.withoutTask i c).
Proof. intros [Hs Hpending]. split; [exact Hs | by apply Forall_delete]. Qed.

Lemma reachable_configOk env toUpperCase toLowerCase allowed c :
  Async.reachable env toUpperCase toLowerCase allowed c -> Async.configOk c.
Proof.
  induction 1 as [|ev c _ IH|i t r c _ IH Ht _].
  - split; [constructor | constructor].
  - apply launch_configOk; [apply safe_handle | exact IH].
  - apply launch_configOk; [|by apply withoutTask_configOk].
    destruct IH as [_ Hpending].
    by apply (proj1 (Forall_lookup _ _) Hpending i t Ht).
Qed.

Lemma turn_reachable env toUpperCase toLowerCase c t :
  Async.reachable env toUpperCase toLowerCase Async.anyAnswer c ->
  Async.reachable env toUpperCase toLowerCase Async.anyAnswer
    (Async.turn env toUpperCase toLowerCase c t).
Proof.
  intros Hc. destruct t as [ev|i a]; cbn [Async.turn].
  - by constructor.
  - destruct (Async.pending c !! i) as [task|] eqn:Htask; [|exact Hc].
    destruct (Async.decode (Async.request task) a) as [r|]; [|exact Hc].
    by apply (Async.reachable_settle _ _ _ _ i task r c).
Qed.

Lemma runSchedule_reachable env toUpperCase toLowerCase turns :
  Async.reachable env toUpperCase toLowerCase Async.anyAnswer
    (Async.runSchedule env toUpperCase toLowerCase turns).
Proof.
  unfold Async.runSchedule.
  assert (forall c, Async.reachable env toUpperCase toLowerCase Async.anyAnswer c ->
            Async.reachable env toUpperCase toLowerCase Async.anyAnswer
              (fold_left (Async.turn env toUpperCase toLowerCase) turns c)) as H.
  { induction turns as [|t turns IH]; intros c Hc; [exact Hc|].
    cbn [fold_left]. apply IH. by apply turn_reachable. }
  apply H. constructor.
Qed.

(** * The claims *)

(** C1: whatever the provider answers, the text [generatePost] returns is the
    prefix followed by a content, and prefix and content together are
    within the character limit, provided the prefix alone is; without a
    project name the prefix is empty. *)
Theorem generatePost_within_limit env complete summary projectName w limit post w' :
  characterLimit env = Some limit ->
  len (postPrefix projectName) <= limit ->
  generatePost env complete summary projectName w = (Ok post, w') ->
  len post <= limit
  /\ exists content,
       post = postPrefix projectName ++ content
       /\ len (postPrefix projectName) + len content <= limit.
Proof.
  intros Hlimit Hprefix Hpost.
  destruct (generatePost_content _ _ _ _ _ _ _ Hpost) as (content & -> & Hcontent).
  rewrite Hlimit in Hcontent. cbn [numSub] in Hcontent.
  assert (len content <= limit - len (postPrefix projectName)) as Hle.
  { destruct Hcontent as [Hfits | (p & ->)].
    - cbn [numGt] in Hfits. apply Z.ltb_ge in Hfits. exact Hfits.
    - apply truncatePost_le. lia. }
  split; [rewrite len_app; lia|].
  exists content. split; [reflexivity | lia].
Qed.

Lemma generatePost_within_limit_witness :
  len (js "Grixo Updates" ++ nl ++ nl ++ js "Hello world foo. Hi.") <= 40
  /\ exists content,
       js "Grixo Updates" ++ nl ++ nl ++ js "Hello world foo. Hi."
       = postPrefix (Some (js "Grixo")) ++ content
       /\ len (postPrefix (Some (js "Grixo"))) + len content <= 40.
Proof.
  apply (generatePost_within_limit (exampleEnv (Some (js "40")))
           (constantProvider (js "Hello world foo. Hi. And a good deal more than fits."))
           (js "summary") (Some (js "Grixo")) initialWorld 40 _
           (countGeminiCall (countGeminiCall initialWorld))).
  - reflexivity.
  - vm_compute. discriminate.
  - vm_compute. reflexivity.
Defined.

(** C5 (amended): on a post longer than a non-negative budget the fallback
    never exceeds the budget; its result ends at a sentence boundary
    whenever the first sentence of the text fits within the budget, the
    loop stopping at the first sentence that does not fit; otherwise it
    ends at a word boundary. *)
Theorem truncatePost_boundaries (raw : jsstring) (budget : Z) :
  0 <= budget -> budget < len (trim raw) ->
  len (truncatePost (trim raw) (Some budget)) <= budget
  /\ (forall s rest, sentences (trim raw) = s :: rest -> len s <= budget ->
        endsAtSentenceBoundary (trim raw) (truncatePost (trim raw) (Some budget)))
  /\ (sentences (trim raw) = []
      \/ (exists s rest, sentences (trim raw) = s :: rest /\ budget < len s) ->
      endsAtWordBoundary (trim raw) (truncatePost (trim raw) (Some budget))).
Proof.
  intros Hbudget Hlong. split; [by apply truncatePost_le|]. split.
  - intros s rest Hs Hfit.
    destruct (first_sentence_fits budget _ s rest Hs Hfit) as (k & Hk & Heq & Htruthy).
    unfold endsAtSentenceBoundary, truncatePost. rewrite Htruthy. split.
    + by apply sentences_path_ends.
    + exists k. split; [exact Hk | by rewrite Heq].
  - intros Hnone. unfold truncatePost.
    rewrite (no_sentence_fits budget _ Hnone). cbn [truthy].
    by apply words_path_boundary.
Qed.

Lemma truncatePost_boundaries_witness :
  len (truncatePost (trim (js " Hello world foo. Hi. ")) (Some 17)) <= 17
  /\ (forall s rest, sentences (trim (js " Hello world foo. Hi. ")) = s :: rest ->
        len s <= 17 ->
        endsAtSentenceBoundary (trim (js " Hello world foo. Hi. "))
          (truncatePost (trim (js " Hello world foo. Hi. ")) (Some 17)))
  /\ (sentences (trim (js " Hello world foo. Hi. ")) = []
      \/ (exists s rest, sentences (trim (js " Hello world foo. Hi. ")) = s :: rest
                         /\ 17 < len s) ->
      endsAtWordBoundary (trim (js " Hello world foo. Hi. "))
        (truncatePost (trim (js " Hello world foo. Hi. ")) (Some 17))).
Proof.
  apply (truncatePost_boundaries (js " Hello world foo. Hi. ") 17).
  - lia.
  - vm_compute. reflexivity.
Defined.

(** The claim as stated fails: a later sentence fits, the first one does
    not, and the result ends in the middle of the first sentence; and under
    a negative budget the empty result is longer than the budget. *)
Lemma truncatePost_later_sentence_counterexample :
  (trim (js "Hello world foo. Hi.") = js "Hello world foo. Hi."
   /\ 12 < len (js "Hello world foo. Hi.")
   /\ (exists s, s ∈ sentences (js "Hello world foo. Hi.") /\ len s <= 12)
   /\ truncatePost (js "Hello world foo. Hi.") (Some 12) = js "Hello world"
   /\ ~ endsSentence (truncatePost (js "Hello world foo. Hi.") (Some 12)))
  /\ (-1 < len (js "Hello")
      /\ ~ len (truncatePost (js "Hello") (Some (-1))) <= -1).
Proof.
  split; [|split; [reflexivity | vm_compute; intros H; by apply H]].
  split; [reflexivity|]. split; [reflexivity|]. split.
  - exists (js " Hi."). split; [|vm_compute; discriminate].
    vm_compute. repeat constructor.
  - split; [reflexivity|]. intros (c & Hl & Hc).
    vm_compute in Hl. injection Hl as <-. discriminate Hc.
Qed.




Lemma reachable_run env complete tweet github toUpperCase toLowerCase evs w :
  reachable env complete tweet github toUpperCase toLowerCase w ->
  reachable env complete tweet github toUpperCase toLowerCase
    (run env complete tweet github toUpperCase toLowerCase evs w).
Proof.
  revert w. induction evs as [|ev evs IH]; intros w Hw; [exact Hw|].
  simpl. apply IH. by constructor.
Qed.

(** C7: at every turn of the event loop, however the listeners interleave
    and whatever the awaited calls answer, a session object with
    [pendingPost == true] has a generated post.  This holds of every
    object, whether [userStates] still names it or not, and so of every
    session [userStates] names. *)
Theorem pending_implies_post env toUpperCase toLowerCase c :
  Async.reachable env toUpperCase toLowerCase Async.anyAnswer c ->
  (forall address state,
     Async.objects (Async.store c) !! address = Some state ->
     pendingPost state = Some true -> generatedPost state <> None)
  /\ (forall key address state,
        Async.getSession key (Async.store c) = Some (address, state) ->
        pendingPost state = Some true -> generatedPost state <> None).
Proof.
  intros Hc. destruct (reachable_configOk _ _ _ _ _ Hc) as [Hobjects _].
  assert (forall address state,
            Async.objects (Async.store c) !! address = Some state ->
            pendingPost state = Some true -> generatedPost state <> None) as H.
  { intros address state Hstate.
    exact (proj1 (Forall_lookup _ _) Hobjects address state Hstate). }
  split; [exact H|]. intros key address state Hget. apply (H address).
  unfold Async.getSession in Hget.
  destruct (Async.userStates (Async.store c) !! key) as [a|]; [|discriminate].
  cbn in Hget. destruct (Async.objects (Async.store c) !! a) eqn:Ha; [|discriminate].
  cbn in Hget. by injection Hget as <- <-.
Qed.

Lemma pending_implies_post_witness :
  generatedPost
    {| commits := [exampleCommitA; exampleCommitB]; selectedCommits := [exampleCommitB];
       generatedSummary := Some (js "Second summary.");
       generatedPost := Some (js "Grixo Updates" ++ nl ++ nl ++ js "First post.");
       projectName := Some (js "Grixo"); pendingPost := Some true |}
  <> None.
Proof.
  apply (proj2 (pending_implies_post (exampleEnv None) asciiUpperCase asciiLowerCase
                  (Async.runSchedule (exampleEnv None) asciiUpperCase asciiLowerCase
                     Async.overlappingSelections)
                  (runSchedule_reachable _ _ _ _))
           (js "1001") 0%nat).
  - vm_compute. reflexivity.
  - reflexivity.
Defined.

Lemma trim_id s c d :
  head s = Some c -> isWhiteSpace c = false ->
  last s = Some d -> isWhiteSpace d = false -> trim s = s.
Proof.
  intros Hh Hc Hl Hd. destruct s as [|a s]; [discriminate|].
  injection Hh as ->. unfold trim. rewrite (trimStart_id _ _ Hc).
  by apply (trimEnd_id _ d).
Qed.

Lemma startsWith_app s p : startsWith s p = true -> exists r, s = p ++ r.
Proof.
  revert s. induction p as [|a p IH]; intros s H; [by exists s|].
  destruct s as [|b s]; [discriminate|]. simpl in H.
  apply andb_true_iff in H as [Hab H]. apply N.eqb_eq in Hab. subst b.
  destruct (IH s H) as (r & ->). by exists r.
Qed.

(** Trimming twice is trimming once. *)
Lemma trim_trim s : trim (trim s) = trim s.
Proof.
  destruct (trim s) as [|c t] eqn:Htrim; [reflexivity|].
  destruct (last (c :: t)) as [d|] eqn:Hlast.
  - rewrite <- Htrim in Hlast. rewrite <- Htrim at 2.
    assert (isWhiteSpace d = false) by (by eapply trim_last_not_whitespace).
    rewrite Htrim in *. eapply trim_id; eauto. simpl. f_equal.
    by eapply trim_head.
  - by apply last_None in Hlast.
Qed.

Lemma selectedIndicesOf_one args c cs :
  Forall (fun u => u <> 44%N) args -> parseInt (trim args) 0 = Some 1 ->
  selectedIndicesOf args (c :: cs) = [Some 0].
Proof.
  intros Hsep Hparse. unfold selectedIndicesOf. rewrite (split_no_sep 44 args Hsep).
  cbn [map List.filter]. rewrite Hparse. cbn [numSub isNaN negb numGe numLe numLt numGt andb].
  change (1 - 1) with 0. change (0 <=? 0) with true. cbn [andb].
  destruct (0 <? len (c :: cs)) eqn:Hlen; [reflexivity|].
  apply Z.ltb_ge in Hlen. unfold len in Hlen. cbn [List.length] in Hlen. lia.
Qed.

Section SelectionProperties.

Variable env : Env.
Variable complete : nat -> Prompt -> jsstring + option jsstring.
Variable tweet : nat -> jsstring -> option XFailure.
Variable github : nat -> list jsstring -> Z -> Result (list CommitInfo).
Variable toUpperCase : jsstring -> jsstring.
Variable toLowerCase : jsstring -> jsstring.

(** A trimmed message that starts with [!repo ] reaches the [!repo]
    handler. *)
Lemma messageCreate_repo userId content w :
  trim content = content -> startsWith content (js "!repo ") = true ->
  messageCreate env complete tweet github toUpperCase toLowerCase
    false (DISCORD_CHANNEL_ID env) userId content w
  = repoCommand env complete toUpperCase toLowerCase userId content w.
Proof.
  intros Htrim Hstarts. unfold messageCreate.
  rewrite bool_decide_eq_true_2 by reflexivity. cbn [negb orb].
  rewrite Htrim, Hstarts.
  destruct (startsWith_app _ _ Hstarts) as (r & ->).
  rewrite !bool_decide_eq_false_2 by (vm_compute; discriminate). reflexivity.
Qed.

(** A message that is [!repo] alone does not reach it: no handler runs. *)
Lemma messageCreate_bare_repo userId w :
  messageCreate env complete tweet github toUpperCase toLowerCase
    false (DISCORD_CHANNEL_ID env) userId (js "!repo ") w = (Ok tt, w).
Proof.
  unfold messageCreate.
  rewrite bool_decide_eq_true_2 by reflexivity. reflexivity.
Qed.

Lemma repoCommand_invalid_tokens userId content w st :
  userStates w !! userId = Some st -> commits st <> [] ->
  Forall (invalidToken (len (commits st)))
    (split 44 (trim (substringFrom 6 content))) ->
  repoCommand env complete toUpperCase toLowerCase userId content w
  = (Ok tt, emit (Reply invalidNumbersText) w).
Proof.
  intros Hst Hne Hall. rewrite repoCommand_rejected.
  - rewrite Hst, len_eqb_0. by destruct (commits st).
  - intros st' Hst'. rewrite Hst in Hst'. injection Hst' as <-.
    by apply selectedIndicesOf_invalid.
Qed.

(** The inputs the claim names are all made of invalid tokens. *)
Lemma named_inputs_invalid (n : Z) args :
  0 <= n ->
  args ∈ [[]; js ","; js "abc"; js "0"; toDecimal (n + 1)] ->
  Forall (invalidToken n) (split 44 (trim args)) /\ (args <> [] -> trim args = args).
Proof.
  intros Hn Hargs.
  repeat (apply elem_of_cons in Hargs as [-> | Hargs]);
    [ .. | by apply elem_of_nil in Hargs ].
  - split; [by repeat constructor | done].
  - split; [by repeat constructor | done].
  - split; [by repeat constructor | done].
  - split; [by repeat constructor | done].
  - rewrite trim_toDecimal, split_toDecimal by lia. split; [|done].
    repeat constructor. unfold invalidToken.
    rewrite trim_toDecimal, parseInt_toDecimal by lia. lia.
Qed.

(** The listener trims the message before it looks at it. *)
Lemma messageCreate_repo_trimmed userId content w :
  startsWith (trim content) (js "!repo ") = true ->
  messageCreate env complete tweet github toUpperCase toLowerCase
    false (DISCORD_CHANNEL_ID env) userId content w
  = repoCommand env complete toUpperCase toLowerCase userId (trim content) w.
Proof.
  intros Hstarts. rewrite <- (messageCreate_repo userId (trim content) w);
    [|apply trim_trim | exact Hstarts].
  unfold messageCreate. by rewrite trim_trim.
Qed.

(** A message that is [!repo] and white space reaches no handler. *)
Lemma messageCreate_bare userId content w :
  trim content = js "!repo" ->
  messageCreate env complete tweet github toUpperCase toLowerCase
    false (DISCORD_CHANNEL_ID env) userId content w = (Ok tt, w).
Proof.
  intros Htrim. unfold messageCreate.
  rewrite bool_decide_eq_true_2 by reflexivity. rewrite Htrim. reflexivity.
Qed.

(** The [!repo] handler looks at its arguments through the indices they
    select. *)
Lemma repoCommand_selection userId content content' w st :
  userStates w !! userId = Some st ->
  selectedIndicesOf (trim (substringFrom 6 content)) (commits st)
  = selectedIndicesOf (trim (substringFrom 6 content')) (commits st) ->
  repoCommand env complete toUpperCase toLowerCase userId content w
  = repoCommand env complete toUpperCase toLowerCase userId content' w.
Proof.
  intros Hst Hsel. unfold repoCommand, tryCatch, bind, gets. rewrite Hst.
  destruct (len (commits st) =? 0); [reflexivity|]. cbv zeta. by rewrite Hsel.
Qed.

End SelectionProperties.

Lemma trim_repo_args args :
  args <> [] -> trim args = args -> trim (js "!repo " ++ args) = js "!repo " ++ args.
Proof.
  intros Hne Htrim.
  destruct (last args) as [d|] eqn:Hl; [|by apply last_None in Hl].
  apply (trim_id _ 33%N d).
  - reflexivity.
  - reflexivity.
  - rewrite last_app, Hl. reflexivity.
  - apply (trim_last_not_whitespace args). by rewrite Htrim.
Qed.

(** C6: against a session with N listed commits, a [!repo] message with
    arguments none of whose comma-separated entries [parseInt] reads as an
    integer between 1 and N is answered with the error reply and changes
    nothing: the world afterwards is the world before plus that reply.
    This covers a non-numeric entry, the index 0 and the index N+1.  The
    empty selection is not answered at all: a message that is [!repo]
    alone reaches no handler and the world stays as it is.  An entry that
    only starts with a number, as [1abc] or [1.9], is read as that number:
    the message does what [!repo 1] does, which drafts from the first
    listed commit. *)
Theorem select_invalid_rejected env complete tweet github toUpperCase toLowerCase
    userId w st :
  userStates w !! userId = Some st -> commits st <> [] ->
  (forall content,
     startsWith (trim content) (js "!repo ") = true ->
     Forall (invalidToken (len (commits st)))
       (split 44 (trim (substringFrom 6 (trim content)))) ->
     messageCreate env complete tweet github toUpperCase toLowerCase
       false (DISCORD_CHANNEL_ID env) userId content w
     = (Ok tt, emit (Reply invalidNumbersText) w))
  /\ (forall args,
        args ∈ [js ","; js "abc"; js "0"; toDecimal (len (commits st) + 1)] ->
        messageCreate env complete tweet github toUpperCase toLowerCase
          false (DISCORD_CHANNEL_ID env) userId (js "!repo " ++ args) w
        = (Ok tt, emit (Reply invalidNumbersText) w))
  /\ (forall content,
        trim content = js "!repo" ->
        messageCreate env complete tweet github toUpperCase toLowerCase
          false (DISCORD_CHANNEL_ID env) userId content w
        = (Ok tt, w))
  /\ (forall args,
        args ∈ [js "1abc"; js "1.9"; js "1"] ->
        messageCreate env complete tweet github toUpperCase toLowerCase
          false (DISCORD_CHANNEL_ID env) userId (js "!repo " ++ args) w
        = tryCatch
            (draftSelection env complete toUpperCase toLowerCase userId
               (take 1 (commits st)))
            (fun e => reply (js "Error: " ++ e)) w).
Proof.
  intros Hst Hne. split; [|split; [|split]].
  - intros content Hstarts Hall. rewrite messageCreate_repo_trimmed by exact Hstarts.
    by apply (repoCommand_invalid_tokens _ _ _ _ _ _ _ st).
  - intros args Hargs.
    assert (args ∈ [[]; js ","; js "abc"; js "0"; toDecimal (len (commits st) + 1)])
      as Hargs' by (by right).
    destruct (named_inputs_invalid (len (commits st)) args (len_nonneg _) Hargs')
      as [Hall Htrim].
    assert (args <> []) as Hargs_ne.
    { intros ->. repeat (apply elem_of_cons in Hargs as [Hargs | Hargs]);
        try discriminate; [|by apply elem_of_nil in Hargs].
      pose proof (len_nonneg (commits st)).
      destruct (toDecimal_digits (len (commits st) + 1)) as (_ & Hd & _); [lia|].
      by apply Hd. }
    rewrite messageCreate_repo; [| |reflexivity].
    + by apply (repoCommand_invalid_tokens _ _ _ _ _ _ _ st).
    + apply trim_repo_args; [exact Hargs_ne | by apply Htrim].
  - intros content Htrim. by apply messageCreate_bare.
  - intros args Hargs.
    destruct (commits st) as [|c cs] eqn:Hcommits; [done|].
    assert (selectedIndicesOf (trim (substringFrom 6 (js "!repo " ++ args))) (commits st)
            = [Some 0]) as Hsel.
    { rewrite Hcommits.
      repeat (apply elem_of_cons in Hargs as [-> | Hargs]);
        [ .. | by apply elem_of_nil in Hargs ];
        (apply selectedIndicesOf_one; [by repeat constructor | reflexivity]). }
    rewrite messageCreate_repo; [|
      repeat (apply elem_of_cons in Hargs as [-> | Hargs]);
        [ .. | by apply elem_of_nil in Hargs ]; reflexivity | reflexivity].
    rewrite (repoCommand_valid _ _ _ _ _ _ _ st Hst); [|by rewrite Hcommits|by rewrite Hsel].
    rewrite Hsel, Hcommits. reflexivity.
Qed.

Lemma select_invalid_rejected_witness :
  messageCreate (exampleEnv None) (scriptedProvider []) alwaysPosted listsBoth
    asciiUpperCase asciiLowerCase false (js "77") (js "1001") (js "!repo 3")
    (exampleRun [] listsBoth [userMessage "!run"])
  = (Ok tt, emit (Reply invalidNumbersText) (exampleRun [] listsBoth [userMessage "!run"])).
Proof.
  refine (proj1 (proj2 (select_invalid_rejected (exampleEnv None) (scriptedProvider [])
                          alwaysPosted listsBoth asciiUpperCase asciiLowerCase (js "1001")
                          (exampleRun [] listsBoth [userMessage "!run"])
                          {| commits := [exampleCommitA; exampleCommitB];
                             selectedCommits := []; generatedSummary := None;
                             generatedPost := None; projectName := None;
                             pendingPost := Some false |} _ _))
                   (js "3") _).
  - vm_compute. reflexivity.
  - discriminate.
  - vm_compute. repeat constructor.
Defined.

(** The claim as stated fails: after a [!run] that listed two commits, a
    [!repo] without arguments gets no reply, not an error reply; and
    [!repo 1abc], whose only entry is no number, is not rejected: it
    selects the first commit and stores a draft. *)
Lemma select_bare_and_prefixed_counterexample :
  messageCreate (exampleEnv None)
    (scriptedProvider [js "A polling loop was added."; js "The bot now polls on its own."])
    alwaysPosted listsBoth asciiUpperCase asciiLowerCase false (js "77") (js "1001")
    (js "!repo")
    (exampleRun [js "A polling loop was added."; js "The bot now polls on its own."]
       listsBoth [userMessage "!run"])
  = (Ok tt,
     exampleRun [js "A polling loop was added."; js "The bot now polls on its own."]
       listsBoth [userMessage "!run"])
  /\ exists st,
       userStates
         (exampleRun [js "A polling loop was added."; js "The bot now polls on its own."]
            listsBoth [userMessage "!run"; userMessage "!repo 1abc"])
         !! js "1001" = Some st
       /\ selectedCommits st = [exampleCommitA]
       /\ generatedPost st
          = Some (js "Grixo Updates" ++ nl ++ nl ++ js "The bot now polls on its own.")
       /\ pendingPost st = Some true.
Proof.
  split; [vm_compute; reflexivity|].
  eexists. split; [vm_compute; reflexivity|]. repeat split; reflexivity.
Qed.




(** C2 (amended): a tick that observes a commit of a repository without a
    watermark records the hash and does nothing else: no provider request,
    no session, no message.  A tick that observes a hash different from a
    stored, non-empty watermark updates the watermark and makes one
    attempt to draft: when summary and post arrive, exactly one
    auto-draft session is stored and announced; when the provider fails,
    the error is announced and no session is stored. *)
Theorem poll_tick_seeds_then_drafts env complete github toUpperCase toLowerCase w c cs :
  truthyOpt (GITHUB_REPOS env) = true ->
  github (githubCalls w) (configuredRepos (default [] (GITHUB_REPOS env))) 1
  = Ok (c :: cs) ->
  let name := projectNameOf env toUpperCase toLowerCase (Some (repo c)) in
  let w1 := setLastCheckedCommits (insert (repo c) (sha c)) (countGithubCall w) in
  let w' := snd (checkForNewCommits env complete github toUpperCase toLowerCase w) in
  (lastCheckedCommits w !! repo c = None -> w' = w1)
  /\ (forall old,
        lastCheckedCommits w !! repo c = Some old -> old <> [] -> old <> sha c ->
        lastCheckedCommits w' = <[repo c := sha c]> (lastCheckedCommits w)
        /\ ((exists summary w2 post w3,
               generateSummary env complete (autoAnalysis c) w1 = (Ok summary, w2)
               /\ generatePost env complete summary (Some name) w2 = (Ok post, w3)
               /\ userStates w'
                  = <[autoStateKey env := autoDraft c summary name post]> (userStates w)
               /\ outbox w' = Send (autoDraftMessage c post) :: outbox w)
            \/ (exists e w2,
                  (generateSummary env complete (autoAnalysis c) w1 = (Throw e, w2)
                   \/ exists summary w1',
                        generateSummary env complete (autoAnalysis c) w1
                        = (Ok summary, w1')
                        /\ generatePost env complete summary (Some name) w1'
                           = (Throw e, w2))
                  /\ userStates w' = userStates w
                  /\ outbox w' = Send (js "Error generating post: " ++ e) :: outbox w))).
Proof.
  intros Hrepos Hfetch name w1 w'.
  assert (w' = snd (observeCommit env complete toUpperCase toLowerCase c
                      (countGithubCall w))) as Hw'.
  { unfold w'. by rewrite (checkForNewCommits_observes _ _ _ _ _ _ c cs Hrepos Hfetch). }
  split.
  - intros Habsent. rewrite Hw', observeCommit_seed; [reflexivity|].
    simpl. by rewrite Habsent.
  - intros old Hold Hne Hdiff.
    rewrite (observeCommit_new _ _ _ _ _ _ old) in Hw' by done.
    fold w1 in Hw'. rewrite processNewCommit_spec in Hw'. fold name in Hw'.
    destruct (generateSummary env complete (autoAnalysis c) w1)
      as [[summary|e] w2] eqn:Hs;
      pose proof Hs as Hs';
      apply generateSummary_frame in Hs' as [(Hu2 & Hl2 & Ho2 & _) _].
    + destruct (generatePost env complete summary (Some name) w2)
        as [[post|e] w3] eqn:Hp;
        pose proof Hp as Hp';
        apply generatePost_frame in Hp' as [(Hu3 & Hl3 & Ho3 & _) _];
        simpl in Hw'; rewrite Hw'; simpl; rewrite ?Hu3, ?Hu2, Hl3, Hl2, Ho3, Ho2;
        (split; [reflexivity|]).
      * left. exists summary, w2, post, w3. auto.
      * right. exists e, w3. split; [|auto]. right. eauto.
    + simpl in Hw'. rewrite Hw'. simpl. rewrite ?Hu2, Hl2, Ho2.
      split; [reflexivity|]. right. exists e, w2. auto.
Qed.

Lemma poll_tick_seeds_then_drafts_witness :
  snd (checkForNewCommits (exampleEnv None) (scriptedProvider []) headMoves
         asciiUpperCase asciiLowerCase initialWorld)
  = setLastCheckedCommits (insert (js "octo/grixo") (js "abc1234"))
      (countGithubCall initialWorld).
Proof.
  refine (proj1 (poll_tick_seeds_then_drafts (exampleEnv None) (scriptedProvider [])
                   headMoves asciiUpperCase asciiLowerCase initialWorld
                   exampleCommitA [] _ _) _).
  - reflexivity.
  - reflexivity.
  - reflexivity.
Defined.

(** The claim as stated fails: the second tick finds a stored watermark and
    a different hash, the provider fails, and no auto-draft session is
    created. *)
Lemma poll_tick_failed_draft_counterexample :
  lastCheckedCommits (exampleRun [] headMoves [Tick]) !! js "octo/grixo"
  = Some (js "abc1234")
  /\ headMoves 1 (configuredRepos (js "octo/grixo")) 1
     = Ok [exampleCommitB; exampleCommitA]
  /\ sha exampleCommitB <> js "abc1234"
  /\ lastCheckedCommits (exampleRun [] headMoves [Tick; Tick]) !! js "octo/grixo"
     = Some (sha exampleCommitB)
  /\ userStates (exampleRun [] headMoves [Tick; Tick]) = ∅
  /\ outbox (exampleRun [] headMoves [Tick; Tick])
     = [Send (js "Error generating post: Failed to generate content: 503 unavailable")].
Proof.
  split; [vm_compute; reflexivity|]. split; [reflexivity|].
  split; [vm_compute; discriminate|]. split; [vm_compute; reflexivity|].
  split; vm_compute; reflexivity.
Qed.

Lemma ticks_on_same_commit env complete tweet github toUpperCase toLowerCase c n :
  truthyOpt (GITHUB_REPOS env) = true ->
  forall w,
    lastCheckedCommits w !! repo c = Some (sha c) ->
    (forall k, (k < n)%nat ->
       exists cs, github (githubCalls w + k)%nat
                    (configuredRepos (default [] (GITHUB_REPOS env))) 1 = Ok (c :: cs)) ->
    let wn := run env complete tweet github toUpperCase toLowerCase (repeat Tick n) w in
    userStates wn = userStates w /\ outbox wn = outbox w
    /\ geminiCalls wn = geminiCalls w /\ lastCheckedCommits wn = lastCheckedCommits w.
Proof.
  intros Hrepos. induction n as [|n IH]; intros w Hmark Hfetch; [by simpl|].
  destruct (Hfetch 0%nat ltac:(lia)) as (cs & Hcs). rewrite Nat.add_0_r in Hcs.
  assert (step env complete tweet github toUpperCase toLowerCase Tick w
          = countGithubCall w) as Hstep.
  { unfold step. simpl.
    rewrite (checkForNewCommits_observes _ _ _ _ _ _ c cs Hrepos Hcs).
    by rewrite observeCommit_same. }
  cbn [repeat run fold_left]. rewrite Hstep.
  destruct (IH (countGithubCall w)) as (? & ? & ? & ?); [exact Hmark | | done].
  intros k Hk. destruct (Hfetch (S k) ltac:(lia)) as (cs' & Hcs').
  exists cs'. simpl. by rewrite <- Nat.add_succ_r.
Qed.

(** C9 (amended): when the observed hash differs from the stored watermark,
    the drafting runs in a world whose watermark is already the new hash,
    and leaves it there whether it succeeds or fails.  The observation
    makes one attempt: exactly one message, at most three provider
    requests.  From then on, as long as the source keeps answering that
    commit, no tick makes a provider request, touches a session or sends a
    message. *)
Theorem watermark_advances_before_drafting env complete tweet github
    toUpperCase toLowerCase w c old :
  lastCheckedCommits w !! repo c = Some old -> old <> [] -> old <> sha c ->
  let w1 := setLastCheckedCommits (insert (repo c) (sha c)) w in
  let w' := snd (observeCommit env complete toUpperCase toLowerCase c w) in
  observeCommit env complete toUpperCase toLowerCase c w
  = processNewCommit env complete toUpperCase toLowerCase c w1
  /\ lastCheckedCommits w' !! repo c = Some (sha c)
  /\ (exists text, outbox w' = Send text :: outbox w)
  /\ (geminiCalls w' <= geminiCalls w + 3)%nat
  /\ (forall n wl,
        truthyOpt (GITHUB_REPOS env) = true ->
        lastCheckedCommits wl !! repo c = Some (sha c) ->
        (forall k, (k < n)%nat ->
           exists cs, github (githubCalls wl + k)%nat
                        (configuredRepos (default [] (GITHUB_REPOS env))) 1
                      = Ok (c :: cs)) ->
        let wn := run env complete tweet github toUpperCase toLowerCase
                    (repeat Tick n) wl in
        userStates wn = userStates wl /\ outbox wn = outbox wl
        /\ geminiCalls wn = geminiCalls wl
        /\ lastCheckedCommits wn = lastCheckedCommits wl).
Proof.
  intros Hold Hne Hdiff w1 w'.
  pose proof (observeCommit_new env complete toUpperCase toLowerCase c w old
                Hold Hne Hdiff) as Hobs.
  fold w1 in Hobs. split; [exact Hobs|].
  destruct (processNewCommit_effects env complete toUpperCase toLowerCase c w1)
    as (Hl & Ho & Hg).
  unfold w'. rewrite Hobs. split; [|split; [|split]].
  - rewrite Hl. simpl. apply lookup_insert_eq.
  - exact Ho.
  - exact Hg.
  - intros n wl Hrepos Hmark Hfetch.
    by apply (ticks_on_same_commit _ _ _ _ _ _ c).
Qed.

Lemma watermark_advances_before_drafting_witness :
  lastCheckedCommits
    (snd (observeCommit (exampleEnv None) (scriptedProvider []) asciiUpperCase
            asciiLowerCase exampleCommitB (exampleRun [] headMoves [Tick])))
    !! repo exampleCommitB
  = Some (sha exampleCommitB).
Proof.
  refine (proj1 (proj2 (watermark_advances_before_drafting (exampleEnv None)
                          (scriptedProvider []) alwaysPosted headMoves asciiUpperCase
                          asciiLowerCase (exampleRun [] headMoves [Tick])
                          exampleCommitB (js "abc1234") _ _ _))).
  - vm_compute. reflexivity.
  - discriminate.
  - vm_compute. discriminate.
Defined.

(** The claim as stated fails: the head goes from A to B, back to A and
    to B again; the draft for B fails at the second tick, and the fourth
    tick, observing B again, makes another attempt for it. *)
Lemma watermark_flapping_head_counterexample :
  (lastCheckedCommits (exampleRun [] headFlaps [Tick; Tick]) !! js "octo/grixo"
   = Some (sha exampleCommitB)
   /\ geminiCalls (exampleRun [] headFlaps [Tick; Tick]) = 1%nat
   /\ outbox (exampleRun [] headFlaps [Tick; Tick])
      = [Send (js "Error generating post: Failed to generate content: 503 unavailable")])
  /\ lastCheckedCommits (exampleRun [] headFlaps [Tick; Tick; Tick]) !! js "octo/grixo"
     = Some (sha exampleCommitA)
  /\ headFlaps 3 (configuredRepos (js "octo/grixo")) 1 = Ok [exampleCommitB]
  /\ geminiCalls (exampleRun [] headFlaps [Tick; Tick; Tick]) = 2%nat
  /\ geminiCalls (exampleRun [] headFlaps [Tick; Tick; Tick; Tick]) = 3%nat
  /\ List.length (outbox (exampleRun [] headFlaps [Tick; Tick; Tick; Tick])) = 3%nat.
Proof.
  repeat split; vm_compute; reflexivity.
Qed.

Lemma postToX_ok env tweet text w w1 :
  postToX env tweet text w = (Ok tt, w1) -> w1 = logTweet text w.
Proof.
  unfold postToX. intros H.
  repeat match type of H with
         | (if ?b then _ else _) = _ => destruct b
         | match ?x with _ => _ end = _ => destruct x
         end; try discriminate.
  by injection H as <-.
Qed.



(** C4 (amended): when the provider fails during [!repo], the failure is
    replied, and the session keeps the assignments made before the failing
    request: the new selection and [pendingPost = false] when the summary
    fails, and also the new summary and project name when the post fails.
    The listed commits and the generated post are as before. *)
Theorem select_failure_keeps_assignments env complete toUpperCase toLowerCase
    userId content w st :
  userStates w !! userId = Some st -> commits st <> [] ->
  selectedIndicesOf (trim (substringFrom 6 content)) (commits st) <> [] ->
  let selected :=
    commitsAt (commits st)
      (selectedIndicesOf (trim (substringFrom 6 content)) (commits st)) in
  let name := projectNameOf env toUpperCase toLowerCase (repo <$> head selected) in
  let w' := snd (repoCommand env complete toUpperCase toLowerCase userId content w) in
  (forall e w2,
     generateSummary env complete (selectionAnalysis selected) w = (Throw e, w2) ->
     outbox w' = Reply (js "Error: " ++ e) :: outbox w
     /\ userStates w' = <[userId := withSelection selected st]> (userStates w))
  /\ (forall summary w2 e w3,
        generateSummary env complete (selectionAnalysis selected) w = (Ok summary, w2) ->
        generatePost env complete summary (Some name) w2 = (Throw e, w3) ->
        outbox w' = Reply (js "Error: " ++ e) :: outbox w
        /\ userStates w'
           = <[userId := withProjectName name (withSummary summary
                           (withSelection selected st))]> (userStates w)).
Proof.
  intros Hst Hne Hsel selected name w'.
  assert (w' = snd (tryCatch
                      (draftSelection env complete toUpperCase toLowerCase userId selected)
                      (fun e => reply (js "Error: " ++ e)) w)) as Hw'.
  { unfold w'. by rewrite (repoCommand_valid _ _ _ _ _ _ _ st). }
  unfold tryCatch in Hw'. rewrite draftSelection_spec in Hw'. fold name in Hw'.
  split.
  - intros e w2 Hs. rewrite Hs in Hw'. simpl in Hw'. rewrite Hw'. simpl.
    apply generateSummary_frame in Hs as [(Hu2 & _ & Ho2 & _) _].
    rewrite Hu2, Ho2, (alter_present _ _ _ st Hst). split; reflexivity.
  - intros summary w2 e w3 Hs Hp. rewrite Hs, Hp in Hw'. simpl in Hw'.
    rewrite Hw'. simpl.
    apply generateSummary_frame in Hs as [(Hu2 & _ & Ho2 & _) _].
    apply generatePost_frame in Hp as [(Hu3 & _ & Ho3 & _) _].
    rewrite Hu3, Hu2, Ho3, Ho2, (alter_present _ _ _ st Hst). split; reflexivity.
Qed.

Lemma select_failure_keeps_assignments_witness :
  userStates
    (snd (repoCommand (exampleEnv None) (scriptedProvider []) asciiUpperCase
            asciiLowerCase (js "1001") (js "!repo 2")
            (exampleRun [] listsBoth [userMessage "!run"])))
  = <[js "1001" :=
        withSelection [exampleCommitB]
          {| commits := [exampleCommitA; exampleCommitB]; selectedCommits := [];
             generatedSummary := None; generatedPost := None;
             projectName := None; pendingPost := Some false |}]>
      (userStates (exampleRun [] listsBoth [userMessage "!run"])).
Proof.
  refine (proj2 (proj1 (select_failure_keeps_assignments (exampleEnv None)
                          (scriptedProvider []) asciiUpperCase asciiLowerCase
                          (js "1001") (js "!repo 2")
                          (exampleRun [] listsBoth [userMessage "!run"])
                          {| commits := [exampleCommitA; exampleCommitB];
                             selectedCommits := []; generatedSummary := None;
                             generatedPost := None; projectName := None;
                             pendingPost := Some false |} _ _ _)
                   (js "Failed to generate content: 503 unavailable")
                   (countGeminiCall (exampleRun [] listsBoth [userMessage "!run"])) _)).
  - vm_compute. reflexivity.
  - discriminate.
  - vm_compute. discriminate.
  - vm_compute. reflexivity.
Defined.

(** The claim as stated fails: the post request of a second selection
    fails, the failure is replied, and the stored session has the new
    selection and the new summary beside the post of the first. *)
Lemma select_failure_changes_session_counterexample :
  userStates
    (exampleRun [js "A polling loop was added."; js "The bot now polls on its own.";
                 js "The retry prompt was fixed."] listsBoth
       [userMessage "!run"; userMessage "!repo 1"]) !! js "1001"
  = Some {| commits := [exampleCommitA; exampleCommitB];
            selectedCommits := [exampleCommitA];
            generatedSummary := Some (js "A polling loop was added.");
            generatedPost :=
              Some (js "Grixo Updates" ++ nl ++ nl ++ js "The bot now polls on its own.");
            projectName := Some (js "Grixo"); pendingPost := Some true |}
  /\ userStates
       (exampleRun [js "A polling loop was added."; js "The bot now polls on its own.";
                    js "The retry prompt was fixed."] listsBoth
          [userMessage "!run"; userMessage "!repo 1"; userMessage "!repo 2"]) !! js "1001"
     = Some {| commits := [exampleCommitA; exampleCommitB];
               selectedCommits := [exampleCommitB];
               generatedSummary := Some (js "The retry prompt was fixed.");
               generatedPost :=
                 Some (js "Grixo Updates" ++ nl ++ nl ++ js "The bot now polls on its own.");
               projectName := Some (js "Grixo"); pendingPost := Some false |}
  /\ head (outbox
             (exampleRun [js "A polling loop was added.";
                          js "The bot now polls on its own.";
                          js "The retry prompt was fixed."] listsBoth
                [userMessage "!run"; userMessage "!repo 1"; userMessage "!repo 2"]))
     = Some (Reply (js "Error: Failed to generate content: 503 unavailable")).
Proof.
  split; [|split]; vm_compute; reflexivity.
Qed.

(** * Further properties *)

(** ** Frames: what a handler leaves alone *)

Section FrameRules.

Variable R : World -> World -> Prop.
Hypothesis HR : Frame R.

Lemma keeps_ret {A} (a : A) : keeps R (ret a).
Proof. intros w. apply (frame_refl R HR). Qed.

Lemma keeps_gets {A} (f : World -> A) : keeps R (gets f).
Proof. intros w. apply (frame_refl R HR). Qed.

Lemma keeps_bind {A B} (c : M A) (k : A -> M B) :
  keeps R c -> (forall a, keeps R (k a)) -> keeps R (bind c k).
Proof.
  intros Hc Hk w. unfold bind. specialize (Hc w).
  destruct (c w) as [[a|e] w1]; simpl in *; [|exact Hc].
  eapply (frame_trans R HR); [exact Hc | apply Hk].
Qed.

Lemma keeps_tryCatch {A} (body : M A) (handler : jsstring -> M A) :
  keeps R body -> (forall e, keeps R (handler e)) -> keeps R (tryCatch body handler).
Proof.
  intros Hb Hh w. unfold tryCatch. specialize (Hb w).
  destruct (body w) as [[a|e] w1]; simpl in *; [exact Hb|].
  eapply (frame_trans R HR); [exact Hb | apply Hh].
Qed.

Lemma keeps_modify (f : World -> World) : (forall w, R w (f w)) -> keeps R (modify f).
Proof. intros Hf w. apply Hf. Qed.

Lemma keeps_reply text : keeps R (reply text).
Proof. apply keeps_modify. intros w. apply (frame_emit R HR). Qed.

Lemma keeps_send text : keeps R (send text).
Proof. apply keeps_modify. intros w. apply (frame_emit R HR). Qed.

Lemma keeps_forEach {A} (f : A -> M unit) l :
  (forall a, keeps R (f a)) -> keeps R (forEach f l).
Proof.
  intros Hf. induction l as [|a l IH]; simpl.
  - apply keeps_ret.
  - apply keeps_bind; [apply Hf | intros _; exact IH].
Qed.

Lemma keeps_generateWithPrompt env complete prompt :
  keeps R (generateWithPrompt env complete prompt).
Proof.
  intros w. destruct (generateWithPrompt env complete prompt w) as [r w'] eqn:E.
  destruct (generateWithPrompt_world _ _ _ _ _ _ E) as [-> | ->]; simpl.
  - apply (frame_refl R HR).
  - apply (frame_gemini R HR).
Qed.

Lemma keeps_generateSummary env complete analysis :
  keeps R (generateSummary env complete analysis).
Proof. apply keeps_generateWithPrompt. Qed.

Lemma keeps_generatePost env complete summary name :
  keeps R (generatePost env complete summary name).
Proof.
  unfold generatePost. apply keeps_bind; [apply keeps_generateWithPrompt|].
  intros p1. apply keeps_bind; [|intros p2; apply keeps_ret].
  destruct (numGt _ _); [|apply keeps_ret].
  apply keeps_bind; [apply keeps_generateWithPrompt | intros p; apply keeps_ret].
Qed.

Lemma keeps_getRecentCommitsFromRepos github repos count :
  keeps R (getRecentCommitsFromRepos github repos count).
Proof.
  intros w. unfold getRecentCommitsFromRepos.
  destruct (github (githubCalls w) repos count); simpl; apply (frame_github R HR).
Qed.

Lemma keeps_postToX env tweet text :
  (forall t w, R w (logTweet t w)) -> keeps R (postToX env tweet text).
Proof.
  intros Hlog w. unfold postToX.
  repeat match goal with
         | |- R _ (snd (if ?b then _ else _)) => destruct b
         | |- R _ (snd (match ?x with _ => _ end)) => destruct x
         end; simpl; first [apply (frame_refl R HR) | apply Hlog].
Qed.

End FrameRules.

(** The walk through a handler: [prim] closes the assignments to the two
    maps, the rules above open the rest. *)
Ltac keeps_walk HR prim :=
  repeat first
    [ apply (keeps_ret _ HR)
    | apply (keeps_gets _ HR)
    | apply (keeps_reply _ HR)
    | apply (keeps_send _ HR)
    | apply (keeps_generateSummary _ HR)
    | apply (keeps_generatePost _ HR)
    | apply (keeps_getRecentCommitsFromRepos _ HR)
    | apply (keeps_postToX _ HR); solve [prim]
    | apply keeps_modify; solve [prim]
    | apply (keeps_forEach _ HR); intros ?
    | apply (keeps_bind _ HR); [|intros ?]
    | apply (keeps_tryCatch _ HR); [|intros ?]
    | match goal with
      | |- keeps _ (if ?b then _ else _) => destruct b
      | |- keeps _ (match ?x with _ => _ end) => destruct x
      end ].

Ltac unfold_handlers :=
  unfold handle, messageCreate, runCommand, repoCommand, draftSelection, redoCommand,
    redoAuto, regeneratePost, noCommand, postCommand, checkForNewCommits, initCommits,
    observeCommit, processNewCommit, updateState.

Lemma Frame_sameWatermarks : Frame sameWatermarks.
Proof. split; unfold sameWatermarks; intros; simpl; congruence. Qed.

Lemma Frame_sameTweets : Frame sameTweets.
Proof. split; unfold sameTweets; intros; simpl; congruence. Qed.

Lemma Frame_sameSessionsOutside keys : Frame (sameSessionsOutside keys).
Proof.
  split; unfold sameSessionsOutside; simpl; try done.
  intros w1 w2 w3 H12 H23 key Hkey. rewrite H23, H12 by done. reflexivity.
Qed.

Lemma Frame_watermarksKept : Frame watermarksKept.
Proof. split; unfold watermarksKept; intros; simpl; eauto. Qed.

Ltac equal_prim := intros; unfold sameWatermarks, sameTweets; simpl; reflexivity.

Ltac sessions_prim :=
  intros; unfold sameSessionsOutside; simpl; try reflexivity;
  let key := fresh "key" in
  let Hkey := fresh "Hkey" in
  intros key Hkey;
  first [ rewrite lookup_insert_ne
            by (let E := fresh in intros E; apply Hkey; rewrite E, !elem_of_cons; tauto)
        | rewrite lookup_delete_ne
            by (let E := fresh in intros E; apply Hkey; rewrite E, !elem_of_cons; tauto)
        | rewrite lookup_alter_ne
            by (let E := fresh in intros E; apply Hkey; rewrite E, !elem_of_cons; tauto) ];
  reflexivity.

Section Footprints.

Variable env : Env.
Variable complete : nat -> Prompt -> jsstring + option jsstring.
Variable tweet : nat -> jsstring -> option XFailure.
Variable github : nat -> list jsstring -> Z -> Result (list CommitInfo).
Variable toUpperCase : jsstring -> jsstring.
Variable toLowerCase : jsstring -> jsstring.

Lemma messageCreate_sameWatermarks authorBot channelId userId content :
  keeps sameWatermarks
    (messageCreate env complete tweet github toUpperCase toLowerCase
       authorBot channelId userId content).
Proof.
  unfold_handlers. keeps_walk Frame_sameWatermarks ltac:(equal_prim).
Qed.

Lemma messageCreate_sameSessionsOutside authorBot channelId userId content :
  keeps (sameSessionsOutside [userId; autoStateKey env])
    (messageCreate env complete tweet github toUpperCase toLowerCase
       authorBot channelId userId content).
Proof.
  unfold_handlers.
  keeps_walk (Frame_sameSessionsOutside [userId; autoStateKey env]) ltac:(sessions_prim).
Qed.

Lemma checkForNewCommits_sameSessionsOutside :
  keeps (sameSessionsOutside [autoStateKey env])
    (checkForNewCommits env complete github toUpperCase toLowerCase).
Proof.
  unfold_handlers.
  keeps_walk (Frame_sameSessionsOutside [autoStateKey env]) ltac:(sessions_prim).
Qed.

Lemma checkForNewCommits_sameTweets :
  keeps sameTweets (checkForNewCommits env complete github toUpperCase toLowerCase).
Proof.
  unfold_handlers. keeps_walk Frame_sameTweets ltac:(equal_prim).
Qed.

Lemma initCommits_sameTweets : keeps sameTweets (initCommits env github).
Proof.
  unfold_handlers. keeps_walk Frame_sameTweets ltac:(equal_prim).
Qed.

Lemma handle_watermarksKept ev :
  keeps watermarksKept (handle env complete tweet github toUpperCase toLowerCase ev).
Proof.
  destruct ev; unfold_handlers;
    keeps_walk Frame_watermarksKept
      ltac:(intros; unfold watermarksKept; simpl; intros;
            first [ assumption
                  | rewrite lookup_insert_is_Some;
                    match goal with
                    | |- ?a = ?b \/ _ => destruct (decide (a = b)); [by left | by right]
                    end ]).
Qed.

End Footprints.

Section EventProperties.

Variable env : Env.
Variable complete : nat -> Prompt -> jsstring + option jsstring.
Variable tweet : nat -> jsstring -> option XFailure.
Variable github : nat -> list jsstring -> Z -> Result (list CommitInfo).
Variable toUpperCase : jsstring -> jsstring.
Variable toLowerCase : jsstring -> jsstring.

(** The effects of one observation of the poller. *)
Lemma observeCommit_effects commit w :
  let w' := snd (observeCommit env complete toUpperCase toLowerCase commit w) in
  (outbox w' = outbox w \/ exists text, outbox w' = Send text :: outbox w)
  /\ (geminiCalls w' <= geminiCalls w + 3)%nat
  /\ (forall r, r <> repo commit ->
        lastCheckedCommits w' !! r = lastCheckedCommits w !! r).
Proof.
  unfold observeCommit, bind, gets, modify, ret.
  destruct (negb _ || negb _); [|simpl; split; [by left | split; [lia | done]]].
  destruct (truthyOpt _).
  - pose proof (processNewCommit_effects env complete toUpperCase toLowerCase commit
                  (setLastCheckedCommits (insert (repo commit) (sha commit)) w))
      as (Hl & Ho & Hg).
    destruct (processNewCommit _ _ _ _ _ _) as [[[]|e] w']; simpl in *;
      (split; [by right | split; [exact Hg|]]);
      intros r Hr; by rewrite Hl, lookup_insert_ne.
  - simpl. split; [by left | split; [lia|]].
    intros r Hr. by rewrite lookup_insert_ne.
Qed.

(** A tick does nothing, or counts a fetch, or observes the one commit left
    by [slice(0, 1)]. *)
Lemma checkForNewCommits_cases w :
  let w' := snd (checkForNewCommits env complete github toUpperCase toLowerCase w) in
  w' = w \/ w' = countGithubCall w
  \/ exists commit,
       w' = snd (observeCommit env complete toUpperCase toLowerCase commit
                   (countGithubCall w)).
Proof.
  unfold checkForNewCommits, tryCatch, bind, getRecentCommitsFromRepos.
  destruct (truthyOpt (GITHUB_REPOS env)); [|by left].
  destruct (github (githubCalls w) _ 1) as [cs|e]; [|by right; left].
  destruct cs as [|c cs]; [by right; left|].
  right. right. exists c. simpl. unfold bind, ret.
  pose proof (observeCommit_ok env complete toUpperCase toLowerCase c
                (countGithubCall w)) as Hok.
  destruct (observeCommit _ _ _ _ _ _) as [r w']. simpl in Hok. by subst r.
Qed.

Lemma runCommand_sameTweets userId : keeps sameTweets (runCommand env github userId).
Proof. unfold_handlers. keeps_walk Frame_sameTweets ltac:(equal_prim). Qed.

Lemma repoCommand_sameTweets userId content :
  keeps sameTweets (repoCommand env complete toUpperCase toLowerCase userId content).
Proof. unfold_handlers. keeps_walk Frame_sameTweets ltac:(equal_prim). Qed.

Lemma redoCommand_sameTweets userId : keeps sameTweets (redoCommand env complete userId).
Proof. unfold_handlers. keeps_walk Frame_sameTweets ltac:(equal_prim). Qed.

Lemma noCommand_sameTweets userId : keeps sameTweets (noCommand env userId).
Proof. unfold_handlers. keeps_walk Frame_sameTweets ltac:(equal_prim). Qed.

End EventProperties.

Lemma contained_tryCatch allowed {A} (p : Async.Prog A) (h : jsstring -> Async.Prog A) :
  (forall e, Async.contained allowed (h e)) ->
  Async.contained allowed (Async.tryCatch p h).
Proof.
  intros Hh. induction p as [a|e|X g k IH|R q k IH]; cbn.
  - exact I.
  - apply Hh.
  - intros x. apply IH.
  - intros r _. apply IH.
Qed.

Lemma contained_reply text : Async.contained Async.chatDelivers (Async.reply text).
Proof. intros r [x ->]. exact I. Qed.

Lemma contained_handle env toUpperCase toLowerCase ev :
  Async.contained Async.chatDelivers (Async.handle env toUpperCase toLowerCase ev).
Proof.
  destruct ev as [| |authorBot channelId userId content]; cbn [Async.handle].
  - by apply contained_tryCatch.
  - by apply contained_tryCatch.
  - unfold Async.messageCreate.
    repeat match goal with
           | |- Async.contained _ (if ?b then _ else _) => destruct b
           end;
      first [ exact I | apply contained_reply
            | apply contained_tryCatch; intros e; apply contained_reply ].
Qed.

Lemma runSync_contained allowed p s :
  Async.contained allowed p ->
  match fst (Async.runSync p s) with
  | Async.Returned => True
  | Async.Rejected _ => False
  | Async.Suspended t =>
      forall r, allowed _ (Async.request t) r -> Async.contained allowed (Async.resume t r)
  end.
Proof.
  revert s. induction p as [a|e|X g k IH|R q k IH]; intros s Hp; cbn in *.
  - exact I.
  - exact Hp.
  - destruct (g s) as [x s']. apply IH, Hp.
  - exact Hp.
Qed.

Lemma launch_configContained allowed p c :
  Async.contained allowed p -> Async.configContained allowed c ->
  Async.configContained allowed (Async.launch p c).
Proof.
  intros Hp [Hr Hpending]. unfold Async.launch.
  pose proof (runSync_contained allowed p (Async.store c) Hp) as Ht.
  destruct (Async.runSync p (Async.store c)) as [[|e|t] s']; cbn [fst] in Ht.
  - by split.
  - done.
  - split; [exact Hr|]. cbn. apply Forall_app. split; [exact Hpending | by repeat constructor].
Qed.

Lemma reachable_configContained env toUpperCase toLowerCase c :
  Async.reachable env toUpperCase toLowerCase Async.chatDelivers c ->
  Async.configContained Async.chatDelivers c.
Proof.
  induction 1 as [|ev c _ IH|i t r c _ IH Ht Hr].
  - split; [reflexivity | constructor].
  - apply launch_configContained; [apply contained_handle | exact IH].
  - destruct IH as [Hrej Hpending]. apply launch_configContained.
    + by apply (proj1 (Forall_lookup _ _) Hpending i t Ht).
    + split; [exact Hrej | by apply Forall_delete].
Qed.

Lemma decode_chatDelivers task a r c i t :
  t = Async.Settle i a -> Async.pending c !! i = Some task ->
  Async.chatDelivered c t = true ->
  Async.decode (Async.request task) a = Some r ->
  Async.chatDelivers _ (Async.request task) r.
Proof.
  intros -> Htask Hd Hr. unfold Async.chatDelivered in Hd.
  destruct task as [R q k]. cbn [Async.request] in *.
  destruct q; cbn in *; try exact I;
    destruct a; try discriminate; injection Hr as <-; eauto;
    rewrite Htask in Hd; discriminate.
Qed.

Lemma delivered_reachable env toUpperCase toLowerCase turns c :
  Async.reachable env toUpperCase toLowerCase Async.chatDelivers c ->
  Async.delivered env toUpperCase toLowerCase turns c = true ->
  Async.reachable env toUpperCase toLowerCase Async.chatDelivers
    (fold_left (Async.turn env toUpperCase toLowerCase) turns c).
Proof.
  revert c. induction turns as [|t turns IH]; intros c Hc Hd; [exact Hc|].
  cbn [Async.delivered] in Hd. apply andb_true_iff in Hd as [Ht Hd].
  cbn [fold_left]. apply IH; [|exact Hd].
  destruct t as [ev|i a]; cbn [Async.turn].
  - by constructor.
  - destruct (Async.pending c !! i) as [task|] eqn:Htask; [|exact Hc].
    destruct (Async.decode (Async.request task) a) as [r|] eqn:Hr; [|exact Hc].
    apply (Async.reachable_settle _ _ _ _ i task r c Hc Htask).
    by eapply decode_chatDelivers.
Qed.

(** X1: no listener lets a failure of the text provider, the publisher or
    the commit source escape.  In every interleaving in which
    [message.reply] and [channel.send] deliver, whatever the other awaited
    calls answer, no listener ends with an error nothing catches.  The
    [ready] listener and a tick of the poller end without one whatever they
    are answered, a rejected [channel.send] included. *)
Theorem every_handler_returns env toUpperCase toLowerCase c :
  Async.reachable env toUpperCase toLowerCase Async.chatDelivers c ->
  Async.rejections c = []
  /\ forall ev, ev = Ready \/ ev = Tick ->
       Async.contained Async.anyAnswer (Async.handle env toUpperCase toLowerCase ev).
Proof.
  intros Hc. split; [exact (proj1 (reachable_configContained _ _ _ _ Hc))|].
  intros ev [-> | ->]; cbn [Async.handle]; by apply contained_tryCatch.
Qed.

Lemma every_handler_returns_witness :
  Async.rejections
    (Async.runSchedule (exampleEnv None) asciiUpperCase asciiLowerCase Async.failingFetch)
  = [].
Proof.
  apply (every_handler_returns (exampleEnv None) asciiUpperCase asciiLowerCase).
  apply delivered_reachable; [constructor | reflexivity].
Defined.

(** X2: a chat message never changes a watermark, and it leaves every
    session alone except the one keyed by its author and the channel's
    auto-generated one. *)
Theorem message_footprint env complete tweet github toUpperCase toLowerCase
    authorBot channelId userId content w :
  let w' := step env complete tweet github toUpperCase toLowerCase
              (MessageCreate authorBot channelId userId content) w in
  lastCheckedCommits w' = lastCheckedCommits w
  /\ forall key, key <> userId -> key <> autoStateKey env ->
       userStates w' !! key = userStates w !! key.
Proof.
  split.
  - apply (messageCreate_sameWatermarks env complete tweet github toUpperCase
             toLowerCase authorBot channelId userId content w).
  - intros key Hu Ha.
    apply (messageCreate_sameSessionsOutside env complete tweet github toUpperCase
             toLowerCase authorBot channelId userId content w key).
    rewrite !elem_of_cons, elem_of_nil. tauto.
Qed.

(** X3: a tick of the poller observes at most one commit, however many
    repositories are configured: it sends at most one message, makes at
    most three provider requests and changes the watermark of at most one
    repository.  It never hands a text to the publisher and writes no
    session but the channel's auto-generated one. *)
Theorem tick_footprint env complete github toUpperCase toLowerCase w :
  let w' := snd (checkForNewCommits env complete github toUpperCase toLowerCase w) in
  tweetLog w' = tweetLog w
  /\ (forall key, key <> autoStateKey env -> userStates w' !! key = userStates w !! key)
  /\ (outbox w' = outbox w \/ exists text, outbox w' = Send text :: outbox w)
  /\ (geminiCalls w' <= geminiCalls w + 3)%nat
  /\ (exists r, forall r', r' <> r ->
        lastCheckedCommits w' !! r' = lastCheckedCommits w !! r').
Proof.
  intros w'. split; [|split].
  - apply (checkForNewCommits_sameTweets env complete github toUpperCase toLowerCase w).
  - intros key Hkey.
    apply (checkForNewCommits_sameSessionsOutside env complete github toUpperCase
             toLowerCase w key).
    rewrite !elem_of_cons, elem_of_nil. tauto.
  - destruct (checkForNewCommits_cases env complete github toUpperCase toLowerCase w)
      as [H | [H | (c & H)]]; fold w' in H; rewrite H.
    + split; [by left | split; [lia | by exists []]].
    + simpl. split; [by left | split; [lia | by exists []]].
    + destruct (observeCommit_effects env complete toUpperCase toLowerCase c
                  (countGithubCall w)) as (Ho & Hg & Hl).
      split; [exact Ho | split; [exact Hg | by exists (repo c)]].
Qed.

Lemma initCommits_world env github w :
  snd (initCommits env github w)
  = if truthyOpt (GITHUB_REPOS env) then
      match github (githubCalls w) (configuredRepos (default [] (GITHUB_REPOS env))) 1 with
      | Ok (c :: _) =>
          setLastCheckedCommits (insert (repo c) (sha c)) (countGithubCall w)
      | _ => countGithubCall w
      end
    else w.
Proof.
  unfold initCommits, tryCatch, bind, getRecentCommitsFromRepos.
  destruct (truthyOpt (GITHUB_REPOS env)); [|reflexivity].
  destruct (github (githubCalls w) _ 1) as [[|c cs]|e]; reflexivity.
Qed.

(** X4: the seeding at startup never drafts: [initCommits] touches no
    session, sends nothing and asks the provider nothing.  When the fetch
    answers a commit its hash becomes the watermark of its repository, and
    a following tick that observes the same commit changes nothing but the
    count of fetches; when the fetch fails, the watermarks are as before. *)
Theorem startup_seeds_without_drafting env complete github toUpperCase toLowerCase w :
  let w' := snd (initCommits env github w) in
  userStates w' = userStates w /\ outbox w' = outbox w
  /\ geminiCalls w' = geminiCalls w /\ tweetLog w' = tweetLog w
  /\ (forall c cs,
        truthyOpt (GITHUB_REPOS env) = true ->
        github (githubCalls w) (configuredRepos (default [] (GITHUB_REPOS env))) 1
        = Ok (c :: cs) ->
        lastCheckedCommits w' = <[repo c := sha c]> (lastCheckedCommits w)
        /\ forall cs',
             github (githubCalls w') (configuredRepos (default [] (GITHUB_REPOS env))) 1
             = Ok (c :: cs') ->
             snd (checkForNewCommits env complete github toUpperCase toLowerCase w')
             = countGithubCall w')
  /\ (forall e,
        github (githubCalls w) (configuredRepos (default [] (GITHUB_REPOS env))) 1
        = Throw e ->
        lastCheckedCommits w' = lastCheckedCommits w).
Proof.
  intros w'. pose proof (initCommits_world env github w) as Hw. fold w' in Hw.
  assert (userStates w' = userStates w /\ outbox w' = outbox w
          /\ geminiCalls w' = geminiCalls w /\ tweetLog w' = tweetLog w) as Hsame.
  { rewrite Hw. destruct (truthyOpt _); [|done].
    destruct (github _ _ _) as [[|c cs]|e]; done. }
  destruct Hsame as (? & ? & ? & ?). repeat (split; [assumption|]). split.
  - intros c cs Hrepos Hfetch. rewrite Hrepos, Hfetch in Hw.
    split; [by rewrite Hw|]. intros cs' Hnext.
    rewrite (checkForNewCommits_observes _ _ _ _ _ _ c cs' Hrepos Hnext).
    cbn [snd]. rewrite observeCommit_same; [reflexivity|].
    rewrite Hw. simpl. apply lookup_insert_eq.
  - intros e Hfetch. rewrite Hfetch in Hw. rewrite Hw. by destruct (truthyOpt _).
Qed.

(** What [!post] does, by the session it resolves to. *)
Lemma postCommand_resolved env tweet userId w :
  postCommand env tweet userId w
  = match resolvedPost env userId w with
    | None => (Ok tt, emit (Reply noPostGeneratedText) w)
    | Some (key, post) =>
        match postToX env tweet post w with
        | (Ok _, w1) => (Ok tt, setUserStates (delete key) (emit (Reply postedText) w1))
        | (Throw e, w1) => (Ok tt, emit (Reply (js "Error posting to X: " ++ e)) w1)
        end
    end.
Proof.
  unfold resolvedPost, postCommand, tryCatch, bind, gets, modify, reply.
  destruct (hasPost (userStates w !! userId)).
  - destruct (postToX env tweet _ w) as [[[]|e] w1]; reflexivity.
  - destruct (hasPost (userStates w !! autoStateKey env)); [|reflexivity].
    destruct (postToX env tweet _ w) as [[[]|e] w1]; reflexivity.
Qed.

(** X5: the only text ever handed to the publisher is the stored post of the
    session a [!post] message resolves to: an event leaves the log of the
    publisher as it is, or it is a [!post] from a user in the configured
    channel and the log grows by exactly that post. *)
Theorem only_post_publishes env complete tweet github toUpperCase toLowerCase ev w :
  let w' := step env complete tweet github toUpperCase toLowerCase ev w in
  tweetLog w' = tweetLog w
  \/ exists userId content key post,
       ev = MessageCreate false (DISCORD_CHANNEL_ID env) userId content
       /\ trim content = js "!post"
       /\ resolvedPost env userId w = Some (key, post)
       /\ tweetLog w' = post :: tweetLog w.
Proof.
  destruct ev as [| |authorBot channelId userId content]; unfold step; simpl.
  - left. apply (initCommits_sameTweets env github w).
  - left. apply (checkForNewCommits_sameTweets env complete github toUpperCase
                   toLowerCase w).
  - unfold messageCreate.
    destruct authorBot; [by left|]. cbn [orb].
    case_bool_decide as Hchannel; [|by left]. cbn [negb]. subst channelId.
    case_bool_decide; [by left|].
    case_bool_decide; [left; apply (runCommand_sameTweets env github userId w)|].
    destruct (startsWith _ _);
      [left; apply (repoCommand_sameTweets env complete toUpperCase toLowerCase
                      userId (trim content) w)|].
    case_bool_decide; [left; apply (redoCommand_sameTweets env complete userId w)|].
    case_bool_decide; [left; apply (noCommand_sameTweets env userId w)|].
    case_bool_decide as Hpost; [|by left].
    rewrite postCommand_resolved.
    destruct (resolvedPost env userId w) as [[key post]|] eqn:Hres; [|by left].
    destruct (postToX env tweet post w) as [[[]|e] w1] eqn:Hx.
    + apply postToX_ok in Hx as ->. right. by exists userId, content, key, post.
    + apply postToX_frame in Hx as (_ & _ & _ & _ & [Hx | Hx]); simpl.
      * by left.
      * right. by exists userId, content, key, post.
Qed.

(** X6: a repository that has a watermark keeps one: no event removes an
    entry of the watermark map, whatever sequence of events runs. *)
Theorem watermarks_never_lost env complete tweet github toUpperCase toLowerCase evs w r :
  is_Some (lastCheckedCommits w !! r) ->
  is_Some (lastCheckedCommits
             (run env complete tweet github toUpperCase toLowerCase evs w) !! r).
Proof.
  revert w. induction evs as [|ev evs IH]; intros w H; [exact H|].
  simpl. apply IH.
  by apply (handle_watermarksKept env complete tweet github toUpperCase toLowerCase ev w).
Qed.

Lemma watermarks_never_lost_witness :
  is_Some (lastCheckedCommits
             (run (exampleEnv None) (scriptedProvider []) alwaysPosted headMoves
                asciiUpperCase asciiLowerCase [Tick; userMessage "!run"]
                (exampleRun [] headMoves [Tick])) !! js "octo/grixo").
Proof.
  apply (watermarks_never_lost (exampleEnv None) (scriptedProvider []) alwaysPosted
           headMoves asciiUpperCase asciiLowerCase [Tick; userMessage "!run"]
           (exampleRun [] headMoves [Tick]) (js "octo/grixo")).
  vm_compute. eauto.
Defined.

(** ** The commands *)

Lemma split_app_sep sep p rest :
  Forall (fun c => c <> sep) p -> split sep (p ++ sep :: rest) = p :: split sep rest.
Proof.
  induction 1 as [|c p Hc _ IH]; simpl.
  - by rewrite N.eqb_refl.
  - destruct (c =? sep)%N eqn:E; [apply N.eqb_eq in E; congruence|].
    by rewrite IH.
Qed.

(** Splitting the join of pieces without separator gives the pieces back. *)
Lemma split_join sep pieces :
  pieces <> [] -> Forall (Forall (fun c => c <> sep)) pieces ->
  split sep (join [sep] pieces) = pieces.
Proof.
  intros Hne Hall. induction Hall as [|p ps Hp Hps IH]; [congruence|].
  destruct ps as [|q ps].
  - simpl. by apply split_no_sep.
  - rewrite join_cons_cons. cbn [app]. rewrite split_app_sep by exact Hp.
    by rewrite IH.
Qed.

Lemma filter_all (f : number -> bool) l :
  Forall (fun x => f x = true) l -> List.filter f l = l.
Proof. induction 1 as [|x l Hx _ IH]; simpl; [reflexivity|]. by rewrite Hx, IH. Qed.

(** X7: the numbers [!run] prints select the commits they stand for: typing
    the numbers of listed commits, separated by commas, selects exactly
    those commits, in the order typed, repetitions included. *)
Theorem typed_numbers_select_their_commits (listed : list CommitInfo) (ns : list nat) :
  Forall (fun n => (n < List.length listed)%nat) ns ->
  selectedIndicesOf (typedSelection ns) listed = map (fun n => Some (Z.of_nat n)) ns
  /\ Forall2 (fun n c => listed !! n = Some c) ns
       (commitsAt listed (selectedIndicesOf (typedSelection ns) listed)).
Proof.
  intros Hns.
  assert (selectedIndicesOf (typedSelection ns) listed
          = map (fun n => Some (Z.of_nat n)) ns) as Hsel.
  { destruct (decide (ns = [])) as [-> | Hne]; [reflexivity|].
    unfold selectedIndicesOf, typedSelection. rewrite split_join.
    - rewrite map_map.
      rewrite (map_ext_in _ (fun n => Some (Z.of_nat n))).
      + apply filter_all. apply Forall_forall. intros x Hx.
        apply list_elem_of_fmap in Hx as (n & -> & Hn).
        rewrite Forall_forall in Hns. specialize (Hns n Hn).
        simpl. apply andb_true_iff. split; [apply Z.leb_le | apply Z.ltb_lt];
          unfold len; lia.
      + intros n _. rewrite trim_toDecimal, parseInt_toDecimal by lia.
        simpl. f_equal. lia.
    - by destruct ns.
    - apply Forall_forall. intros t Ht. apply list_elem_of_fmap in Ht as (n & -> & _).
      destruct (toDecimal_digits (Z.of_nat n + 1)) as (Hall & _); [lia|].
      eapply Forall_impl; [exact Hall|]. intros c Hc. by apply digit_not_comma. }
  split; [exact Hsel|]. rewrite Hsel. clear Hsel.
  induction Hns as [|n ns Hn _ IH]; [constructor|].
  cbn [map]. rewrite commitsAt_cons, Nat2Z.id.
  destruct (listed !! n) as [c|] eqn:E.
  - constructor; [exact E | exact IH].
  - apply lookup_ge_None in E. lia.
Qed.

Lemma typed_numbers_select_their_commits_witness :
  selectedIndicesOf (typedSelection [1; 0; 1]%nat) [exampleCommitA; exampleCommitB]
  = [Some 1; Some 0; Some 1]
  /\ Forall2 (fun n c => [exampleCommitA; exampleCommitB] !! n = Some c) [1; 0; 1]%nat
       (commitsAt [exampleCommitA; exampleCommitB]
          (selectedIndicesOf (typedSelection [1; 0; 1]%nat)
             [exampleCommitA; exampleCommitB])).
Proof.
  apply (typed_numbers_select_their_commits [exampleCommitA; exampleCommitB]
           [1; 0; 1]%nat).
  repeat constructor.
Defined.

Lemma redoCommand_resolved env complete userId w :
  redoCommand env complete userId w
  = match redoTarget env userId w with
    | None =>
        (Ok tt,
         emit (Reply (js "No post to regenerate. Please run `!repo <numbers>` first to generate a post.")) w)
    | Some (key, st) =>
        tryCatch (regeneratePost env complete st key)
          (fun e => reply (js "Error: " ++ e)) w
    end.
Proof.
  unfold redoCommand, redoTarget, redoAuto, tryCatch, bind, gets.
  destruct (userStates w !! userId) as [st|].
  - destruct (truthyOpt (generatedSummary st)); [reflexivity|].
    destruct (userStates w !! autoStateKey env) as [ast|]; [|reflexivity].
    destruct (truthyOpt (generatedSummary ast)); reflexivity.
  - destruct (userStates w !! autoStateKey env) as [ast|]; [|reflexivity].
    destruct (truthyOpt (generatedSummary ast)); reflexivity.
Qed.

Lemma redoTarget_lookup env userId w key st :
  redoTarget env userId w = Some (key, st) ->
  userStates w !! key = Some st /\ truthyOpt (generatedSummary st) = true.
Proof.
  unfold redoTarget.
  destruct (userStates w !! userId) as [ust|] eqn:Hu.
  - destruct (truthyOpt (generatedSummary ust)) eqn:Hs; [by intros [= <- <-]|].
    destruct (userStates w !! autoStateKey env) as [ast|] eqn:Ha; [|discriminate].
    destruct (truthyOpt (generatedSummary ast)) eqn:Has; [|discriminate].
    by intros [= <- <-].
  - destruct (userStates w !! autoStateKey env) as [ast|] eqn:Ha; [|discriminate].
    destruct (truthyOpt (generatedSummary ast)) eqn:Has; [|discriminate].
    by intros [= <- <-].
Qed.

(** X8: [!redo] is all or nothing.  On the session it resolves to (the
    user's if it has a summary, else the channel's auto-generated one) it
    asks for a new post from the stored summary and project name: when the
    post arrives it replaces the old one and [pendingPost] is set, commits,
    selection, summary and project name staying as they are; when the
    provider fails the error is replied and every session is as before.
    Without such a session it only replies. *)
Theorem regenerate_replaces_post_or_nothing env complete userId w :
  let w' := snd (redoCommand env complete userId w) in
  match redoTarget env userId w with
  | None =>
      w' = emit (Reply (js "No post to regenerate. Please run `!repo <numbers>` first to generate a post.")) w
  | Some (key, st) =>
      if truthyOpt (projectName st) then
        match generatePost env complete (default [] (generatedSummary st))
                (projectName st) w with
        | (Ok post, _) =>
            userStates w' = <[key := withPost post st]> (userStates w)
            /\ outbox w'
               = Reply (js "**Regenerated Post:**" ++ nl ++ backticks ++ nl ++ post ++ nl
                        ++ backticks ++ nl ++ nl ++ usePostOrNo) :: outbox w
        | (Throw e, _) =>
            userStates w' = userStates w
            /\ outbox w' = Reply (js "Error: " ++ e) :: outbox w
        end
      else w' = emit (Reply (js "Cannot regenerate: missing summary or project name.")) w
  end.
Proof.
  intros w'. unfold w'. rewrite redoCommand_resolved.
  destruct (redoTarget env userId w) as [[key st]|] eqn:Htarget; [|reflexivity].
  destruct (redoTarget_lookup _ _ _ _ _ Htarget) as [Hst Hsum].
  unfold regeneratePost, tryCatch, bind, updateState, modify, reply.
  rewrite Hsum. cbn [negb orb].
  destruct (truthyOpt (projectName st)); cbn [negb]; [|reflexivity].
  destruct (generatePost env complete _ _ w) as [[post|e] w2] eqn:Hp;
    apply generatePost_frame in Hp as [(Hu & _ & Ho & _) _]; simpl.
  - rewrite Hu, Ho, (alter_present _ _ _ st Hst). split; reflexivity.
  - rewrite Hu, Ho. split; reflexivity.
Qed.

(** X9: [!run] lists at most five commits and starts over: when the fetch
    answers at least one commit, the author's session is replaced by a
    fresh listing of the first five, whatever draft it held before; when
    the fetch answers none or fails, or no repository is configured, every
    session is as before.  In every case there is exactly one reply. *)
Theorem run_lists_at_most_five env github userId w :
  let w' := snd (runCommand env github userId w) in
  (exists text, outbox w' = Reply text :: outbox w)
  /\ userStates w'
     = (if truthyOpt (GITHUB_REPOS env) then
          match github (githubCalls w)
                  (configuredRepos (default [] (GITHUB_REPOS env))) 5 with
          | Ok (c :: cs) => <[userId := freshListing (take 5 (c :: cs))]> (userStates w)
          | Ok [] => userStates w
          | Throw _ => userStates w
          end
        else userStates w)
  /\ (userStates w' = userStates w
      \/ exists listed,
           userStates w' = <[userId := freshListing listed]> (userStates w)
           /\ listed <> [] /\ (List.length listed <= 5)%nat).
Proof.
  unfold runCommand, tryCatch, bind, getRecentCommitsFromRepos, modify, reply.
  destruct (truthyOpt (GITHUB_REPOS env)); cbn [negb].
  - destruct (github (githubCalls w) _ 5) as [cs|e]; simpl.
    + rewrite len_eqb_0.
      destruct cs as [|c cs]; simpl.
      * split; [eauto|]. split; [reflexivity | by left].
      * split; [eauto|]. split; [reflexivity|].
        right. exists (c :: take 4 cs). split; [reflexivity|]. split; [discriminate|].
        simpl. rewrite length_take. lia.
    + split; [eauto|]. split; [reflexivity | by left].
  - simpl. split; [eauto|]. split; [reflexivity | by left].
Qed.

(** X10: the reply of a successful [!repo] fits a Discord message: it is at
    most 2000 code units long whenever the post is at most 1919, whatever
    the length of the summary. *)
Theorem draftReply_fits_message env summary post :
  len post <= 1919 -> len (draftReply env summary post) <= 2000.
Proof.
  intros Hpost. unfold draftReply. cbv zeta.
  match goal with |- len (if ?b then _ else _) <= _ => destruct b eqn:Hfull end.
  - by apply Z.leb_le in Hfull.
  - rewrite !len_app.
    change (len (js "**Generated Post:**")) with 19.
    change (len nl) with 1. change (len backticks) with 3.
    change (len usePostOrNo) with 51. lia.
Qed.

Lemma draftReply_fits_message_witness :
  len (draftReply (exampleEnv None) (js "A polling loop was added.")
         (js "Grixo Updates" ++ nl ++ nl ++ js "The bot now polls on its own."))
  <= 2000.
Proof.
  apply (draftReply_fits_message (exampleEnv None) (js "A polling loop was added.")
           (js "Grixo Updates" ++ nl ++ nl ++ js "The bot now polls on its own.")).
  vm_compute. discriminate.
Defined.

(** X11: a discarded draft cannot be published.  After [!no] the author's
    own session holds no post; if it held none before, the channel's
    auto-generated session is gone.  So a [!post] that follows can publish
    only the auto-generated draft, and only when the discarded one was the
    author's own. *)
Theorem discarded_draft_is_gone env userId w :
  let w' := snd (noCommand env userId w) in
  hasPost (userStates w' !! userId) = false
  /\ (hasPost (userStates w !! userId) = false ->
      userStates w' !! autoStateKey env = None)
  /\ (forall key post,
        resolvedPost env userId w' = Some (key, post) ->
        key = autoStateKey env /\ hasPost (userStates w !! userId) = true)
  /\ (exists text, outbox w' = Reply text :: outbox w).
Proof.
  intros w'.
  assert (hasPost (userStates w' !! userId) = false
          /\ (hasPost (userStates w !! userId) = false ->
              userStates w' !! autoStateKey env = None)
          /\ (exists text, outbox w' = Reply text :: outbox w)) as (Hown & Hauto & Hreply).
  { unfold w', noCommand, tryCatch, bind, gets, modify, reply.
    destruct (hasPost (userStates w !! userId)) eqn:Hu; simpl.
    - rewrite lookup_delete_eq. split; [reflexivity|]. split; [discriminate | eauto].
    - destruct (userStates w !! autoStateKey env) as [ast|] eqn:Ha; simpl.
      + split; [|split; [intros _; apply lookup_delete_eq | eauto]].
        destruct (decide (autoStateKey env = userId)) as [E|E].
        * rewrite <- E, lookup_delete_eq. reflexivity.
        * rewrite lookup_delete_ne by done. exact Hu.
      + split; [exact Hu|]. split; [by intros _ | eauto]. }
  split; [exact Hown|]. split; [exact Hauto|]. split; [|exact Hreply].
  intros key post. unfold resolvedPost. rewrite Hown.
  destruct (hasPost (userStates w' !! autoStateKey env)) eqn:Ha; [|discriminate].
  intros [= <- _]. split; [reflexivity|].
  destruct (hasPost (userStates w !! userId)) eqn:Hu; [reflexivity|].
  rewrite (Hauto eq_refl) in Ha. discriminate.
Qed.

(** ** The composer and the publisher *)

Lemma generateWithPrompt_answer env complete prompt w :
  truthyOpt (GEMINI_API_KEY env) = true ->
  generateWithPrompt env complete prompt w
  = (match complete (geminiCalls w) prompt with
     | inl text => Ok (cleanResponse text)
     | inr m => Throw (geminiErrorMessage m)
     end, countGeminiCall w).
Proof.
  intros Hkey. unfold generateWithPrompt. rewrite Hkey.
  destruct (complete (geminiCalls w) prompt); reflexivity.
Qed.

(** X12: [generatePost] retries exactly once, and only when the first answer
    is too long.  With an API key it makes one or two provider requests;
    two exactly when the first answer arrived and exceeds the budget.  A
    first answer within the budget is returned as it is behind the prefix.
    When the retry fails, [generatePost] fails with it: the first answer is
    not used. *)
Theorem generatePost_retries_once env complete summary projectName w :
  truthyOpt (GEMINI_API_KEY env) = true ->
  let budget := numSub (characterLimit env) (Some (len (postPrefix projectName))) in
  let first :=
    complete (geminiCalls w)
      (PostPrompt summary projectName budget (len (postPrefix projectName))
         (characterLimit env)) in
  let second := complete (S (geminiCalls w)) (StricterPrompt summary budget) in
  let result := generatePost env complete summary projectName w in
  (geminiCalls (snd result) = S (geminiCalls w)
   \/ geminiCalls (snd result) = S (S (geminiCalls w)))
  /\ (geminiCalls (snd result) = S (S (geminiCalls w)) <->
      exists t1, first = inl t1
                 /\ numGt (Some (len (trim (cleanResponse t1)))) budget = true)
  /\ (forall t1,
        first = inl t1 ->
        numGt (Some (len (trim (cleanResponse t1)))) budget = false ->
        fst result = Ok (postPrefix projectName ++ trim (cleanResponse t1)))
  /\ (forall t1 m,
        first = inl t1 ->
        numGt (Some (len (trim (cleanResponse t1)))) budget = true ->
        second = inr m ->
        fst result = Throw (geminiErrorMessage m)).
Proof.
  intros Hkey budget first second result.
  unfold result, generatePost, bind, ret. fold budget.
  rewrite (generateWithPrompt_answer _ _ _ _ Hkey). fold first.
  destruct first as [t1|m1] eqn:Hfirst.
  - destruct (numGt (Some (len (trim (cleanResponse t1)))) budget) eqn:Hlong.
    + rewrite (generateWithPrompt_answer _ _ _ _ Hkey).
      change (geminiCalls (countGeminiCall w)) with (S (geminiCalls w)). fold second.
      destruct second as [t2|m2] eqn:Hsecond; cbn [fst snd].
      * split; [by right|]. split; [split; [eauto | done]|].
        split; [intros ? [= <-] ?; congruence|]. intros ? ? _ _ [=].
      * split; [by right|]. split; [split; [eauto | done]|].
        split; [intros ? [= <-] ?; congruence|]. by intros ? ? _ _ [= <-].
    + rewrite Hlong. cbn [fst snd]. split; [by left|]. split.
      * split; [simpl; lia|]. intros (t & [= <-] & Ht). congruence.
      * split; [|intros ? ? [= <-] ?; congruence].
        intros ? [= <-] _. unfold postPrefix.
        destruct (truthyOpt projectName); [by rewrite <- ?app_assoc | reflexivity].
  - cbn [fst snd]. split; [by left|]. split.
    + split; [simpl; lia|]. intros (t & [=] & _).
    + split; [intros ? [=] | intros ? ? [=]].
Qed.

Lemma generatePost_retries_once_witness :
  fst (generatePost (exampleEnv (Some (js "40")))
         (scriptedProvider [js "A first answer that is far too long for the budget."])
         (js "summary") (Some (js "Grixo")) initialWorld)
  = Throw (geminiErrorMessage (Some (js "503 unavailable"))).
Proof.
  refine (proj2 (proj2 (proj2 (generatePost_retries_once (exampleEnv (Some (js "40")))
            (scriptedProvider [js "A first answer that is far too long for the budget."])
            (js "summary") (Some (js "Grixo")) initialWorld _)))
            (js "A first answer that is far too long for the budget.")
            (Some (js "503 unavailable")) _ _ _).
  - reflexivity.
  - reflexivity.
  - vm_compute. reflexivity.
  - reflexivity.
Defined.

Lemma generatePost_length env complete summary projectName w limit post w' :
  characterLimit env = Some limit ->
  len (postPrefix projectName) <= limit ->
  generatePost env complete summary projectName w = (Ok post, w') ->
  len post <= limit.
Proof.
  intros Hlimit Hprefix Hpost.
  destruct (generatePost_content _ _ _ _ _ _ _ Hpost) as (content & -> & Hcontent).
  rewrite Hlimit in Hcontent. cbn [numSub] in Hcontent. rewrite len_app.
  destruct Hcontent as [Hfits | (p & ->)].
  - cbn [numGt] in Hfits. apply Z.ltb_ge in Hfits. lia.
  - pose proof (truncatePost_le p (limit - len (postPrefix projectName))). lia.
Qed.

(** X13: composer and publisher agree on the limit: a post returned by
    [generatePost] passes the length check of [postToX], so with the four
    credentials set it is handed to the posting provider, and [postToX]
    succeeds exactly when the provider does. *)
Theorem composed_post_reaches_provider env complete tweet summary projectName
    w post w' limit wp :
  characterLimit env = Some limit ->
  len (postPrefix projectName) <= limit ->
  generatePost env complete summary projectName w = (Ok post, w') ->
  truthyOpt (X_API_KEY env) && truthyOpt (X_API_SECRET env)
  && truthyOpt (X_ACCESS_TOKEN env) && truthyOpt (X_ACCESS_TOKEN_SECRET env) = true ->
  snd (postToX env tweet post wp) = logTweet post wp
  /\ (fst (postToX env tweet post wp) = Ok tt
      <-> tweet (List.length (tweetLog wp)) post = None).
Proof.
  intros Hlimit Hprefix Hpost Hcreds.
  pose proof (generatePost_length _ _ _ _ _ _ _ _ Hlimit Hprefix Hpost) as Hlen.
  apply andb_true_iff in Hcreds as [Hcreds H4].
  apply andb_true_iff in Hcreds as [Hcreds H3].
  apply andb_true_iff in Hcreds as [H1 H2].
  unfold postToX. rewrite Hlimit. cbn [numGt].
  replace (limit <? len post) with false by (symmetry; apply Z.ltb_ge; lia).
  rewrite H1, H2, H3, H4. cbn [andb negb].
  destruct (tweet (List.length (tweetLog wp)) post); simpl; split; try done.
Qed.

Lemma composed_post_reaches_provider_witness :
  snd (postToX (exampleEnv (Some (js "40"))) alwaysPosted
         (js "Grixo Updates" ++ nl ++ nl ++ js "Hello world foo. Hi.") initialWorld)
  = logTweet (js "Grixo Updates" ++ nl ++ nl ++ js "Hello world foo. Hi.") initialWorld
  /\ (fst (postToX (exampleEnv (Some (js "40"))) alwaysPosted
             (js "Grixo Updates" ++ nl ++ nl ++ js "Hello world foo. Hi.") initialWorld)
      = Ok tt
      <-> alwaysPosted (List.length (tweetLog initialWorld))
            (js "Grixo Updates" ++ nl ++ nl ++ js "Hello world foo. Hi.") = None).
Proof.
  apply (composed_post_reaches_provider (exampleEnv (Some (js "40")))
           (constantProvider (js "Hello world foo. Hi. And a good deal more than fits."))
           alwaysPosted (js "summary") (Some (js "Grixo")) initialWorld _
           (countGeminiCall (countGeminiCall initialWorld)) 40 initialWorld).
  - reflexivity.
  - vm_compute. discriminate.
  - vm_compute. reflexivity.
  - reflexivity.
Defined.

(** ** The composer only cuts *)

Lemma partOf_refl s : partOf s s.
Proof. exists [], []. by rewrite app_nil_r. Qed.

Lemma partOf_trans a b c : partOf a b -> partOf b c -> partOf a c.
Proof.
  intros (l1 & r1 & ->) (l2 & r2 & ->). exists (l2 ++ l1), (r1 ++ r2).
  by rewrite <- !app_assoc.
Qed.

Lemma partOf_nil s : partOf [] s.
Proof. by exists [], s. Qed.

Lemma partOf_prefix a r : partOf a (a ++ r).
Proof. by exists [], r. Qed.

Lemma partOf_cons c a s : partOf a s -> partOf a (c :: s).
Proof. intros (l & r & ->). by exists (c :: l), r. Qed.

Lemma trim_partOf s : partOf (trim s) s.
Proof.
  unfold trim.
  destruct (trimStart_split s) as (l & Hl & _).
  destruct (trimEnd_split (trimStart s)) as (r & Hr & _).
  exists l, r. by rewrite <- Hr.
Qed.

Lemma slice1m1_partOf s : partOf (slice1m1 s) s.
Proof.
  unfold slice1m1. destruct s as [|c t]; [apply partOf_nil|]. cbn [tl].
  destruct (decide (t = [])) as [-> | Hne]; [apply partOf_nil|].
  exists [c], [List.last t 0%N]. cbn [app]. f_equal. by apply app_removelast_last.
Qed.

Lemma stripQuotes_partOf q s : partOf (stripQuotes q s) s.
Proof.
  unfold stripQuotes.
  destruct (startsWith s [q] && endsWith s [q]);
    [apply slice1m1_partOf | apply partOf_refl].
Qed.

Lemma cleanResponse_partOf text : partOf (cleanResponse text) text.
Proof.
  unfold cleanResponse.
  eapply partOf_trans; [apply trim_partOf|].
  eapply partOf_trans; [apply stripQuotes_partOf|].
  eapply partOf_trans; [apply stripQuotes_partOf|]. apply trim_partOf.
Qed.

(** What [span] leaves starts with a code unit that fails the test. *)
Lemma span_rest p s a b :
  span p s = (a, b) -> b = [] \/ exists c b', b = c :: b' /\ p c = false.
Proof.
  revert a b. induction s as [|c s IH]; intros a b; cbn [span].
  - intros [= <- <-]. by left.
  - destruct (p c) eqn:Hc.
    + destruct (span p s) as [a' b'] eqn:Hs. intros [= <- <-]. by eapply IH.
    + intros [= <- <-]. right. eauto.
Qed.

Lemma span_all p s : Forall (fun c => p c = true) s -> span p s = (s, []).
Proof.
  induction 1 as [|c s Hc _ IH]; [reflexivity|]. cbn [span]. by rewrite Hc, IH.
Qed.

(** A text without a terminator holds no sentence. *)
Lemma matchAll_no_terminator fuel s :
  Forall (fun c => negb (isTerminator c) = true) s -> matchAll fuel s = [].
Proof.
  revert s. induction fuel as [|fuel IH]; intros s Hs; [reflexivity|].
  destruct s as [|c s']; [reflexivity|]. cbn [matchAll].
  unfold matchSentence. rewrite (span_all _ _ Hs). cbn [span].
  apply IH. by inversion Hs.
Qed.

(** Behind a sentence, and at a code unit that is no terminator, the matches
    follow one another without a gap. *)
Lemma matchAll_contiguous fuel s :
  (s = [] \/ exists c s', s = c :: s' /\ isTerminator c = false) ->
  forall k, exists r, s = concat (take k (matchAll fuel s)) ++ r.
Proof.
  revert s. induction fuel as [|fuel IH]; intros s Hs k.
  - exists s. by destruct k.
  - destruct Hs as [-> | (c & s' & -> & Hc)]; [exists []; by destruct k|].
    cbn [matchAll]. unfold matchSentence.
    destruct (span (fun c => negb (isTerminator c)) (c :: s')) as [body r] eqn:Hbody.
    destruct (span isTerminator r) as [terms r'] eqn:Hterms.
    pose proof (span_spec _ _ _ _ Hbody) as [Hs Hall].
    pose proof (span_spec _ _ _ _ Hterms) as [Hr _].
    destruct body as [|b body].
    { cbn [span] in Hbody. rewrite Hc in Hbody. cbn [negb] in Hbody.
      destruct (span _ s'); discriminate. }
    destruct terms as [|t terms].
    + destruct (span_rest _ _ _ _ Hbody) as [-> | (d & r0 & -> & Hd)].
      * rewrite app_nil_r in Hs. injection Hs as -> ->.
        rewrite matchAll_no_terminator; [|by inversion Hall].
        exists (b :: body). by destruct k.
      * cbn [span] in Hterms. apply negb_false_iff in Hd. rewrite Hd in Hterms.
        destruct (span isTerminator r0); discriminate.
    + destruct k as [|k]; [by exists (c :: s')|].
      destruct (IH r' (span_rest _ _ _ _ Hterms) k) as (rest & Hrest).
      exists rest. cbn [take concat]. rewrite <- app_assoc, <- Hrest, Hs, Hr.
      by rewrite <- app_assoc.
Qed.

(** Any number of the first sentences of a text, one after the other, is a
    contiguous part of the text. *)
Lemma matchAll_partOf fuel s k : partOf (concat (take k (matchAll fuel s))) s.
Proof.
  revert s. induction fuel as [|fuel IH]; intros s.
  - destruct k; apply partOf_nil.
  - destruct s as [|c s']; [destruct k; apply partOf_nil|].
    destruct (isTerminator c) eqn:Hc.
    + cbn [matchAll]. unfold matchSentence. cbn [span]. rewrite Hc. cbn [negb].
      destruct (span isTerminator (c :: s')) as [terms r'].
      apply partOf_cons, IH.
    + destruct (matchAll_contiguous (S fuel) (c :: s')) with (k := k) as (r & Hr);
        [right; eauto|].
      rewrite Hr at 2. apply partOf_prefix.
Qed.

Lemma accumulateSentences_concat b t ss :
  exists k, accumulateSentences b t ss = t ++ concat (take k ss).
Proof.
  revert t. induction ss as [|s ss IH]; intros t.
  - exists 0%nat. cbn. by rewrite app_nil_r.
  - cbn [accumulateSentences].
    destruct (numLe (Some (len (t ++ s))) b).
    + destruct (IH (t ++ s)) as (k & ->). exists (S k). cbn [take concat].
      by rewrite <- app_assoc.
    + exists 0%nat. cbn. by rewrite app_nil_r.
Qed.

(** The words loop gives a contiguous part of the words joined by spaces;
    empty words at the front add nothing, not even their spaces. *)
Lemma accumulateWords_partOf b todo t :
  partOf (accumulateWords b t todo)
    (t ++ (if truthy t
           then match todo with [] => [] | _ :: _ => 32%N :: join [32%N] todo end
           else join [32%N] todo)).
Proof.
  revert t. induction todo as [|w todo IH]; intros t.
  - cbn [accumulateWords]. apply partOf_prefix.
  - cbn [accumulateWords].
    destruct (numLe _ b); [|apply partOf_prefix].
    eapply partOf_trans; [apply IH|].
    destruct t as [|c t]; cbn [truthy app].
    + destruct w as [|d w]; cbn [truthy app].
      * destruct todo as [|w' todo]; [apply partOf_refl|].
        cbn [join app]. apply partOf_cons, partOf_refl.
      * destruct todo as [|w' todo]; cbn [join]; [rewrite app_nil_r|];
          apply partOf_refl.
    + destruct todo as [|w' todo]; cbn [join app].
      * rewrite app_nil_r. apply partOf_refl.
      * rewrite <- !app_assoc. cbn [app]. apply partOf_refl.
Qed.

(** The fallback gives a contiguous part of the post it is given. *)
Lemma truncatePost_partOf post b : partOf (truncatePost post b) post.
Proof.
  unfold truncatePost.
  destruct (truthy (accumulateSentences b [] (sentences post))).
  - eapply partOf_trans; [apply trim_partOf|].
    destruct (accumulateSentences_concat b [] (sentences post)) as (k & ->).
    apply matchAll_partOf.
  - eapply partOf_trans; [apply trim_partOf|].
    pose proof (accumulateWords_partOf b (split 32 post) []) as H.
    cbn [truthy app] in H. by rewrite join_split in H.
Qed.

Lemma generateWithPrompt_ok env complete prompt w text w' :
  generateWithPrompt env complete prompt w = (Ok text, w') ->
  exists answer,
    complete (geminiCalls w) prompt = inl answer
    /\ text = cleanResponse answer /\ w' = countGeminiCall w.
Proof.
  unfold generateWithPrompt.
  destruct (truthyOpt (GEMINI_API_KEY env)); [|discriminate].
  destruct (complete (geminiCalls w) prompt) as [answer|m]; [|discriminate].
  intros [= <- <-]. eauto.
Qed.

Lemma truncatePost_trimmed post b : trim (truncatePost post b) = truncatePost post b.
Proof. unfold truncatePost. destruct (truthy _); apply trim_trim. Qed.

(** X14: the composer only cuts.  The text [generatePost] returns behind the
    prefix is a contiguous part of one answer of the provider, the answer to
    its first or to its second request, and carries no white space at either
    end: neither the clean-up of an answer nor the truncation fallback adds,
    reorders or replaces a code unit. *)
Theorem generatePost_only_cuts env complete summary projectName w post w' :
  generatePost env complete summary projectName w = (Ok post, w') ->
  exists n prompt answer content,
    (n = geminiCalls w \/ n = S (geminiCalls w))
    /\ complete n prompt = inl answer
    /\ post = postPrefix projectName ++ content
    /\ partOf content answer
    /\ trim content = content.
Proof.
  unfold generatePost, bind, ret. intros H.
  set (maxPostLength := numSub (characterLimit env) (Some (len (postPrefix projectName)))) in *.
  assert (forall content,
    (if truthyOpt projectName
     then default [] projectName ++ js " Updates" ++ nl ++ nl ++ content
     else content) = postPrefix projectName ++ content) as Hprefix.
  { intros content. unfold postPrefix. destruct (truthyOpt projectName).
    - by rewrite <- !app_assoc.
    - reflexivity. }
  destruct (generateWithPrompt env complete _ w) as [[p1|e1] w1] eqn:H1; [|discriminate].
  apply generateWithPrompt_ok in H1 as (a1 & Ha1 & -> & ->).
  destruct (numGt (Some (len (trim (cleanResponse a1)))) maxPostLength) eqn:G1.
  - destruct (generateWithPrompt env complete _ (countGeminiCall w))
      as [[p2|e2] w2] eqn:H2; [|discriminate].
    apply generateWithPrompt_ok in H2 as (a2 & Ha2 & -> & ->).
    change (geminiCalls (countGeminiCall w)) with (S (geminiCalls w)) in Ha2.
    rewrite Hprefix in H.
    destruct (numGt (Some (len (trim (cleanResponse a2)))) maxPostLength);
      injection H as <- _;
      eexists _, _, a2, _; (split; [by right|]); (split; [exact Ha2|]);
      (split; [reflexivity|]).
    + split; [|apply truncatePost_trimmed].
      eapply partOf_trans; [apply truncatePost_partOf|].
      eapply partOf_trans; [apply trim_partOf | apply cleanResponse_partOf].
    + split; [|apply trim_trim].
      eapply partOf_trans; [apply trim_partOf | apply cleanResponse_partOf].
  - rewrite G1, Hprefix in H. injection H as <- _.
    eexists _, _, a1, _. split; [by left|]. split; [exact Ha1|].
    split; [reflexivity|]. split; [|apply trim_trim].
    eapply partOf_trans; [apply trim_partOf | apply cleanResponse_partOf].
Qed.

Lemma generatePost_only_cuts_witness :
  exists n prompt answer content,
    (n = geminiCalls initialWorld \/ n = S (geminiCalls initialWorld))
    /\ constantProvider (js "  'Hello world foo. Hi. And a good deal more than fits.' ")
         n prompt = inl answer
    /\ js "Grixo Updates" ++ nl ++ nl ++ js "Hello world foo. Hi."
       = postPrefix (Some (js "Grixo")) ++ content
    /\ partOf content answer
    /\ trim content = content.
Proof.
  apply (generatePost_only_cuts (exampleEnv (Some (js "40")))
           (constantProvider (js "  'Hello world foo. Hi. And a good deal more than fits.' "))
           (js "summary") (Some (js "Grixo")) initialWorld _
           (countGeminiCall (countGeminiCall initialWorld))).
  vm_compute. reflexivity.
Defined.

(** ** The commit source adapter *)

Lemma split_pieces sep s : Forall (Forall (fun c => c <> sep)) (split sep s).
Proof.
  induction s as [|c s IH]; cbn [split]; [by repeat constructor|].
  destruct (N.eqb_spec c sep) as [-> | Hc]; [by constructor|].
  destruct (split sep s) as [|w ws]; [by repeat constructor|].
  inversion IH; subst. by repeat constructor.
Qed.

Section AdapterProperties.

Variable listCommits :
  nat -> jsstring -> jsstring -> option jsstring -> Z
  -> GitHub.Failure + list GitHub.GitHubCommit.
Variable commitDetail :
  nat -> jsstring -> jsstring -> option jsstring -> jsstring
  -> option (option (list CommitFile)).
Variable toLocaleDateString : jsstring -> jsstring.
Variable sortByDate : list CommitInfo -> list CommitInfo.

Lemma withDetails_spec owner name token commits n :
  snd (GitHub.withDetails commitDetail toLocaleDateString owner name token commits n) = (n + List.length commits)%nat
  /\ List.length (fst (GitHub.withDetails commitDetail toLocaleDateString owner name token commits n)) = List.length commits
  /\ forall i commit,
       commits !! i = Some commit ->
       exists info,
         fst (GitHub.withDetails commitDetail toLocaleDateString owner name token commits n) !! i = Some info
         /\ sha info = take 7 (GitHub.commitSha commit)
         /\ repo info = owner ++ js "/" ++ name
         /\ (10%N ∉ message info)
         /\ (files info = None <->
             commitDetail (n + i)%nat owner name (GitHub.authorization token)
               (GitHub.commitSha commit) = None).
Proof.
  revert n. induction commits as [|c commits IH]; intros n.
  - cbn. split; [lia|]. split; [reflexivity|]. intros i commit Hi. by destruct i.
  - cbn [GitHub.withDetails].
    destruct (GitHub.withDetails commitDetail toLocaleDateString owner name token
                commits (S n)) as [infos n'] eqn:Hrest.
    specialize (IH (S n)). rewrite Hrest in IH. cbn [fst snd] in *.
    destruct IH as (Hn & Hlen & Hinfos).
    split; [cbn [List.length]; lia|]. split; [cbn [List.length]; lia|].
    intros [|i] commit Hi.
    + injection Hi as ->. eexists. split; [reflexivity|].
      cbn [sha repo message files GitHub.commitInfo].
      split; [reflexivity|]. split; [reflexivity|]. split.
      * pose proof (split_pieces 10 (GitHub.commitMessage commit)) as Hp.
        destruct (split 10 (GitHub.commitMessage commit)) as [|p ps]; cbn [hd].
        -- apply not_elem_of_nil.
        -- inversion Hp as [|? ? Hhead _]; subst. intros Hin.
           by apply (proj1 (Forall_forall _ _) Hhead) in Hin.
      * rewrite Nat.add_0_r.
        by destruct (commitDetail n owner name _ _) as [[fs|]|].
    + destruct (Hinfos i commit Hi) as (info & Hlook & Hrest').
      exists info. split; [exact Hlook|].
      by replace (n + S i)%nat with (S n + i)%nat by lia.
Qed.

Lemma collect_provenance repos token count n c :
  c ∈ fst (GitHub.collect listCommits commitDetail toLocaleDateString repos token count n) ->
  exists entry owner name,
    entry ∈ repos /\ GitHub.ownerAndName entry = (owner, Some name)
    /\ owner <> [] /\ name <> [] /\ repo c = owner ++ js "/" ++ name.
Proof.
  revert n. induction repos as [|entry repos IH]; intros n.
  - cbn. by intros ?%elem_of_nil.
  - cbn [GitHub.collect].
    destruct (GitHub.ownerAndName entry) as [owner repoName] eqn:Hentry.
    assert (forall m, c ∈ fst (GitHub.collect listCommits commitDetail
                                 toLocaleDateString repos token count m) ->
      exists entry0 owner0 name0,
        entry0 ∈ entry :: repos /\ GitHub.ownerAndName entry0 = (owner0, Some name0)
        /\ owner0 <> [] /\ name0 <> [] /\ repo c = owner0 ++ js "/" ++ name0) as Hrest.
    { intros m Hm. destruct (IH m Hm) as (e & o & nm & He & Hrest).
      exists e, o, nm. split; [by right | exact Hrest]. }
    destruct owner as [|o owner]; [apply Hrest|].
    destruct repoName as [[|r name]|]; [apply Hrest | | apply Hrest].
    change (default [] (Some (r :: name))) with (r :: name).
    cbn [truthy truthyOpt negb orb].
    unfold GitHub.getRecentCommits.
    destruct (listCommits n (o :: owner) (r :: name) (GitHub.authorization token) count)
      as [f|commits]; [apply Hrest|].
    pose proof (withDetails_spec (o :: owner) (r :: name) token commits (S n))
      as (_ & Hlen & Hinfos).
    destruct (GitHub.withDetails _ _ _ _ _ commits (S n)) as [infos n'].
    destruct (GitHub.collect _ _ _ repos token count n') as [more n''] eqn:Hmore.
    cbn [fst snd] in *. intros [Hin | Hin]%elem_of_app.
    + apply list_elem_of_lookup in Hin as (i & Hi).
      assert (is_Some (commits !! i)) as [commit Hcommit].
      { apply lookup_lt_is_Some. rewrite <- Hlen. by eapply lookup_lt_Some. }
      destruct (Hinfos i commit Hcommit) as (info & Hinfo & _ & Hrepo & _).
      rewrite Hi in Hinfo. injection Hinfo as <-.
      exists entry, (o :: owner), (r :: name).
      split; [by left|]. by repeat split.
    + apply (Hrest n'). by rewrite Hmore.
Qed.

End AdapterProperties.

(** X15: [getRecentCommits] keeps every listed commit.  When the listing
    succeeds it returns one entry for each listed commit, in order, after
    one detail request each: the short hash is the first seven code units
    of the commit's, the repository is [owner/name], the message holds no
    line feed, and the files are absent exactly when the detail request for
    that commit failed. *)
Theorem getRecentCommits_keeps_every_commit listCommits commitDetail
    toLocaleDateString owner name token count n commits :
  listCommits n owner name (GitHub.authorization token) count = inr commits ->
  exists infos,
    GitHub.getRecentCommits listCommits commitDetail toLocaleDateString
      owner name token count n
    = (Ok infos, (S n + List.length commits)%nat)
    /\ List.length infos = List.length commits
    /\ forall i commit,
         commits !! i = Some commit ->
         exists info,
           infos !! i = Some info
           /\ sha info = take 7 (GitHub.commitSha commit)
           /\ repo info = owner ++ js "/" ++ name
           /\ (10%N ∉ message info)
           /\ (files info = None <->
               commitDetail (S n + i)%nat owner name (GitHub.authorization token)
                 (GitHub.commitSha commit) = None).
Proof.
  intros Hlist. unfold GitHub.getRecentCommits. rewrite Hlist.
  pose proof (withDetails_spec commitDetail toLocaleDateString owner name token
                commits (S n)) as (Hn & Hlen & Hinfos).
  destruct (GitHub.withDetails commitDetail toLocaleDateString owner name token
              commits (S n)) as [infos n'].
  cbn [fst snd] in *. subst n'. by exists infos.
Qed.

Lemma getRecentCommits_keeps_every_commit_witness :
  exists infos,
    GitHub.getRecentCommits GitHub.exampleListCommits GitHub.exampleCommitDetail
      GitHub.exampleDate (js "octo") (js "cat") None 5 0%nat
    = (Ok infos, (1 + List.length GitHub.exampleListing)%nat)
    /\ List.length infos = List.length GitHub.exampleListing
    /\ forall i commit,
         GitHub.exampleListing !! i = Some commit ->
         exists info,
           infos !! i = Some info
           /\ sha info = take 7 (GitHub.commitSha commit)
           /\ repo info = js "octo" ++ js "/" ++ js "cat"
           /\ (10%N ∉ message info)
           /\ (files info = None <->
               GitHub.exampleCommitDetail (1 + i)%nat (js "octo") (js "cat")
                 (GitHub.authorization None) (GitHub.commitSha commit) = None).
Proof.
  apply (getRecentCommits_keeps_every_commit GitHub.exampleListCommits
           GitHub.exampleCommitDetail GitHub.exampleDate (js "octo") (js "cat")
           None 5 0%nat GitHub.exampleListing).
  reflexivity.
Defined.

Lemma sliceTo_length {A} count (l : list A) : 0 <= count -> len (GitHub.sliceTo count l) <= count.
Proof.
  intros Hcount. unfold GitHub.sliceTo.
  destruct (count <? 0) eqn:Hneg; [apply Z.ltb_lt in Hneg; lia|].
  unfold len. rewrite length_take. lia.
Qed.

Lemma sliceTo_subseteq {A} count (l : list A) : GitHub.sliceTo count l ⊆ l.
Proof. unfold GitHub.sliceTo. destruct (count <? 0); apply subseteq_take. Qed.

Lemma collect_requests listCommits commitDetail toLocaleDateString repos token count n :
  (n <= snd (GitHub.collect listCommits commitDetail toLocaleDateString
               repos token count n))%nat.
Proof.
  revert n. induction repos as [|entry repos IH]; intros n; [cbn; lia|].
  cbn [GitHub.collect]. destruct (GitHub.ownerAndName entry) as [owner repoName].
  destruct (negb (truthy owner) || negb (truthyOpt repoName)); [apply IH|].
  unfold GitHub.getRecentCommits.
  destruct (listCommits n owner _ _ count) as [f|commits].
  - specialize (IH (S n)). lia.
  - pose proof (withDetails_spec commitDetail toLocaleDateString owner
                  (default [] repoName) token commits (S n)) as (Hn & _).
    destruct (GitHub.withDetails _ _ _ _ _ commits (S n)) as [infos n'].
    cbn [snd] in Hn. specialize (IH n').
    destruct (GitHub.collect _ _ _ repos token count n') as [more n''].
    cbn [snd] in *. lia.
Qed.

(** X16: [getRecentCommitsFromRepos] never throws.  Whatever the API
    answers, for every list of repositories it returns a list of commits;
    for a count that is not negative the list is no longer than the count.
    The failures of a repository's listing are caught inside. *)
Theorem adapter_never_throws listCommits commitDetail toLocaleDateString sortByDate
    repos token count n :
  exists cs,
    fst (GitHub.getRecentCommitsFromRepos listCommits commitDetail toLocaleDateString
           sortByDate repos token count n) = Ok cs
    /\ (0 <= count -> len cs <= count)
    /\ (n <= snd (GitHub.getRecentCommitsFromRepos listCommits commitDetail
                    toLocaleDateString sortByDate repos token count n))%nat.
Proof.
  unfold GitHub.getRecentCommitsFromRepos.
  pose proof (collect_requests listCommits commitDetail toLocaleDateString
                repos token count n) as Hn.
  destruct (GitHub.collect _ _ _ repos token count n) as [allCommits n'].
  eexists. split; [reflexivity|]. split; [apply sliceTo_length | exact Hn].
Qed.

(** X17: every commit [getRecentCommitsFromRepos] returns belongs to a
    configured repository: its [repo] is [owner/name] for an entry of the
    list with a non-empty owner before the first slash and a non-empty name
    behind it.  The sort only reorders. *)
Theorem adapter_commits_come_from_configured_repos listCommits commitDetail
    toLocaleDateString sortByDate repos token count n cs :
  (forall l, Permutation (sortByDate l) l) ->
  fst (GitHub.getRecentCommitsFromRepos listCommits commitDetail toLocaleDateString
         sortByDate repos token count n) = Ok cs ->
  forall c, c ∈ cs ->
    exists entry owner name,
      entry ∈ repos /\ GitHub.ownerAndName entry = (owner, Some name)
      /\ owner <> [] /\ name <> [] /\ repo c = owner ++ js "/" ++ name.
Proof.
  intros Hsort Hcs c Hc. unfold GitHub.getRecentCommitsFromRepos in Hcs.
  pose proof (collect_provenance listCommits commitDetail toLocaleDateString
                repos token count n c) as Hprov.
  destruct (GitHub.collect _ _ _ repos token count n) as [allCommits n'].
  cbn [fst] in *. injection Hcs as <-.
  apply Hprov. apply sliceTo_subseteq in Hc. by rewrite (Hsort allCommits) in Hc.
Qed.


Lemma adapter_commits_come_from_configured_repos_witness :
  exists entry owner name,
    entry ∈ [js "octo/gone"; js "octo/cat"; js "nonsense"]
    /\ GitHub.ownerAndName entry = (owner, Some name)
    /\ owner <> [] /\ name <> []
    /\ repo GitHub.exampleInfo = owner ++ js "/" ++ name.
Proof.
  apply (adapter_commits_come_from_configured_repos GitHub.exampleListCommits
           GitHub.exampleCommitDetail GitHub.exampleDate GitHub.keepOrder
           [js "octo/gone"; js "octo/cat"; js "nonsense"] None 5 0%nat
           (fst (GitHub.withDetails GitHub.exampleCommitDetail GitHub.exampleDate
                   (js "octo") (js "cat") None GitHub.exampleListing 2))).
  - intros l. reflexivity.
  - vm_compute. reflexivity.
  - vm_compute. left.
Defined.

(** X18: a repository that cannot be listed does not hide the others.  An
    entry without an owner or a name costs no request, an entry whose
    listing fails costs that one request, and in both cases the adapter
    returns what it returns for the remaining entries. *)
Theorem adapter_passes_over_failing_repo listCommits commitDetail toLocaleDateString
    sortByDate entry repos token count n :
  (GitHub.wellFormed entry = false
   \/ exists failure,
        listCommits n (fst (GitHub.ownerAndName entry))
          (default [] (snd (GitHub.ownerAndName entry)))
          (GitHub.authorization token) count = inl failure) ->
  GitHub.getRecentCommitsFromRepos listCommits commitDetail toLocaleDateString
    sortByDate (entry :: repos) token count n
  = GitHub.getRecentCommitsFromRepos listCommits commitDetail toLocaleDateString
      sortByDate repos token count (if GitHub.wellFormed entry then S n else n).
Proof.
  unfold GitHub.getRecentCommitsFromRepos, GitHub.wellFormed.
  cbn [GitHub.collect].
  destruct (GitHub.ownerAndName entry) as [owner repoName]. cbn [fst snd].
  destruct (truthy owner && truthyOpt repoName) eqn:Hwell.
  - intros [? | (failure & Hfail)]; [discriminate|].
    apply andb_true_iff in Hwell as [-> ->]. cbn [negb orb].
    unfold GitHub.getRecentCommits. by rewrite Hfail.
  - intros _. apply andb_false_iff in Hwell as [-> | ->]; cbn [negb orb];
      [reflexivity | by rewrite orb_true_r].
Qed.

Lemma adapter_passes_over_failing_repo_witness :
  GitHub.getRecentCommitsFromRepos GitHub.exampleListCommits GitHub.exampleCommitDetail
    GitHub.exampleDate GitHub.keepOrder [js "octo/gone"; js "octo/cat"] None 5 0%nat
  = GitHub.getRecentCommitsFromRepos GitHub.exampleListCommits GitHub.exampleCommitDetail
      GitHub.exampleDate GitHub.keepOrder [js "octo/cat"] None 5
      (if GitHub.wellFormed (js "octo/gone") then 1%nat else 0%nat).
Proof.
  apply (adapter_passes_over_failing_repo GitHub.exampleListCommits
           GitHub.exampleCommitDetail GitHub.exampleDate GitHub.keepOrder
           (js "octo/gone") [js "octo/cat"] None 5 0%nat).
  right. exists (GitHub.Status 404). reflexivity.
Defined.

(** ** The commits route *)

(** X19: the route [GET /api/automation/github/commits] never answers with
    a server error.  It answers 400 without a request to the API when no
    repository is configured, and else 200 with at most five commits: the
    adapter catches the failures of the API, so the route's own error
    branch is never taken. *)
Theorem commits_route_never_fails env githubToken listCommits commitDetail
    toLocaleDateString sortByDate n :
  let answer :=
    Server.githubCommitsRoute env githubToken listCommits commitDetail
      toLocaleDateString sortByDate n in
  if truthyOpt (GITHUB_REPOS env)
     && negb (len (configuredRepos (default [] (GITHUB_REPOS env))) =? 0)
  then exists commits,
         fst answer = {| Server.statusCode := 200; Server.body := Server.Commits commits |}
         /\ len commits <= 5
  else Server.statusCode (fst answer) = 400 /\ snd answer = n.
Proof.
  unfold Server.githubCommitsRoute.
  destruct (truthyOpt (GITHUB_REPOS env)); cbn [negb andb]; [|done].
  destruct (len (configuredRepos (default [] (GITHUB_REPOS env))) =? 0);
    cbn [negb]; [done|].
  unfold GitHub.getRecentCommitsFromRepos.
  destruct (GitHub.collect _ _ _ _ githubToken 5 n) as [allCommits n'].
  eexists. split; [reflexivity | by apply sliceTo_length].
Qed.

(** ** The adapter and the project name *)

Lemma ownerAndName_pieces entry owner name :
  GitHub.ownerAndName entry = (owner, Some name) ->
  Forall (fun c => c <> 47%N) owner /\ Forall (fun c => c <> 47%N) name.
Proof.
  unfold GitHub.ownerAndName. pose proof (split_pieces 47 entry) as Hp.
  destruct (split 47 entry) as [|o [|nm rest]]; try discriminate.
  intros [= <- <-]. inversion Hp as [|? ? Ho Hrest]; subst.
  by inversion Hrest.
Qed.

(** X20: the default project name is never used for a commit that came
    through the adapter.  The [repo] of such a commit is an owner, a slash
    and a non-empty name, neither holding a slash, so the project name the
    bot derives from it is that name, first code unit upper-cased and the
    rest lower-cased, whatever [DISCORD_DEFAULT_PROJECT_NAME] is set to. *)
Theorem adapter_commits_name_their_project listCommits commitDetail
    toLocaleDateString sortByDate toUpperCase toLowerCase repos token count n cs :
  (forall l, Permutation (sortByDate l) l) ->
  fst (GitHub.getRecentCommitsFromRepos listCommits commitDetail toLocaleDateString
         sortByDate repos token count n) = Ok cs ->
  forall c, c ∈ cs ->
    exists owner name,
      repo c = owner ++ js "/" ++ name
      /\ (47%N ∉ owner) /\ (47%N ∉ name) /\ name <> []
      /\ forall env,
           projectNameOf env toUpperCase toLowerCase (Some (repo c))
           = toUpperCase (take 1 name) ++ toLowerCase (drop 1 name).
Proof.
  intros Hsort Hcs c Hc. unfold GitHub.getRecentCommitsFromRepos in Hcs.
  pose proof (collect_provenance listCommits commitDetail toLocaleDateString
                repos token count n c) as Hprov.
  destruct (GitHub.collect _ _ _ repos token count n) as [allCommits n'].
  cbn [fst] in *. injection Hcs as <-.
  apply sliceTo_subseteq in Hc. rewrite (Hsort allCommits) in Hc.
  destruct (Hprov Hc) as (entry & owner & name & _ & Hentry & _ & Hname & Hrepo).
  destruct (ownerAndName_pieces _ _ _ Hentry) as [Howner Hnm].
  exists owner, name. split; [exact Hrepo|].
  split; [intros Hin; by apply (proj1 (Forall_forall _ _) Howner) in Hin|].
  split; [intros Hin; by apply (proj1 (Forall_forall _ _) Hnm) in Hin|].
  split; [exact Hname|]. intros env.
  unfold projectNameOf. rewrite Hrepo. cbn [mbind option_bind].
  change (js "/" ++ name) with (47%N :: name).
  rewrite (split_app_sep 47 owner name Howner), (split_no_sep 47 name Hnm).
  cbn [lookup list_lookup]. destruct name as [|d name]; [done|]. reflexivity.
Qed.

Lemma adapter_commits_name_their_project_witness :
  exists owner name,
    repo GitHub.exampleInfo = owner ++ js "/" ++ name
    /\ (47%N ∉ owner) /\ (47%N ∉ name) /\ name <> []
    /\ forall env,
         projectNameOf env asciiUpperCase asciiLowerCase (Some (repo GitHub.exampleInfo))
         = asciiUpperCase (take 1 name) ++ asciiLowerCase (drop 1 name).
Proof.
  apply (adapter_commits_name_their_project GitHub.exampleListCommits
           GitHub.exampleCommitDetail GitHub.exampleDate GitHub.keepOrder
           asciiUpperCase asciiLowerCase
           [js "octo/gone"; js "octo/cat"; js "nonsense"] None 5 0%nat
           (fst (GitHub.withDetails GitHub.exampleCommitDetail GitHub.exampleDate
                   (js "octo") (js "cat") None GitHub.exampleListing 2))).
  - intros l. reflexivity.
  - vm_compute. reflexivity.
  - vm_compute. left.
Defined.

(** ** A limit that does not parse *)

(** X21: a character limit that does not parse as a number switches every
    length check off.  The composer then returns the provider's first
    answer whatever its length, after one request, and the publisher hands
    a text of any length to the posting provider. *)
Theorem unparsable_limit_disables_checks env complete tweet summary projectName
    w answer text wp :
  characterLimit env = None ->
  truthyOpt (GEMINI_API_KEY env) = true ->
  truthyOpt (X_API_KEY env) && truthyOpt (X_API_SECRET env)
  && truthyOpt (X_ACCESS_TOKEN env) && truthyOpt (X_ACCESS_TOKEN_SECRET env) = true ->
  complete (geminiCalls w)
    (PostPrompt summary projectName None (len (postPrefix projectName)) None)
  = inl answer ->
  generatePost env complete summary projectName w
  = (Ok (postPrefix projectName ++ trim (cleanResponse answer)), countGeminiCall w)
  /\ snd (postToX env tweet text wp) = logTweet text wp.
Proof.
  intros Hlimit Hkey Hcreds Hanswer. split.
  - unfold generatePost, bind, ret. rewrite Hlimit. cbn [numSub].
    rewrite (generateWithPrompt_answer _ _ _ _ Hkey), Hanswer. cbn [numGt].
    unfold postPrefix. destruct (truthyOpt projectName); [|reflexivity].
    by rewrite <- !app_assoc.
  - apply andb_true_iff in Hcreds as [Hcreds H4].
    apply andb_true_iff in Hcreds as [Hcreds H3].
    apply andb_true_iff in Hcreds as [H1 H2].
    unfold postToX. rewrite Hlimit. cbn [numGt].
    rewrite H1, H2, H3, H4. cbn [andb negb].
    by destruct (tweet (List.length (tweetLog wp)) text).
Qed.

Lemma unparsable_limit_disables_checks_witness :
  generatePost (exampleEnv (Some (js "none")))
    (constantProvider (js "An answer of any length.")) (js "summary") None initialWorld
  = (Ok (postPrefix None ++ trim (cleanResponse (js "An answer of any length."))),
     countGeminiCall initialWorld)
  /\ snd (postToX (exampleEnv (Some (js "none"))) alwaysPosted
            (js "A text of any length.") initialWorld)
     = logTweet (js "A text of any length.") initialWorld.
Proof.
  apply (unparsable_limit_disables_checks (exampleEnv (Some (js "none")))
           (constantProvider (js "An answer of any length.")) alwaysPosted
           (js "summary") None initialWorld (js "An answer of any length.")
           (js "A text of any length.") initialWorld).
  - reflexivity.
  - reflexivity.
  - reflexivity.
  - reflexivity.
Defined.
